(** * Coarse matching (LoFTR) : a shallow embedding of
      [model/loftr_src/loftr/utils/coarse_matching.py]

    Tensors are nested lists (row-major, outermost axis first).  The
    discrete part of the matcher ([get_coarse_match], the border masks) only
    compares, multiplies and divides scalars, so it is written over a
    [Scalar] interface with two instances: the rationals [Q] (every finite
    float is a rational and float comparisons agree with rational ones; this
    instance computes) and the reals [R].  The differentiable part
    ([forward]: square root, exponential, softmax) is written over [R], the
    exact arithmetic that the float kernels approximate, and a second time
    over floats (the reals within the range of the format, the infinities
    and NaN, with rounding and overflow) for the range of the confidence,
    which overflow decides.

    Python exceptions are values of [exn]; a method that can raise returns
    [result].  The [data] dictionary is a record whose optional keys are
    [option] fields, and [forward], which updates the dictionary in place,
    returns the updated dictionary together with its outcome.

    Shape errors of the tensor library (ragged or mismatched tensors, a
    reduction over an empty axis) are outside the model: the functions are
    total on lists and the theorems assume well-shaped tensors. *)

From Stdlib Require Import String.
From Stdlib Require Import List ZArith QArith Qminmax Reals Lra Lia Bool Arith.
From Stdlib Require Import Sorted.
Import ListNotations.

Close Scope Q_scope.
Open Scope nat_scope.

Set Implicit Arguments.

(** ** Exceptions *)

Inductive exn : Type :=
| AssertionError
| AttributeError
| ImportError
| KeyError
| NotImplementedError.

Definition result (A : Type) : Type := (exn + A)%type.

Definition ret {A : Type} (a : A) : result A := inr a.
Definition raise {A : Type} (e : exn) : result A := inl e.
Definition bind {A B : Type} (m : result A) (k : A -> result B) : result B :=
  match m with
  | inl e => inl e
  | inr a => k a
  end.

Notation "x <- m ;; k" := (bind m (fun x => k))
  (at level 61, m at next level, right associativity).

(** ** Scalars *)

Class Scalar (T : Type) : Type := {
  szero : T;
  sgtb : T -> T -> bool;      (* x > y  *)
  seqb : T -> T -> bool;      (* x == y *)
  smul : T -> T -> T;
  sdiv : T -> T -> T;
  sofnat : nat -> T
}.

(** The order facts that the comparison kernels satisfy on numbers that are
    not NaN. *)
Class ScalarOrder (T : Type) {ST : Scalar T} : Prop := {
  sgtb_asym : forall x y : T, sgtb x y = true -> sgtb y x = false;
  sle_trans : forall x y z : T,
      sgtb x y = false -> sgtb y z = false -> sgtb x z = false;
  seqb_sle : forall x y : T, seqb x y = true -> sgtb y x = false
}.

Arguments ScalarOrder T {ST}.

#[export] Instance Scalar_Q : Scalar Q := {
  szero := 0%Q;
  sgtb := fun x y => negb (Qle_bool x y);
  seqb := Qeq_bool;
  smul := Qmult;
  sdiv := Qdiv;
  sofnat := fun n => inject_Z (Z.of_nat n)
}.

#[export] Instance Scalar_R : Scalar R := {
  szero := 0%R;
  sgtb := fun x y => if Rgt_dec x y then true else false;
  seqb := fun x y => if Req_dec_T x y then true else false;
  smul := Rmult;
  sdiv := Rdiv;
  sofnat := INR
}.

(** ** Tensors as nested lists *)

Definition tensor2 (A : Type) : Type := list (list A).
Definition tensor3 (A : Type) : Type := list (list (list A)).
Definition tensor5 (A : Type) : Type := list (list (list (list (list A)))).

Definition get2 {A : Type} (d : A) (t : tensor2 A) (i j : nat) : A :=
  nth j (nth i t []) d.

Definition get3 {A : Type} (d : A) (t : tensor3 A) (b i j : nat) : A :=
  nth j (nth i (nth b t []) []) d.

(** [shape2 t L S]: [t] has [L] rows of [S] entries. *)
Definition shape2 {A : Type} (t : tensor2 A) (L S : nat) : Prop :=
  length t = L /\ Forall (fun row => length row = S) t.

Definition shape3 {A : Type} (t : tensor3 A) (N L S : nat) : Prop :=
  length t = N /\ Forall (fun m => shape2 m L S) t.

Fixpoint mapi_from {A B : Type} (k : nat) (f : nat -> A -> B) (l : list A)
  : list B :=
  match l with
  | [] => []
  | x :: r => f k x :: mapi_from (S k) f r
  end.

Definition mapi {A B : Type} (f : nat -> A -> B) (l : list A) : list B :=
  mapi_from 0 f l.

(** Row-major reshape of a flat list into [rows] rows of [cols] entries. *)
Fixpoint unflatten {A : Type} (rows cols : nat) (l : list A) : list (list A) :=
  match rows with
  | O => []
  | S r => firstn cols l :: unflatten r cols (skipn cols l)
  end.

(** ** Python slices *)

(** A slice bound [k] on a sequence of length [n]: negative bounds count from
    the end, and every bound is clipped to [0..n]. *)
Definition norm_index (n : nat) (k : Z) : nat :=
  Z.to_nat (if (k <? 0)%Z then Z.max 0 (k + Z.of_nat n)
            else Z.min k (Z.of_nat n)).

(** [l[lo:hi] = ...]: apply [f] to the entries of the slice. *)
Definition fill_slice {A : Type} (lo hi : option Z) (f : A -> A) (l : list A)
  : list A :=
  let n := length l in
  let a := match lo with None => O | Some k => norm_index n k end in
  let b := match hi with None => n | Some k => norm_index n k end in
  mapi (fun idx x => if (a <=? idx) && (idx <? b) then f x else x) l.

Definition fill1 {A : Type} (v : A) (l : list A) : list A :=
  map (fun _ => v) l.
Definition fill2 {A : Type} (v : A) (l : tensor2 A) : tensor2 A :=
  map (fill1 v) l.
Definition fill3 {A : Type} (v : A) (l : tensor3 A) : tensor3 A :=
  map (fill2 v) l.

(** Replace entry [k] of a list by its image under [f].  Out of range the
    list is unchanged (Python raises IndexError; that needs a batch of
    padding masks longer than the batch of [m], an ill-shaped input). *)
Fixpoint update_nth {A : Type} (k : nat) (f : A -> A) (l : list A) : list A :=
  match l, k with
  | [], _ => []
  | x :: r, O => f x :: r
  | x :: r, S k' => x :: update_nth k' f r
  end.

(** ** Reductions of the padding masks *)

Definition count_true (l : list bool) : nat :=
  length (filter (fun x => x) l).

Definition width {A : Type} (p : tensor2 A) : nat :=
  match p with
  | [] => O
  | row :: _ => length row
  end.

(** [p.sum(1).max(-1)[0]] for one sample [p] of shape [H, W]: the largest
    column sum. *)
Definition max_col_sum (p : tensor2 bool) : nat :=
  list_max (map (fun w => count_true (map (fun row => nth w row false) p))
                (seq 0 (width p))).

(** [p.sum(-1).max(-1)[0]] for one sample: the largest row sum. *)
Definition max_row_sum (p : tensor2 bool) : nat :=
  list_max (map count_true p).

(** ** Border masks *)

Definition mask_border_with_padding {A : Type} (m : tensor5 A) (bd : Z) (v : A)
           (p_m0 p_m1 : tensor3 bool) : tensor5 A :=
  if (bd <=? 0)%Z then m
  else
    let m := map (fill_slice None (Some bd) (fill3 v)) m in
    let m := map (map (fill_slice None (Some bd) (fill2 v))) m in
    let m := map (map (map (fill_slice None (Some bd) (fill1 v)))) m in
    let m := map (map (map (map (fill_slice None (Some bd) (fun _ => v))))) m in
    let h0s := map max_col_sum p_m0 in
    let w0s := map max_row_sum p_m0 in
    let h1s := map max_col_sum p_m1 in
    let w1s := map max_row_sum p_m1 in
    fold_left
      (fun m '(b_idx, (((h0, w0), h1), w1)) =>
         let from (n : nat) := Some (Z.of_nat n - bd)%Z in
         let m := update_nth b_idx (fill_slice (from h0) None (fill3 v)) m in
         let m := update_nth b_idx
                    (map (fill_slice (from w0) None (fill2 v))) m in
         let m := update_nth b_idx
                    (map (map (fill_slice (from h1) None (fill1 v)))) m in
         update_nth b_idx
           (map (map (map (fill_slice (from w1) None (fun _ => v))))) m)
      (combine (seq 0 (length h0s))
               (combine (combine (combine h0s w0s) h1s) w1s))
      m.

Definition mask_border {A : Type} (m : tensor5 A) (b : Z) (v : A) : tensor5 A :=
  if (b <=? 0)%Z then m
  else
    let m := map (fill_slice None (Some b) (fill3 v)) m in
    let m := map (map (fill_slice None (Some b) (fill2 v))) m in
    let m := map (map (map (fill_slice None (Some b) (fill1 v)))) m in
    let m := map (map (map (map (fill_slice None (Some b) (fun _ => v))))) m in
    let m := map (fill_slice (Some (- b)%Z) None (fill3 v)) m in
    let m := map (map (fill_slice (Some (- b)%Z) None (fill2 v))) m in
    let m := map (map (map (fill_slice (Some (- b)%Z) None (fill1 v)))) m in
    map (map (map (map (fill_slice (Some (- b)%Z) None (fun _ => v))))) m.

(** ** The matcher *)

Section Matcher.
Context {T : Type} {ST : Scalar T}.

(** [log_optimal_transport(scores, alpha, iters)] of [superglue.py], a
    file that the source imports only in Sinkhorn mode and that is not part
    of the repository ("download superglue.py first!"). *)
Definition LogOptimalTransport : Type := tensor3 T -> T -> nat -> tensor3 T.

Record Config : Type := {
  cfg_thr : T;
  cfg_border_rm : Z;
  cfg_train_coarse_percent : T;
  cfg_train_pad_num_gt_min : nat;
  cfg_match_type : string;
  dsmax_temperature : T;
  skh_init_bin_score : T;
  cfg_skh_iters : nat;
  cfg_skh_prefilter : bool
}.

(** The attributes of a [CoarseMatching] object.  An attribute that
    [__init__] sets on one branch only is an [option]: reading it while it
    is unset raises AttributeError. *)
Record CoarseMatching : Type := {
  config : Config;
  thr : T;
  border_rm : Z;
  train_coarse_percent : T;
  train_pad_num_gt_min : nat;
  match_type : string;
  temperature : option T;
  log_optimal_transport : option LogOptimalTransport;
  bin_score : option T;
  skh_iters : option nat;
  skh_prefilter : option bool
}.

(** [superglue] is the result of [from .superglue import
    log_optimal_transport]: [None] when the import fails. *)
Definition __init__ (superglue : option LogOptimalTransport) (config : Config)
  : result CoarseMatching :=
  let thr := cfg_thr config in
  let border_rm := cfg_border_rm config in
  let border_rm := 0%Z in
  let train_coarse_percent := cfg_train_coarse_percent config in
  let train_pad_num_gt_min := cfg_train_pad_num_gt_min config in
  let match_type := cfg_match_type config in
  if String.eqb match_type "dual_softmax" then
    ret (Build_CoarseMatching config thr border_rm train_coarse_percent
           train_pad_num_gt_min match_type
           (Some (dsmax_temperature config)) None None None None)
  else if String.eqb match_type "sinkhorn" then
    match superglue with
    | None => raise ImportError
    | Some lot =>
        ret (Build_CoarseMatching config thr border_rm train_coarse_percent
               train_pad_num_gt_min match_type
               None (Some lot) (Some (skh_init_bin_score config))
               (Some (cfg_skh_iters config))
               (Some (cfg_skh_prefilter config)))
    end
  else raise NotImplementedError.

(** The result of [get_coarse_match].  [mkpts0_c] and [mkpts1_c] are
    [M, 2] tensors: one [(x, y)] row per match. *)
Record CoarseMatches : Type := {
  b_ids : list nat;
  i_ids : list nat;
  j_ids : list nat;
  m_bids : list nat;
  mkpts0_c : list (T * T);
  mkpts1_c : list (T * T);
  mconf : list T
}.

(** The [data] dictionary, with the keys this file reads or writes.
    [scale0] and [scale1] are [N, 2] tensors, one row of factors per
    sample. *)
Record Data : Type := {
  hw0_i : nat * nat;
  hw0_c : nat * nat;
  hw1_c : nat * nat;
  mask0 : option (tensor3 bool);
  mask1 : option (tensor3 bool);
  scale0 : option (list (T * T));
  scale1 : option (list (T * T));
  dataset_name : option string;
  conf_matrix : option (tensor3 T);
  coarse_matches : option CoarseMatches
}.

(** [mask.reshape(b, h0c, w0c, h1c, w1c)] *)
Definition reshape5 {A : Type} (h0c w0c h1c w1c : nat) (mask : tensor3 A)
  : tensor5 A :=
  map (fun mb =>
         map (fun blk0 =>
                map (fun blk1 => unflatten h1c w1c blk1)
                    (unflatten w0c (h1c * w1c) blk0))
             (unflatten h0c (w0c * (h1c * w1c)) (concat mb)))
      mask.

(** [mask.reshape(b, L, S)] of a 5-axis tensor *)
Definition reshape3 {A : Type} (L S : nat) (mask : tensor5 A) : tensor3 A :=
  map (fun mb =>
         unflatten L S
           (concat (map (fun blk0 => concat (map (@concat A) blk0)) mb)))
      mask.

(** [t.max(dim)[0]] along one line of scalars: the largest entry. *)
Definition smax_list (l : list T) : T :=
  match l with
  | [] => szero
  | x :: r => fold_left (fun acc y => if sgtb y acc then y else acc) r x
  end.

Definition column {A : Type} (d : A) (m : tensor2 A) (j : nat) : list A :=
  map (fun row => nth j row d) m.

(** step 2 ("mutual nearest"): the product of the mask with the two
    comparisons against [conf_matrix.max(dim=2, keepdim=True)[0]] and
    [conf_matrix.max(dim=1, keepdim=True)[0]]. *)
Definition mutual_nearest (mask : tensor3 bool) (conf_matrix : tensor3 T)
  : tensor3 bool :=
  mapi (fun b cb =>
          mapi (fun i row =>
                  mapi (fun j c =>
                          get3 false mask b i j
                          && seqb c (smax_list row)
                          && seqb c (smax_list (column szero cb j)))
                       row)
               cb)
       conf_matrix.

(** [ck = mask.view(b, -1).sum(-1) == 0] for one sample *)
Definition no_true (mb : tensor2 bool) : bool :=
  Nat.eqb (count_true (concat mb)) 0.

(** [mask[ck, 0, 0] = True] *)
Definition set_fallback (mask : tensor3 bool) : tensor3 bool :=
  map (fun mb =>
         if no_true mb
         then update_nth 0 (update_nth 0 (fun _ => true)) mb
         else mb)
      mask.

(** [row.max()] with its index, for a row of booleans: the index returned
    is that of the first maximal entry. *)
Fixpoint max_index_from (best : bool) (besti k : nat) (l : list bool)
  : bool * nat :=
  match l with
  | [] => (best, besti)
  | x :: r =>
      if x && negb best then max_index_from x k (S k) r
      else max_index_from best besti (S k) r
  end.

Definition max_index (row : list bool) : bool * nat :=
  match row with
  | [] => (false, O)
  | x :: r => max_index_from x 0 1 r
  end.

(** [mask_v, all_j_ids = mask.max(dim=2)] *)
Definition row_any (mask : tensor3 bool) : tensor2 bool :=
  map (map (fun row => fst (max_index row))) mask.
Definition row_argmax (mask : tensor3 bool) : tensor2 nat :=
  map (map (fun row => snd (max_index row))) mask.

(** [torch.where(mask_v)] for a [N, L] tensor: the index pairs of the true
    entries, in row-major order. *)
Definition hits (row : list bool) : list nat :=
  filter (fun i => nth i row false) (seq 0 (length row)).

Definition where2 (mask_v : tensor2 bool) : list (nat * nat) :=
  concat (mapi (fun b row => map (pair b) (hits row)) mask_v).

(** [conf_matrix > thr] *)
Definition threshold (thr : T) (conf_matrix : tensor3 T) : tensor3 bool :=
  map (map (map (fun c => sgtb c thr))) conf_matrix.

(** Step 1 of [get_coarse_match]: threshold, reshape, border mask, reshape
    back.  Reading [data['mask1']] raises KeyError when the key is
    absent. *)
Definition candidate_mask (self : CoarseMatching) (conf_matrix : tensor3 T)
           (data : Data) : result (tensor3 bool) :=
  let h0c := fst (hw0_c data) in
  let w0c := snd (hw0_c data) in
  let h1c := fst (hw1_c data) in
  let w1c := snd (hw1_c data) in
  let mask := threshold (thr self) conf_matrix in
  let mask := reshape5 h0c w0c h1c w1c mask in
  mask <- match mask0 data with
          | None => ret (mask_border mask (border_rm self) false)
          | Some p_m0 =>
              match mask1 data with
              | None => raise KeyError
              | Some p_m1 =>
                  ret (mask_border_with_padding mask (border_rm self) false
                         p_m0 p_m1)
              end
          end ;;
  ret (reshape3 (h0c * w0c) (h1c * w1c) mask).

(** Steps 1 and 2: the candidates that are mutual nearest neighbours. *)
Definition filtered_mask (self : CoarseMatching) (conf_matrix : tensor3 T)
           (data : Data) : result (tensor3 bool) :=
  mask <- candidate_mask self conf_matrix data ;;
  ret (mutual_nearest mask conf_matrix).

(** [if 'dataset_name' in data: ...] *)
Definition apply_fallback (data : Data) (mask : tensor3 bool) : tensor3 bool :=
  match dataset_name data with
  | Some _ => set_fallback mask
  | None => mask
  end.

(** [data[key][b_ids]] followed by the product with the base scale *)
Definition effective_scale (scale : T) (per_sample : option (list (T * T)))
           (b_ids : list nat) : list (T * T) :=
  match per_sample with
  | Some sc =>
      map (fun b => let s := nth b sc (szero, szero) in
                    (smul scale (fst s), smul scale (snd s)))
          b_ids
  | None => map (fun _ => (scale, scale)) b_ids
  end.

(** [torch.stack([ids % w, ids // w], dim=1) * scale] *)
Definition keypoints (ids : list nat) (w : nat) (scale : list (T * T))
  : list (T * T) :=
  map (fun '(k, s) =>
         (smul (sofnat (k mod w)) (fst s), smul (sofnat (k / w)) (snd s)))
      (combine ids scale).

Definition get_coarse_match (self : CoarseMatching) (conf_matrix : tensor3 T)
           (data : Data) : result CoarseMatches :=
  (* 1. confidence thresholding, 2. mutual nearest *)
  mask <- filtered_mask self conf_matrix data ;;
  (* 3. find all valid coarse matches *)
  let mask := apply_fallback data mask in
  let mask_v := row_any mask in
  let all_j_ids := row_argmax mask in
  let bi := where2 mask_v in
  let b_ids := map fst bi in
  let i_ids := map snd bi in
  let j_ids := map (fun '(b, i) => get2 O all_j_ids b i) bi in
  let mconf :=
    map (fun '(b, i) => get3 szero conf_matrix b i (get2 O all_j_ids b i))
        bi in
  (* 4. matches in original image resolution *)
  let scale := sdiv (sofnat (fst (hw0_i data))) (sofnat (fst (hw0_c data))) in
  let scale0 := effective_scale scale (scale0 data) b_ids in
  let scale1 := effective_scale scale (scale1 data) b_ids in
  let mkpts0_c := keypoints i_ids (snd (hw0_c data)) scale0 in
  let mkpts1_c := keypoints j_ids (snd (hw1_c data)) scale1 in
  ret {| b_ids := b_ids; i_ids := i_ids; j_ids := j_ids; m_bids := b_ids;
         mkpts0_c := mkpts0_c; mkpts1_c := mkpts1_c; mconf := mconf |}.

(** The parallel sequences of a result, read as one list of matches
    [(batch index, image-0 cell, image-1 cell, confidence)]. *)
Definition matches (cm : CoarseMatches) : list (nat * nat * nat * T) :=
  combine (combine (combine (b_ids cm) (i_ids cm)) (j_ids cm)) (mconf cm).

(** The partner and the confidence that [get_coarse_match] records for the
    index pair [bi] of a row with a true entry. *)
Definition match_of (conf : tensor3 T) (mask : tensor3 bool) (bi : nat * nat)
  : nat * nat * nat * T :=
  let j := get2 0 (row_argmax mask) (fst bi) (snd bi) in
  (fst bi, snd bi, j, get3 szero conf (fst bi) (snd bi) j).

(** The matches of one sample of the batch. *)
Definition sample_matches (cm : CoarseMatches) (b : nat)
  : list (nat * nat * nat * T) :=
  filter (fun m => fst (fst (fst m)) =? b) (matches cm).

(** A match of sample [b] is genuine, not the training fallback, when the
    fallback is switched off or the sample has a filtered candidate. *)
Definition genuine (data : Data) (mask : tensor3 bool) (b : nat) : Prop :=
  dataset_name data = None \/ no_true (nth b mask []) = false.

(** The reading "unique maximum along its row and its column, among the
    candidates left by the border mask, and above the threshold" of every
    genuine match. *)
Definition unique_mutual_max (self : CoarseMatching) (conf : tensor3 T)
           (data : Data) : Prop :=
  forall cand mask cm,
    candidate_mask self conf data = inr cand ->
    filtered_mask self conf data = inr mask ->
    get_coarse_match self conf data = inr cm ->
    forall b i j c,
      In (b, i, j, c) (matches cm) ->
      genuine data mask b ->
      sgtb c (thr self) = true
      /\ (forall j', j' <> j -> get3 false cand b i j' = true ->
                     sgtb c (get3 szero conf b i j') = true)
      /\ (forall i', i' <> i -> get3 false cand b i' j = true ->
                     sgtb c (get3 szero conf b i' j) = true).



End Matcher.

Arguments Config T : clear implicits.
Arguments CoarseMatching T : clear implicits.
Arguments CoarseMatches T : clear implicits.
Arguments Data T : clear implicits.
Arguments LogOptimalTransport T : clear implicits.

(** ** The forward pass, over the reals *)

Definition zip_with {A B C : Type} (f : A -> B -> C) (l1 : list A) (l2 : list B)
  : list C :=
  map (fun '(a, b) => f a b) (combine l1 l2).

Definition sum_R (l : list R) : R := fold_right Rplus 0%R l.

(** [t / c] for a scalar [c] *)
Definition tdiv (t : tensor3 R) (c : R) : tensor3 R :=
  map (map (map (fun x => (x / c)%R))) t.

(** [t.shape[-1]].  A nested list with no row has lost its channel count;
    it has no entry to divide either. *)
Definition last_dim (t : tensor3 R) : nat :=
  match t with
  | (row :: _) :: _ => length row
  | _ => O
  end.

Definition dot (u v : list R) : R := sum_R (zip_with Rmult u v).

(** [torch.einsum("nlc,nsc->nls", a, b)] *)
Definition einsum_nlc_nsc (a b : tensor3 R) : tensor3 R :=
  zip_with (fun ma mb => map (fun u => map (fun v => dot u v) mb) ma) a b.

(** [mask_c0[..., None] * mask_c1[:, None]] *)
Definition outer_and (mask_c0 mask_c1 : tensor2 bool) : tensor3 bool :=
  zip_with (fun r0 r1 => map (fun x => map (fun y => x && y) r1) r0)
           mask_c0 mask_c1.

(** [t.masked_fill_(mask, value)] *)
Definition masked_fill (t : tensor3 R) (mask : tensor3 bool) (value : R)
  : tensor3 R :=
  zip_with (zip_with (zip_with (fun x (c : bool) => if c then value else x)))
           t mask.

(** [F.softmax(t, 1)]: normalisation over the second axis (the cells of
    image 0), as the quotient of exponentials that the kernel computes after
    subtracting the maximum. *)
Definition softmax_dim1 (t : tensor3 R) : tensor3 R :=
  map (fun mb =>
         map (fun row =>
                mapi (fun j x => (exp x / sum_R (map exp (column 0%R mb j)))%R)
                     row)
             mb)
      t.

(** [F.softmax(t, 2)]: normalisation over the last axis (the cells of
    image 1). *)
Definition softmax_dim2 (t : tensor3 R) : tensor3 R :=
  map (map (fun row => map (fun x => (exp x / sum_R (map exp row))%R) row)) t.

Definition tmul (a b : tensor3 R) : tensor3 R :=
  zip_with (zip_with (zip_with Rmult)) a b.

Definition INF : R := 1e9%R.

(** Lines 113-119 of [forward]: the features divided by the square root of
    their channel count, the batched product, the temperature. *)
Definition similarity (feat_c0 feat_c1 : tensor3 R) (temperature : R)
  : tensor3 R :=
  let feat_c0 := tdiv feat_c0 (sqrt (INR (last_dim feat_c0))) in
  let feat_c1 := tdiv feat_c1 (sqrt (INR (last_dim feat_c1))) in
  tdiv (einsum_nlc_nsc feat_c0 feat_c1) temperature.

(** Lines 123-124: [sim_matrix.masked_fill_(~(mask_c0[..., None] *
    mask_c1[:, None]), -INF)] *)
Definition mask_invalid (sim_matrix : tensor3 R) (mask_c0 mask_c1 : tensor2 bool)
  : tensor3 R :=
  masked_fill sim_matrix (map (map (map negb)) (outer_and mask_c0 mask_c1))
              (- INF)%R.

(** Lines 110-125 of [forward]: the confidence matrix, or the exception
    raised on the way.  Reading [self.temperature] raises AttributeError when
    the attribute was never set. *)
Definition confidence (self : CoarseMatching R) (feat_c0 feat_c1 : tensor3 R)
           (mask_c0 mask_c1 : option (tensor2 bool)) : result (tensor3 R) :=
  match temperature self with
  | None => raise AttributeError
  | Some temperature =>
      let sim_matrix := similarity feat_c0 feat_c1 temperature in
      sim_matrix <-
        match mask_c0 with
        | Some m0 =>
            match mask_c1 with
            | Some m1 => ret (mask_invalid sim_matrix m0 m1)
            | None => raise AssertionError
            end
        | None => ret sim_matrix
        end ;;
      ret (tmul (softmax_dim1 sim_matrix) (softmax_dim2 sim_matrix))
  end.

Definition set_conf_matrix (data : Data R) (c : tensor3 R) : Data R :=
  {| hw0_i := hw0_i data; hw0_c := hw0_c data; hw1_c := hw1_c data;
     mask0 := mask0 data; mask1 := mask1 data;
     scale0 := scale0 data; scale1 := scale1 data;
     dataset_name := dataset_name data;
     conf_matrix := Some c; coarse_matches := coarse_matches data |}.

Definition set_coarse_matches (data : Data R) (cm : CoarseMatches R) : Data R :=
  {| hw0_i := hw0_i data; hw0_c := hw0_c data; hw1_c := hw1_c data;
     mask0 := mask0 data; mask1 := mask1 data;
     scale0 := scale0 data; scale1 := scale1 data;
     dataset_name := dataset_name data;
     conf_matrix := conf_matrix data; coarse_matches := Some cm |}.

(** [forward] returns nothing and updates [data] in place: the model returns
    the dictionary as the call leaves it, with the outcome of the call. *)
Definition forward (self : CoarseMatching R) (feat_c0 feat_c1 : tensor3 R)
           (data : Data R) (mask_c0 mask_c1 : option (tensor2 bool))
  : Data R * result unit :=
  match confidence self feat_c0 feat_c1 mask_c0 mask_c1 with
  | inl e => (data, raise e)
  | inr conf =>
      let data := set_conf_matrix data conf in
      match get_coarse_match self conf data with
      | inl e => (data, raise e)
      | inr cm => (set_coarse_matches data cm, ret tt)
      end
  end.

(** ** The specification's reading of the confidence matrix

    Entry by entry, from the words of the specification: features scaled by
    [1/sqrt C], their products summed over the channels and divided by the
    temperature, the sentinel [-1e9] where either cell is invalid, and the
    product of the two softmax normalisations. *)

Definition spec_similarity (C : nat) (temp : R) (feat0 feat1 : tensor3 R)
           (masks : option (tensor2 bool * tensor2 bool)) (n l s : nat) : R :=
  let scaled (f : tensor3 R) (cell c : nat) : R :=
    (nth c (get2 [] f n cell) 0 * (1 / sqrt (INR C)))%R in
  let raw :=
    (sum_R (map (fun c => scaled feat0 l c * scaled feat1 s c)%R (seq 0 C))
     / temp)%R in
  match masks with
  | Some (m0, m1) =>
      if get2 false m0 n l && get2 false m1 n s then raw
      else (- 1000000000)%R
  | None => raw
  end.

Definition spec_confidence (sim : nat -> nat -> nat -> R) (L S : nat)
           (n l s : nat) : R :=
  ((exp (sim n l s) / sum_R (map (fun l' => exp (sim n l' s)) (seq 0 L)))
   * (exp (sim n l s) / sum_R (map (fun s' => exp (sim n l s')) (seq 0 S))))%R.

Definition unit_interval (x : R) : Prop := (0 <= x <= 1)%R.

(** ** Sample inputs *)

Module Sample.
Open Scope string_scope.

Definition cfg (mode : string) (margin : Z) : Config Q :=
  {| cfg_thr := (1 # 5)%Q; cfg_border_rm := margin;
     cfg_train_coarse_percent := (2 # 5)%Q; cfg_train_pad_num_gt_min := 200;
     cfg_match_type := mode; dsmax_temperature := (1 # 10)%Q;
     skh_init_bin_score := 1%Q; cfg_skh_iters := 3;
     cfg_skh_prefilter := false |}.

(** The matcher that [__init__] builds from [cfg "dual_softmax" margin]. *)
Definition matcher (margin : Z) : CoarseMatching Q :=
  {| config := cfg "dual_softmax" margin; thr := (1 # 5)%Q; border_rm := 0%Z;
     train_coarse_percent := (2 # 5)%Q; train_pad_num_gt_min := 200;
     match_type := "dual_softmax"; temperature := Some (1 # 10)%Q;
     log_optimal_transport := None; bin_score := None; skh_iters := None;
     skh_prefilter := None |}.

(** Two images with a 1 x 2 coarse grid each, 8 pixels high. *)
Definition data (training : bool) : Data Q :=
  {| hw0_i := (8, 16); hw0_c := (1, 2); hw1_c := (1, 2);
     mask0 := None; mask1 := None; scale0 := None; scale1 := None;
     dataset_name := if training then Some "MegaDepth" else None;
     conf_matrix := None; coarse_matches := None |}.

(** The dual-softmax confidence of four equally similar cell pairs. *)
Definition conf_tie : tensor3 Q :=
  [[[(1 # 4)%Q; (1 # 4)%Q]; [(1 # 4)%Q; (1 # 4)%Q]]].

(** One clear match, cell 0 of image 0 with cell 1 of image 1. *)
Definition conf_one : tensor3 Q :=
  [[[(1 # 100)%Q; (9 # 10)%Q]; [(1 # 100)%Q; (1 # 100)%Q]]].

(** No pair above the threshold. *)
Definition conf_low : tensor3 Q :=
  [[[(1 # 10)%Q; (1 # 20)%Q]; [(1 # 20)%Q; (1 # 10)%Q]]].

Definition grid_mask : tensor5 bool :=
  reshape5 1 2 1 2 [[[true; true]; [true; false]]].

(** The same over the reals, for the forward pass. *)
Definition cfg_R (mode : string) (margin : Z) : Config R :=
  {| cfg_thr := (1 / 5)%R; cfg_border_rm := margin;
     cfg_train_coarse_percent := (2 / 5)%R; cfg_train_pad_num_gt_min := 200;
     cfg_match_type := mode; dsmax_temperature := (1 / 10)%R;
     skh_init_bin_score := 1%R; cfg_skh_iters := 3;
     cfg_skh_prefilter := false |}.

Definition matcher_R : CoarseMatching R :=
  {| config := cfg_R "dual_softmax" 2; thr := (1 / 5)%R; border_rm := 0%Z;
     train_coarse_percent := (2 / 5)%R; train_pad_num_gt_min := 200;
     match_type := "dual_softmax"; temperature := Some (1 / 10)%R;
     log_optimal_transport := None; bin_score := None; skh_iters := None;
     skh_prefilter := None |}.

(** A stand-in for the function imported from [superglue.py]. *)
Definition any_transport : LogOptimalTransport R := fun scores _ _ => scores.

(** The matcher that [__init__] builds in Sinkhorn mode. *)
Definition sinkhorn_matcher : CoarseMatching R :=
  {| config := cfg_R "sinkhorn" 2; thr := (1 / 5)%R; border_rm := 0%Z;
     train_coarse_percent := (2 / 5)%R; train_pad_num_gt_min := 200;
     match_type := "sinkhorn"; temperature := None;
     log_optimal_transport := Some any_transport; bin_score := Some 1%R;
     skh_iters := Some 3; skh_prefilter := Some false |}.

(** Two images of one coarse cell each. *)
Definition data_R : Data R :=
  {| hw0_i := (8, 8); hw0_c := (1, 1); hw1_c := (1, 1);
     mask0 := None; mask1 := None; scale0 := None; scale1 := None;
     dataset_name := None; conf_matrix := None; coarse_matches := None |}.

(** One sample, one cell, two channels. *)
Definition feat : tensor3 R := [[[1%R; 2%R]]].
End Sample.

(** ** The candidate bound *)

(** [compute_max_candidates(p_m0, p_m1)]: per sample the smaller of the two
    valid areas (largest column sum times largest row sum of each padding
    mask), summed over the batch. *)
Definition compute_max_candidates (p_m0 p_m1 : tensor3 bool) : nat :=
  let h0s := map max_col_sum p_m0 in
  let w0s := map max_row_sum p_m0 in
  let h1s := map max_col_sum p_m1 in
  let w1s := map max_row_sum p_m1 in
  list_sum (zip_with Nat.min (zip_with Nat.mul h0s w0s)
                             (zip_with Nat.mul h1s w1s)).

(** A padding mask of an [H x W] grid whose valid region is the top-left
    [h x w] rectangle. *)
Definition rect_mask (H W h w : nat) : tensor2 bool :=
  map (fun i => map (fun j => (i <? h) && (j <? w)) (seq 0 W)) (seq 0 H).

(** ** Reading the five-axis mask *)

Definition tensor4 (A : Type) : Type := list (list (list (list A))).

Definition get4 {A : Type} (d : A) (t : tensor4 A) (h0 w0 h1 w1 : nat) : A :=
  nth w1 (nth h1 (nth w0 (nth h0 t []) []) []) d.

Definition get5 {A : Type} (d : A) (m : tensor5 A) (n h0 w0 h1 w1 : nat) : A :=
  get4 d (nth n m []) h0 w0 h1 w1.

Definition shape4 {A : Type} (t : tensor4 A) (H0 W0 H1 W1 : nat) : Prop :=
  length t = H0 /\ Forall (fun x => shape3 x W0 H1 W1) t.

Definition shape5 {A : Type} (m : tensor5 A) (N H0 W0 H1 W1 : nat) : Prop :=
  length m = N /\ Forall (fun t => shape4 t H0 W0 H1 W1) m.

(** Whether index [i] of a sequence of length [n] lies in the slice
    [lo:hi], with the bounds of [fill_slice]. *)
Definition in_slice (n : nat) (lo hi : option Z) (i : nat) : bool :=
  let a := match lo with None => O | Some k => norm_index n k end in
  let b := match hi with None => n | Some k => norm_index n k end in
  (a <=? i) && (i <? b).

(** Index [i] of an axis of length [n] is within [b] cells of either end. *)
Definition near_border (b : Z) (n i : nat) : bool :=
  (Z.of_nat i <? b)%Z || (Z.of_nat n - b <=? Z.of_nat i)%Z.

(** Index [i] of an axis of length [n] is within [bd] cells of the start, or
    at or after the slice bound [valid - bd] (a Python slice start: negative
    values count from the end of the axis). *)
Definition near_padded_border (bd : Z) (n valid i : nat) : bool :=
  (Z.of_nat i <? bd)%Z || (norm_index n (Z.of_nat valid - bd) <=? i).

(** A list of length [n] whose entry [i] satisfies [Q i]. *)
Definition pointwise {X : Type} (dX : X) (Q : nat -> X -> Prop) (l : list X)
           (n : nat) : Prop :=
  length l = n /\ forall i, i < n -> Q i (nth i l dX).

(** Nested lists of the given shape whose entries are given by [g]. *)
Definition entries1 {A : Type} (d : A) (z : list A) (W1 : nat)
           (g : nat -> A) : Prop :=
  pointwise d (fun w1 e => e = g w1) z W1.

Definition entries2 {A : Type} (d : A) (y : tensor2 A) (H1 W1 : nat)
           (g : nat -> nat -> A) : Prop :=
  pointwise [] (fun h1 z => entries1 d z W1 (g h1)) y H1.

Definition entries3 {A : Type} (d : A) (x : tensor3 A) (W0 H1 W1 : nat)
           (g : nat -> nat -> nat -> A) : Prop :=
  pointwise [] (fun w0 y => entries2 d y H1 W1 (g w0)) x W0.

Definition entries4 {A : Type} (d : A) (t : tensor4 A) (H0 W0 H1 W1 : nat)
           (g : nat -> nat -> nat -> nat -> A) : Prop :=
  pointwise [] (fun h0 x => entries3 d x W0 H1 W1 (g h0)) t H0.

Definition entries5 {A : Type} (d : A) (m : tensor5 A) (N H0 W0 H1 W1 : nat)
           (g : nat -> nat -> nat -> nat -> nat -> A) : Prop :=
  pointwise [] (fun n t => entries4 d t H0 W0 H1 W1 (g n)) m N.

(** The four slices that [mask_border_with_padding] writes for one sample,
    from the sample's valid sizes to the end of each axis. *)
Definition far_border_fill {A : Type} (bd : Z) (v : A)
           (sizes : nat * nat * nat * nat) (t : tensor4 A) : tensor4 A :=
  let '(h0, w0, h1, w1) := sizes in
  let from (n : nat) := Some (Z.of_nat n - bd)%Z in
  map (map (map (fill_slice (from w1) None (fun _ => v))))
    (map (map (fill_slice (from h1) None (fill1 v)))
       (map (fill_slice (from w0) None (fill2 v))
          (fill_slice (from h0) None (fill3 v) t))).

(** Sums of a [N, L, S] tensor over the cells of image 1, for a fixed cell
    of image 0, and over the cells of image 0, for a fixed cell of
    image 1. *)
Definition row_sum (t : tensor3 R) (S n l : nat) : R :=
  sum_R (map (fun s => get3 0%R t n l s) (seq 0 S)).
Definition col_sum (t : tensor3 R) (L n s : nat) : R :=
  sum_R (map (fun l => get3 0%R t n l s) (seq 0 L)).

(** The order of a row-major scan over (batch, row) pairs. *)
Definition lex_lt (p q : nat * nat) : Prop :=
  fst p < fst q \/ (fst p = fst q /\ snd p < snd q).

(** ** More sample inputs *)

Module Extra.
Open Scope string_scope.

(** Two samples of 1 x 2 grids: the first with a clear match, the second
    with nothing above the threshold. *)
Definition conf_two : tensor3 Q :=
  [[[(1 # 100)%Q; (9 # 10)%Q]; [(1 # 100)%Q; (1 # 100)%Q]];
   [[(1 # 10)%Q; (1 # 20)%Q]; [(1 # 20)%Q; (1 # 10)%Q]]].

(** One sample with two cells per image and two channels; the second cell
    of image 1 is padding. *)
Definition feat_a : tensor3 R := [[[2%R; 0%R]; [0%R; 2%R]]].
Definition feat_b : tensor3 R := [[[1%R; 0%R]; [0%R; 1%R]]].
Definition valid_a : tensor2 bool := [[true; true]].
Definition valid_b : tensor2 bool := [[true; false]].

Definition data_R2 : Data R :=
  {| hw0_i := (8, 16); hw0_c := (1, 2); hw1_c := (1, 2);
     mask0 := None; mask1 := None; scale0 := None; scale1 := None;
     dataset_name := None; conf_matrix := None; coarse_matches := None |}.

(** A 3 x 3 by 3 x 3 mask, all true. *)
Definition full_grid : tensor5 bool :=
  reshape5 3 3 3 3 [repeat (repeat true 9) 9].

(** Padding masks of 3 x 3 grids: all valid, and a valid 2 x 3 region. *)
Definition pad_full : tensor3 bool := [rect_mask 3 3 3 3].
Definition pad_two_rows : tensor3 bool := [rect_mask 3 3 2 3].
End Extra.

(** * The forward pass in floating point

    The tensors of the network hold 32-bit floats.  A float is a real
    number within the range of the format, an infinity or NaN; an operation
    rounds its exact result and overflows to an infinity beyond the largest
    float.  The rounding function is a parameter: all that is used of it is
    that it is monotone and leaves 0 and 1 unchanged, which every rounding
    mode of the format satisfies.  Zero carries no sign here. *)

Inductive fval : Type :=
| Fin (x : R)
| PInf
| NInf
| NaN.

(** The largest finite 32-bit float, [(2 - 2^-23) * 2^127]. *)
Definition FMAX : R := 340282346638528859811704183484516925440%R.

Class Rounding : Type := {
  round : R -> R;
  round_monotone : forall x y : R, (x <= y)%R -> (round x <= round y)%R;
  round_zero : round 0%R = 0%R;
  round_one : round 1%R = 1%R
}.

(** The rounding that changes nothing: arithmetic that is exact within the
    range of the format.  It agrees with the format on every computation
    whose intermediate results are floats. *)
Definition exact_rounding : Rounding :=
  {| round := fun x => x;
     round_monotone := fun x y H => H;
     round_zero := eq_refl;
     round_one := eq_refl |}.

Definition finite (y : fval) : Prop :=
  match y with Fin _ => True | _ => False end.

(** A float that is a number of [[0, 1]]. *)
Definition in_unit (y : fval) : Prop :=
  match y with Fin r => (0 <= r <= 1)%R | _ => False end.

(** A float that is not positive, or minus infinity. *)
Definition nonpos (y : fval) : Prop :=
  match y with Fin d => (d <= 0)%R | NInf => True | _ => False end.

(** A float that is at least [c], or plus infinity. *)
Definition at_least (c : R) (y : fval) : Prop :=
  match y with Fin s => (c <= s)%R | PInf => True | _ => False end.

Section FloatingPoint.
Context {RD : Rounding}.

(** The float that an operation returns for the exact result [x]. *)
Definition overflow (x : R) : fval :=
  let y := round x in
  if Rlt_dec FMAX y then PInf
  else if Rlt_dec y (- FMAX) then NInf
  else Fin y.

Definition finf (positive : bool) : fval := if positive then PInf else NInf.

Definition fneg (a : fval) : fval :=
  match a with
  | Fin x => Fin (- x)
  | PInf => NInf
  | NInf => PInf
  | NaN => NaN
  end.

Definition fadd (a b : fval) : fval :=
  match a, b with
  | NaN, _ | _, NaN => NaN
  | PInf, NInf | NInf, PInf => NaN
  | PInf, _ | _, PInf => PInf
  | NInf, _ | _, NInf => NInf
  | Fin x, Fin y => overflow (x + y)
  end.

Definition fsub (a b : fval) : fval := fadd a (fneg b).

Definition fmul (a b : fval) : fval :=
  match a, b with
  | NaN, _ | _, NaN => NaN
  | Fin x, Fin y => overflow (x * y)
  | Fin x, PInf | PInf, Fin x =>
      if Req_dec_T x 0 then NaN else finf (if Rlt_dec 0 x then true else false)
  | Fin x, NInf | NInf, Fin x =>
      if Req_dec_T x 0 then NaN else finf (if Rlt_dec 0 x then false else true)
  | PInf, PInf | NInf, NInf => PInf
  | PInf, NInf | NInf, PInf => NInf
  end.

Definition fdiv (a b : fval) : fval :=
  match a, b with
  | NaN, _ | _, NaN => NaN
  | Fin x, Fin y =>
      if Req_dec_T y 0 then
        if Req_dec_T x 0 then NaN
        else finf (if Rlt_dec 0 x then true else false)
      else overflow (x / y)
  | Fin _, PInf | Fin _, NInf => Fin 0
  | PInf, Fin y => finf (if Rle_dec 0 y then true else false)
  | NInf, Fin y => finf (if Rle_dec 0 y then false else true)
  | PInf, PInf | PInf, NInf | NInf, PInf | NInf, NInf => NaN
  end.

Definition fexp (a : fval) : fval :=
  match a with
  | Fin x => overflow (exp x)
  | PInf => PInf
  | NInf => Fin 0
  | NaN => NaN
  end.

(** The maximum of a reduction: NaN if either operand is. *)
Definition fmax (a b : fval) : fval :=
  match a, b with
  | NaN, _ | _, NaN => NaN
  | PInf, _ | _, PInf => PInf
  | NInf, c | c, NInf => c
  | Fin x, Fin y => Fin (Rmax x y)
  end.

Definition fgtb (a b : fval) : bool :=
  match a, b with
  | NaN, _ | _, NaN => false
  | Fin x, Fin y => if Rgt_dec x y then true else false
  | PInf, PInf | NInf, NInf => false
  | PInf, _ | _, NInf => true
  | NInf, _ | _, PInf => false
  end.

Definition feqb (a b : fval) : bool :=
  match a, b with
  | Fin x, Fin y => if Req_dec_T x y then true else false
  | PInf, PInf | NInf, NInf => true
  | _, _ => false
  end.

Definition fsum (l : list fval) : fval := fold_right fadd (Fin 0) l.

Definition fmax_list (l : list fval) : fval := fold_right fmax NInf l.

(** One entry of [F.softmax] along a line: the kernel subtracts the maximum
    of the line before it exponentiates, and divides by the sum of the
    exponentials. *)
Definition softmax_line (line : list fval) (x : fval) : fval :=
  let m := fmax_list line in
  fdiv (fexp (fsub x m)) (fsum (map (fun y => fexp (fsub y m)) line)).

Definition tdiv_f32 (t : tensor3 fval) (c : fval) : tensor3 fval :=
  map (map (map (fun x => fdiv x c))) t.

Definition last_dim_f32 (t : tensor3 fval) : nat :=
  match t with
  | (row :: _) :: _ => length row
  | _ => O
  end.

Definition dot_f32 (u v : list fval) : fval := fsum (zip_with fmul u v).

Definition einsum_nlc_nsc_f32 (a b : tensor3 fval) : tensor3 fval :=
  zip_with (fun ma mb => map (fun u => map (fun v => dot_f32 u v) mb) ma) a b.

Definition masked_fill_f32 (t : tensor3 fval) (mask : tensor3 bool)
           (value : fval) : tensor3 fval :=
  zip_with (zip_with (zip_with (fun x (c : bool) => if c then value else x)))
           t mask.

Definition softmax_dim1_f32 (t : tensor3 fval) : tensor3 fval :=
  map (fun mb =>
         map (fun row =>
                mapi (fun j x => softmax_line (column (Fin 0) mb j) x) row)
             mb)
      t.

Definition softmax_dim2_f32 (t : tensor3 fval) : tensor3 fval :=
  map (map (fun row => map (softmax_line row) row)) t.

Definition tmul_f32 (a b : tensor3 fval) : tensor3 fval :=
  zip_with (zip_with (zip_with fmul)) a b.

(** [feat / feat.shape[-1] ** .5]: the Python float becomes a float of the
    tensor's type. *)
Definition normalize_f32 (feat : tensor3 fval) : tensor3 fval :=
  tdiv_f32 feat (Fin (round (sqrt (INR (last_dim_f32 feat))))).

(** Lines 113 and 118: the batched product of the normalised features. *)
Definition scaled_product_f32 (feat_c0 feat_c1 : tensor3 fval)
  : tensor3 fval :=
  let feat_c0 := normalize_f32 feat_c0 in
  let feat_c1 := normalize_f32 feat_c1 in
  einsum_nlc_nsc_f32 feat_c0 feat_c1.

(** Lines 123-124, with the sentinel [-1e9] as a float. *)
Definition mask_invalid_f32 (sim_matrix : tensor3 fval)
           (mask_c0 mask_c1 : tensor2 bool) : tensor3 fval :=
  masked_fill_f32 sim_matrix (map (map (map negb)) (outer_and mask_c0 mask_c1))
                  (Fin (round (- INF))).

(** Lines 110-125 of [forward] on floats, in the order of the source: the
    product, then the read of [self.temperature], then the masks. *)
Definition confidence_f32 (self : CoarseMatching fval)
           (feat_c0 feat_c1 : tensor3 fval)
           (mask_c0 mask_c1 : option (tensor2 bool))
  : result (tensor3 fval) :=
  let product := scaled_product_f32 feat_c0 feat_c1 in
  temperature <-
    match temperature self with
    | Some t => ret t
    | None => raise AttributeError
    end ;;
  let sim_matrix := tdiv_f32 product temperature in
  sim_matrix <-
    match mask_c0 with
    | Some m0 =>
        match mask_c1 with
        | Some m1 => ret (mask_invalid_f32 sim_matrix m0 m1)
        | None => raise AssertionError
        end
    | None => ret sim_matrix
    end ;;
  ret (tmul_f32 (softmax_dim1_f32 sim_matrix) (softmax_dim2_f32 sim_matrix)).

(** The similarity matrix that the softmax normalisations receive, for a
    call with both masks or with none. *)
Definition sim_matrix_f32 (feat_c0 feat_c1 : tensor3 fval) (temperature : fval)
           (masks : option (tensor2 bool * tensor2 bool)) : tensor3 fval :=
  let sim_matrix := tdiv_f32 (scaled_product_f32 feat_c0 feat_c1) temperature in
  match masks with
  | Some (mask_c0, mask_c1) => mask_invalid_f32 sim_matrix mask_c0 mask_c1
  | None => sim_matrix
  end.

End FloatingPoint.

#[export] Instance Scalar_f32 {RD : Rounding} : Scalar fval := {
  szero := Fin 0;
  sgtb := fgtb;
  seqb := feqb;
  smul := fmul;
  sdiv := fdiv;
  sofnat := fun n => overflow (INR n)
}.

Definition set_conf_matrix_f32 (data : Data fval) (c : tensor3 fval)
  : Data fval :=
  {| hw0_i := hw0_i data; hw0_c := hw0_c data; hw1_c := hw1_c data;
     mask0 := mask0 data; mask1 := mask1 data;
     scale0 := scale0 data; scale1 := scale1 data;
     dataset_name := dataset_name data;
     conf_matrix := Some c; coarse_matches := coarse_matches data |}.

Definition set_coarse_matches_f32 (data : Data fval) (cm : CoarseMatches fval)
  : Data fval :=
  {| hw0_i := hw0_i data; hw0_c := hw0_c data; hw1_c := hw1_c data;
     mask0 := mask0 data; mask1 := mask1 data;
     scale0 := scale0 data; scale1 := scale1 data;
     dataset_name := dataset_name data;
     conf_matrix := conf_matrix data; coarse_matches := Some cm |}.

Definition forward_f32 {RD : Rounding} (self : CoarseMatching fval)
           (feat_c0 feat_c1 : tensor3 fval) (data : Data fval)
           (mask_c0 mask_c1 : option (tensor2 bool))
  : Data fval * result unit :=
  match confidence_f32 self feat_c0 feat_c1 mask_c0 mask_c1 with
  | inl e => (data, raise e)
  | inr conf =>
      let data := set_conf_matrix_f32 data conf in
      match get_coarse_match self conf data with
      | inl e => (data, raise e)
      | inr cm => (set_coarse_matches_f32 data cm, ret tt)
      end
  end.

(** The reading "every entry of the stored confidence matrix lies in
    [[0, 1]]" of one call. *)
Definition confidence_in_unit_interval {RD : Rounding}
           (self : CoarseMatching fval) (feat_c0 feat_c1 : tensor3 fval)
           (data : Data fval) (mask_c0 mask_c1 : option (tensor2 bool))
  : Prop :=
  forall conf,
    conf_matrix (fst (forward_f32 self feat_c0 feat_c1 data mask_c0 mask_c1))
    = Some conf ->
    Forall (Forall (Forall in_unit)) conf.

(** ** Sample inputs in floating point *)

Module FloatSample.
Open Scope string_scope.

Definition cfg : Config fval :=
  {| cfg_thr := Fin (1 / 5); cfg_border_rm := 2%Z;
     cfg_train_coarse_percent := Fin (2 / 5); cfg_train_pad_num_gt_min := 200;
     cfg_match_type := "dual_softmax"; dsmax_temperature := Fin (1 / 8);
     skh_init_bin_score := Fin 1; cfg_skh_iters := 3;
     cfg_skh_prefilter := false |}.

(** The matcher that [__init__] builds from [cfg]. *)
Definition matcher : CoarseMatching fval :=
  {| config := cfg; thr := Fin (1 / 5); border_rm := 0%Z;
     train_coarse_percent := Fin (2 / 5); train_pad_num_gt_min := 200;
     match_type := "dual_softmax"; temperature := Some (Fin (1 / 8));
     log_optimal_transport := None; bin_score := None; skh_iters := None;
     skh_prefilter := None |}.

(** Two images of one coarse cell each. *)
Definition data_one : Data fval :=
  {| hw0_i := (8, 8); hw0_c := (1, 1); hw1_c := (1, 1);
     mask0 := None; mask1 := None; scale0 := None; scale1 := None;
     dataset_name := None; conf_matrix := None; coarse_matches := None |}.

(** Two images with a 1 x 2 coarse grid each. *)
Definition data_two : Data fval :=
  {| hw0_i := (8, 16); hw0_c := (1, 2); hw1_c := (1, 2);
     mask0 := None; mask1 := None; scale0 := None; scale1 := None;
     dataset_name := None; conf_matrix := None; coarse_matches := None |}.

(** One cell with the single feature [1e20], as the float nearest to it,
    [11368684 * 2^43]. *)
Definition feat_huge : tensor3 fval := [[[Fin 100000002004087734272]]].

(** One sample, two cells per image, one channel. *)
Definition feat_0 : tensor3 fval := [[[Fin 1]; [Fin 2]]].
Definition feat_1 : tensor3 fval := [[[Fin 1]; [Fin 3]]].
End FloatSample.

(** * Facts about the list combinators *)

Section ListFacts.
Context {A B : Type}.

Lemma mapi_from_length (f : nat -> A -> B) (l : list A) :
  forall k, length (mapi_from k f l) = length l.
Proof. induction l as [|x r IH]; intros k; simpl; [reflexivity | now rewrite IH]. Qed.

Lemma nth_error_mapi_from (f : nat -> A -> B) (l : list A) :
  forall k i, nth_error (mapi_from k f l) i
              = option_map (f (k + i)) (nth_error l i).
Proof.
  induction l as [|x r IH]; intros k i; simpl.
  - now destruct i.
  - destruct i as [|i]; simpl.
    + now rewrite Nat.add_0_r.
    + rewrite IH. now replace (S k + i) with (k + S i) by lia.
Qed.

Lemma nth_mapi (f : nat -> A -> B) (l : list A) (i : nat) (d : A) (d' : B) :
  i < length l -> nth i (mapi f l) d' = f i (nth i l d).
Proof.
  intros Hi. unfold mapi.
  pose proof (nth_error_mapi_from f l 0 i) as E. simpl in E.
  destruct (nth_error l i) as [x|] eqn:Ex.
  - simpl in E. rewrite (nth_error_nth _ _ _ E).
    now rewrite (nth_error_nth _ _ _ Ex).
  - apply nth_error_None in Ex. lia.
Qed.

Lemma nth_map_in_range (f : A -> B) (l : list A) (i : nat) (d : A) (d' : B) :
  i < length l -> nth i (map f l) d' = f (nth i l d).
Proof.
  intros Hi. rewrite (nth_indep _ d' (f d)) by now rewrite length_map.
  apply map_nth.
Qed.

Lemma map_id_Forall (f : A -> A) (l : list A) :
  Forall (fun x => f x = x) l -> map f l = l.
Proof. induction 1; simpl; congruence. Qed.

Lemma Forall_mapi_from (P : B -> Prop) (f : nat -> A -> B) (l : list A) :
  forall k,
    (forall i x, nth_error l i = Some x -> P (f (k + i) x)) ->
    Forall P (mapi_from k f l).
Proof.
  induction l as [|x r IH]; intros k H; simpl; constructor.
  - specialize (H 0 x eq_refl). now rewrite Nat.add_0_r in H.
  - apply IH. intros i y Hy. specialize (H (S i) y Hy).
    now replace (S k + i) with (k + S i) by lia.
Qed.

Lemma combine_map_same {C : Type} (f : A -> B) (g : A -> C) (l : list A) :
  combine (map f l) (map g l) = map (fun x => (f x, g x)) l.
Proof. induction l; simpl; congruence. Qed.

End ListFacts.

Section Unflatten.
Context {A : Type}.

Lemma unflatten_length (rows cols : nat) :
  forall l : list A, length (unflatten rows cols l) = rows.
Proof. induction rows; intros l; simpl; auto. Qed.

Lemma unflatten_rows (rows cols : nat) :
  forall l : list A,
    length l = rows * cols ->
    Forall (fun row => length row = cols) (unflatten rows cols l).
Proof.
  induction rows as [|r IH]; intros l Hl; simpl; constructor.
  - rewrite length_firstn. simpl in Hl. lia.
  - apply IH. rewrite length_skipn. simpl in Hl. lia.
Qed.

Lemma concat_unflatten (rows cols : nat) :
  forall l : list A,
    length l = rows * cols -> concat (unflatten rows cols l) = l.
Proof.
  induction rows as [|r IH]; intros l Hl; simpl.
  - simpl in Hl. apply length_zero_iff_nil in Hl. now subst.
  - rewrite IH.
    + apply firstn_skipn.
    + rewrite length_skipn. simpl in Hl. lia.
Qed.

Lemma unflatten_concat (cols : nat) (ll : list (list A)) :
  Forall (fun row => length row = cols) ll ->
  unflatten (length ll) cols (concat ll) = ll.
Proof.
  induction 1 as [|row rest Hrow _ IH]; simpl; [reflexivity|].
  subst cols. rewrite firstn_app, Nat.sub_diag, firstn_all. simpl.
  rewrite app_nil_r, skipn_app, Nat.sub_diag, skipn_all. simpl.
  now rewrite IH.
Qed.

Lemma length_concat_rows (cols : nat) (ll : list (list A)) :
  Forall (fun row => length row = cols) ll ->
  length (concat ll) = length ll * cols.
Proof.
  induction 1 as [|row rest Hrow _ IH]; simpl; [reflexivity|].
  rewrite length_app. lia.
Qed.

(** Reshaping to the five-axis grid and back is the identity on a tensor
    whose last two axes have [h0c * w0c] and [h1c * w1c] entries. *)
Lemma reshape3_reshape5 (h0c w0c h1c w1c N : nat) (m : tensor3 A) :
  shape3 m N (h0c * w0c) (h1c * w1c) ->
  reshape3 (h0c * w0c) (h1c * w1c) (reshape5 h0c w0c h1c w1c m) = m.
Proof.
  intros [_ Hm]. unfold reshape3, reshape5. rewrite map_map.
  apply map_id_Forall. eapply Forall_impl; [|exact Hm].
  intros mb [HL HS]. cbv beta.
  pose proof (length_concat_rows HS) as Hflat. rewrite HL in Hflat.
  assert (Hsz : length (concat mb) = h0c * (w0c * (h1c * w1c))) by lia.
  rewrite map_map.
  rewrite (@map_id_Forall _ _ (unflatten h0c (w0c * (h1c * w1c)) (concat mb))).
  - rewrite (concat_unflatten _ _ _ Hsz). rewrite <- HL.
    now apply unflatten_concat.
  - eapply Forall_impl; [|exact (unflatten_rows _ _ _ Hsz)].
    intros blk0 Hblk0. cbv beta. rewrite map_map.
    rewrite (@map_id_Forall _ _ (unflatten w0c (h1c * w1c) blk0)).
    + now apply concat_unflatten.
    + eapply Forall_impl; [|exact (unflatten_rows _ _ _ Hblk0)].
      intros blk1 Hblk1. cbv beta. now apply concat_unflatten.
Qed.

End Unflatten.

(** * The constructor and the border masks *)

Section MatcherFacts.
Context {T : Type} {ST : Scalar T}.

Lemma init_inv (sg : option (LogOptimalTransport T)) (cfg : Config T)
      (self : CoarseMatching T) :
  __init__ sg cfg = inr self ->
  border_rm self = 0%Z /\ thr self = cfg_thr cfg /\
  ((cfg_match_type cfg = "dual_softmax"%string
    /\ temperature self = Some (dsmax_temperature cfg))
   \/ (cfg_match_type cfg = "sinkhorn"%string
       /\ temperature self = None /\ sg <> None)).
Proof.
  unfold __init__, ret, raise.
  destruct (String.eqb (cfg_match_type cfg) "dual_softmax") eqn:E1.
  - intros [= <-]. simpl. apply String.eqb_eq in E1. auto.
  - destruct (String.eqb (cfg_match_type cfg) "sinkhorn") eqn:E2;
      [|discriminate].
    destruct sg as [lot|]; [|discriminate].
    intros [= <-]. simpl. apply String.eqb_eq in E2.
    repeat split; auto. right. repeat split; auto. discriminate.
Qed.

Lemma shape3_threshold (t : T) (conf : tensor3 T) (N L S : nat) :
  shape3 conf N L S -> shape3 (threshold t conf) N L S.
Proof.
  intros [HN H]. unfold threshold. split; [now rewrite length_map|].
  apply Forall_map. eapply Forall_impl; [|exact H].
  intros mb [HL HS]. split; [now rewrite length_map|].
  apply Forall_map. eapply Forall_impl; [|exact HS].
  intros row Hrow. cbv beta. now rewrite length_map.
Qed.

(** With a margin of zero the candidates are the thresholded entries. *)
Lemma candidate_mask_no_border (self : CoarseMatching T) (conf : tensor3 T)
      (data : Data T) (N : nat) :
  border_rm self = 0%Z ->
  shape3 conf N (fst (hw0_c data) * snd (hw0_c data))
         (fst (hw1_c data) * snd (hw1_c data)) ->
  (mask0 data <> None -> mask1 data <> None) ->
  candidate_mask self conf data = inr (threshold (thr self) conf).
Proof.
  intros Hb Hshape Hkeys. unfold candidate_mask. rewrite Hb.
  unfold mask_border, mask_border_with_padding. simpl (0 <=? 0)%Z. cbv iota.
  destruct (mask0 data) as [p0|].
  - destruct (mask1 data) as [p1|].
    + simpl. unfold ret. f_equal.
      eapply reshape3_reshape5, shape3_threshold, Hshape.
    + exfalso. apply Hkeys; [discriminate | reflexivity].
  - simpl. unfold ret. f_equal.
    eapply reshape3_reshape5, shape3_threshold, Hshape.
Qed.

End MatcherFacts.

(** [C7] A border margin of zero, or any margin that is not positive, makes
    both border masks the identity: the fixed-size variant and the
    padding-aware variant return the mask they were given, whatever the mask,
    the fill value and the padding masks. *)
Theorem border_masks_noop_without_margin :
  forall (A : Type) (m : tensor5 A) (b : Z) (v : A) (p_m0 p_m1 : tensor3 bool),
    (b <= 0)%Z ->
    mask_border m b v = m /\ mask_border_with_padding m b v p_m0 p_m1 = m.
Proof.
  intros A m b v p_m0 p_m1 Hb.
  unfold mask_border, mask_border_with_padding.
  apply Z.leb_le in Hb. rewrite Hb. split; reflexivity.
Qed.

Lemma border_masks_noop_without_margin_witness :
  (0 <= 0)%Z
  /\ mask_border Sample.grid_mask 0 false = Sample.grid_mask
  /\ mask_border_with_padding Sample.grid_mask 0 false
       [[[true; true]]] [[[true; false]]] = Sample.grid_mask.
Proof.
  split; [lia|].
  apply (@border_masks_noop_without_margin bool Sample.grid_mask 0%Z false
           [[[true; true]]] [[[true; false]]]).
  lia.
Defined.

(** The masks do remove the border once the margin is positive. *)
Example mask_border_margin_one :
  reshape3 9 9
    (mask_border (reshape5 3 3 3 3 [repeat (repeat true 9) 9]) 1 false)
  = [mapi (fun i _ => mapi (fun j _ => (i =? 4) && (j =? 4)) (repeat tt 9))
          (repeat tt 9)].
Proof. vm_compute. reflexivity. Qed.

Example mask_border_with_padding_margin_one :
  reshape3 3 3
    (mask_border_with_padding
       (reshape5 3 1 3 1 [repeat (repeat true 3) 3]) 1 false
       [[[true]; [true]; [true]]] [[[true]; [true]; [false]]])
  = [[[false; false; false]; [false; false; false]; [false; false; false]]].
Proof. vm_compute. reflexivity. Qed.

(** [C9] Whatever border margin the configuration carries, a matcher that
    [__init__] returns has margin 0, and in [get_coarse_match] the border
    step then removes nothing: on a confidence matrix shaped like the two
    coarse grids, the candidates after border masking are exactly the entries
    above the threshold. *)
Theorem border_margin_forced_to_zero :
  forall (T : Type) (ST : Scalar T) (sg : option (LogOptimalTransport T))
         (cfg : Config T) (self : CoarseMatching T),
    __init__ sg cfg = inr self ->
    border_rm self = 0%Z
    /\ forall (conf : tensor3 T) (data : Data T) (N : nat),
        shape3 conf N (fst (hw0_c data) * snd (hw0_c data))
               (fst (hw1_c data) * snd (hw1_c data)) ->
        (mask0 data <> None -> mask1 data <> None) ->
        candidate_mask self conf data = inr (threshold (thr self) conf).
Proof.
  intros T ST sg cfg self Hinit.
  destruct (init_inv _ _ Hinit) as [Hb _].
  split; [exact Hb|].
  intros conf data N Hshape Hkeys.
  now apply candidate_mask_no_border with (N := N).
Qed.

Lemma border_margin_forced_to_zero_witness :
  __init__ None (Sample.cfg "dual_softmax" 2) = inr (Sample.matcher 2)
  /\ cfg_border_rm (Sample.cfg "dual_softmax" 2) = 2%Z
  /\ border_rm (Sample.matcher 2) = 0%Z
  /\ candidate_mask (Sample.matcher 2) Sample.conf_one (Sample.data false)
     = inr [[[false; true]; [false; false]]].
Proof.
  split; [reflexivity|]. split; [reflexivity|].
  pose proof (@border_margin_forced_to_zero Q Scalar_Q None
                (Sample.cfg "dual_softmax" 2) (Sample.matcher 2) eq_refl)
    as [H0 Hc].
  split; [exact H0|].
  rewrite (Hc Sample.conf_one (Sample.data false) 1).
  - reflexivity.
  - repeat constructor.
  - intros H. exfalso. apply H. reflexivity.
Defined.

(** * Extraction of the matches *)

Section MaxIndex.

Lemma max_index_from_true (besti k : nat) (l : list bool) :
  max_index_from true besti k l = (true, besti).
Proof.
  revert k. induction l as [|x r IH]; intros k; simpl; [reflexivity|].
  rewrite andb_false_r. apply IH.
Qed.

Lemma max_index_from_false (besti : nat) (l : list bool) :
  forall k,
    (max_index_from false besti k l = (false, besti)
     /\ forall p, nth p l false = false)
    \/ (exists p, max_index_from false besti k l = (true, k + p)
                  /\ nth p l false = true
                  /\ forall p', p' < p -> nth p' l false = false).
Proof.
  induction l as [|x r IH]; intros k; simpl.
  - left. split; [reflexivity|]. intros p. now destruct p.
  - destruct x; simpl.
    + right. exists 0. rewrite max_index_from_true, Nat.add_0_r.
      repeat split; auto. intros p' Hp'. lia.
    + destruct (IH (S k)) as [[E Hall]|[p [E [Hp Hlt]]]].
      * left. split; [exact E|]. intros p. destruct p; auto.
      * right. exists (S p). replace (k + S p) with (S k + p) by lia.
        repeat split; auto. intros p' Hp'. destruct p'; auto.
        apply Hlt. lia.
Qed.

(** The index that [max] returns for a row with a true entry is that of its
    first true entry; a row without one has maximum [False]. *)
Lemma max_index_spec (row : list bool) :
  (fst (max_index row) = true ->
   nth (snd (max_index row)) row false = true
   /\ forall j', j' < snd (max_index row) -> nth j' row false = false)
  /\ (fst (max_index row) = false -> forall j, nth j row false = false).
Proof.
  destruct row as [|x r]; simpl.
  - split; [discriminate|]. intros _ j. now destruct j.
  - destruct x.
    + rewrite max_index_from_true. simpl. split; [|discriminate].
      intros _. split; [reflexivity|]. intros j' Hj'. lia.
    + destruct (max_index_from_false 0 r 1) as [[E Hall]|[p [E [Hp Hlt]]]];
        rewrite E; simpl.
      * split; [discriminate|]. intros _ j. destruct j; auto.
      * split; [|discriminate]. intros _. split; [exact Hp|].
        intros j' Hj'. destruct j'; auto. apply Hlt. lia.
Qed.

Lemma max_index_all_false (row : list bool) :
  (forall j, nth j row false = false) -> fst (max_index row) = false.
Proof.
  intros Hall. destruct (fst (max_index row)) eqn:E; [|reflexivity].
  destruct (proj1 (max_index_spec row) E) as [Ht _]. now rewrite Hall in Ht.
Qed.

Lemma max_index_head_true (r : list bool) : max_index (true :: r) = (true, 0).
Proof. simpl. apply max_index_from_true. Qed.

End MaxIndex.

Section Where.

Lemma where2_unfold (mv : tensor2 bool) :
  where2 mv = concat (mapi (fun b row => map (pair b) (hits row)) mv).
Proof. reflexivity. Qed.

Lemma in_hits (row : list bool) (i : nat) :
  In i (hits row) <-> nth i row false = true.
Proof.
  unfold hits. rewrite filter_In, in_seq. split; [tauto|].
  intros H. split; [|exact H].
  destruct (Nat.lt_ge_cases i (length row)) as [Hlt|Hge]; [lia|].
  rewrite nth_overflow in H by exact Hge. discriminate.
Qed.

Lemma in_where2_from (mv : tensor2 bool) (b i : nat) :
  forall k,
    In (b, i) (concat (mapi_from k (fun b row => map (pair b) (hits row)) mv))
    <-> k <= b /\ nth i (nth (b - k) mv []) false = true.
Proof.
  induction mv as [|row rest IH]; intros k; simpl.
  - split; [tauto|]. intros [_ H]. destruct (b - k), i; discriminate.
  - rewrite in_app_iff, IH, in_map_iff. split.
    + intros [[i' [E Hi']]|[Hk H]].
      * injection E as <- <-. rewrite Nat.sub_diag. split; [lia|].
        now apply in_hits.
      * split; [lia|]. destruct (b - k) as [|n] eqn:En; [lia|].
        now replace (b - S k) with n in H by lia.
    + intros [Hk H]. destruct (b - k) as [|n] eqn:En.
      * left. exists i. assert (b = k) by lia. subst b.
        split; [reflexivity|]. now apply in_hits.
      * right. split; [lia|]. now replace (b - S k) with n by lia.
Qed.

Lemma in_where2 (mv : tensor2 bool) (b i : nat) :
  In (b, i) (where2 mv) <-> get2 false mv b i = true.
Proof.
  rewrite where2_unfold. unfold mapi, get2.
  rewrite in_where2_from, Nat.sub_0_r. split; [tauto|]. intros H.
  split; [lia | exact H].
Qed.

Lemma NoDup_hits (row : list bool) : NoDup (hits row).
Proof. apply NoDup_filter, seq_NoDup. Qed.

Lemma NoDup_where2_from (mv : tensor2 bool) :
  forall k,
    NoDup (concat (mapi_from k (fun b row => map (pair b) (hits row)) mv)).
Proof.
  induction mv as [|row rest IH]; intros k; simpl; [constructor|].
  apply NoDup_app.
  - apply NoDup_map_NoDup_ForallPairs; [|apply NoDup_hits].
    intros x y _ _ E. now injection E.
  - apply IH.
  - intros [b i] Hin Hin'. apply in_map_iff in Hin as [i' [E _]].
    injection E as <- <-. apply in_where2_from in Hin'. lia.
Qed.

(** [torch.where] lists every index pair once. *)
Lemma NoDup_where2 (mv : tensor2 bool) : NoDup (where2 mv).
Proof. rewrite where2_unfold. apply NoDup_where2_from. Qed.

Lemma filter_none {A : Type} (f : A -> bool) (l : list A) :
  (forall x, In x l -> f x = false) -> filter f l = [].
Proof.
  induction l as [|x r IH]; intros H; simpl; [reflexivity|].
  rewrite (H x (or_introl eq_refl)). apply IH. intros y Hy. apply H. now right.
Qed.

Lemma filter_all {A : Type} (f : A -> bool) (l : list A) :
  (forall x, In x l -> f x = true) -> filter f l = l.
Proof.
  induction l as [|x r IH]; intros H; simpl; [reflexivity|].
  rewrite (H x (or_introl eq_refl)). f_equal. apply IH. intros y Hy.
  apply H. now right.
Qed.

Lemma where2_sample_from (mv : tensor2 bool) (b : nat) :
  forall k,
    k <= b ->
    filter (fun x => fst x =? b)
           (concat (mapi_from k (fun b row => map (pair b) (hits row)) mv))
    = map (pair b) (hits (nth (b - k) mv [])).
Proof.
  induction mv as [|row rest IH]; intros k Hk; simpl.
  - now destruct (b - k).
  - rewrite filter_app. destruct (b - k) as [|n] eqn:En.
    + assert (b = k) by lia. subst k.
      rewrite filter_all.
      * rewrite filter_none; [now rewrite app_nil_r|].
        intros [b' i'] Hin. apply in_where2_from in Hin. simpl.
        apply Nat.eqb_neq. lia.
      * intros [b' i'] Hin. apply in_map_iff in Hin as [i'' [E _]].
        injection E as <- <-. simpl. apply Nat.eqb_refl.
    + rewrite filter_none.
      * simpl. rewrite IH by lia. now replace (b - S k) with n by lia.
      * intros [b' i'] Hin. apply in_map_iff in Hin as [i'' [E _]].
        injection E as <- <-. simpl. apply Nat.eqb_neq. lia.
Qed.

(** The index pairs that [torch.where] lists for sample [b]. *)
Lemma where2_sample (mv : tensor2 bool) (b : nat) :
  filter (fun x => fst x =? b) (where2 mv)
  = map (pair b) (hits (nth b mv [])).
Proof.
  rewrite where2_unfold. unfold mapi.
  rewrite where2_sample_from by lia. now rewrite Nat.sub_0_r.
Qed.

End Where.

Section Get2.
Context {A B : Type}.

Lemma get2_map_map (f : A -> B) (m : tensor2 A) (b i : nat) (d : A) (d' : B) :
  b < length m -> i < length (nth b m []) ->
  get2 d' (map (map f) m) b i = f (get2 d m b i).
Proof.
  intros Hb Hi. unfold get2.
  rewrite (@nth_map_in_range _ _ (map f) m b [] [] Hb).
  now apply nth_map_in_range.
Qed.

Lemma get2_map_map_range (f : A -> bool) (m : tensor2 A) (b i : nat) :
  get2 false (map (map f) m) b i = true ->
  b < length m /\ i < length (nth b m []).
Proof.
  unfold get2. intros H.
  destruct (Nat.lt_ge_cases b (length m)) as [Hb|Hb].
  - split; [exact Hb|].
    rewrite (@nth_map_in_range _ _ (map f) m b [] [] Hb) in H.
    destruct (Nat.lt_ge_cases i (length (nth b m []))) as [Hi|Hi]; auto.
    rewrite nth_overflow in H; [discriminate | now rewrite length_map].
  - rewrite (nth_overflow (map (map f) m)) in H
      by now rewrite length_map.
    destruct i; discriminate.
Qed.

End Get2.

Section MatchListFacts.
Context {T : Type} {ST : Scalar T}.

Lemma combine_fst_snd {A B : Type} (l : list (A * B)) :
  combine (map fst l) (map snd l) = l.
Proof. induction l as [|[a b] r IH]; simpl; congruence. Qed.

Lemma get_coarse_match_matches (self : CoarseMatching T) (conf : tensor3 T)
      (data : Data T) (mask : tensor3 bool) :
  filtered_mask self conf data = inr mask ->
  exists cm,
    get_coarse_match self conf data = inr cm
    /\ combine (b_ids cm) (i_ids cm)
       = where2 (row_any (apply_fallback data mask))
    /\ matches cm
       = map (match_of conf (apply_fallback data mask))
             (where2 (row_any (apply_fallback data mask))).
Proof.
  intros Hm. unfold get_coarse_match. rewrite Hm. simpl.
  eexists. split; [reflexivity|]. simpl. split.
  - apply combine_fst_snd.
  - unfold matches. simpl.
    rewrite combine_fst_snd.
    set (bi := where2 (row_any (apply_fallback data mask))).
    rewrite <- (map_id bi) at 1.
    rewrite combine_map_same, combine_map_same.
    apply map_ext. intros [b i]. reflexivity.
Qed.

Lemma in_where2_row_any (mask : tensor3 bool) (b i : nat) :
  In (b, i) (where2 (row_any mask)) ->
  b < length mask /\ i < length (nth b mask [])
  /\ fst (max_index (get2 [] mask b i)) = true
  /\ get2 0 (row_argmax mask) b i = snd (max_index (get2 [] mask b i)).
Proof.
  intros Hin. apply in_where2 in Hin. unfold row_any in Hin.
  destruct (@get2_map_map_range _ _ _ _ _ Hin) as [Hb Hi].
  rewrite (@get2_map_map _ _ _ mask b i [] false Hb Hi) in Hin.
  repeat split; auto.
  unfold row_argmax. now rewrite (@get2_map_map _ _ _ mask b i [] 0 Hb Hi).
Qed.

(** An entry that survives the mutual-nearest product is an entry of the
    input mask that equals the maximum of its row and of its column. *)
Lemma mutual_nearest_true (m : tensor3 bool) (conf : tensor3 T) (b i j : nat) :
  get3 false (mutual_nearest m conf) b i j = true ->
  b < length conf /\ i < length (nth b conf [])
  /\ j < length (get2 [] conf b i)
  /\ get3 false m b i j = true
  /\ seqb (get3 szero conf b i j) (smax_list (get2 [] conf b i)) = true
  /\ seqb (get3 szero conf b i j)
          (smax_list (column szero (nth b conf []) j)) = true.
Proof.
  unfold get3, get2, mutual_nearest. intros H.
  destruct (Nat.lt_ge_cases b (length conf)) as [Hb|Hb].
  2:{ rewrite (nth_overflow (mapi _ conf)) in H
        by (unfold mapi; now rewrite mapi_from_length).
      destruct i, j; discriminate. }
  rewrite (@nth_mapi _ _ _ conf b [] [] Hb) in H.
  destruct (Nat.lt_ge_cases i (length (nth b conf []))) as [Hi|Hi].
  2:{ rewrite (nth_overflow (mapi _ (nth b conf []))) in H
        by (unfold mapi; now rewrite mapi_from_length).
      destruct j; discriminate. }
  rewrite (@nth_mapi _ _ _ (nth b conf []) i [] [] Hi) in H.
  destruct (Nat.lt_ge_cases j (length (nth i (nth b conf []) [])))
    as [Hj|Hj].
  2:{ rewrite nth_overflow in H
        by (unfold mapi; now rewrite mapi_from_length).
      discriminate. }
  rewrite (@nth_mapi _ _ _ _ j szero false Hj) in H.
  apply andb_true_iff in H as [H H3]. apply andb_true_iff in H as [H1 H2].
  repeat split; auto.
Qed.

Lemma mutual_nearest_shape (m : tensor3 bool) (conf : tensor3 T)
      (N L S : nat) :
  shape3 conf N L S -> shape3 (mutual_nearest m conf) N L S.
Proof.
  intros [HN H]. unfold mutual_nearest, mapi.
  split; [now rewrite mapi_from_length|].
  apply Forall_mapi_from. intros b cb Hcb.
  assert (Hin : In cb conf) by (eapply nth_error_In; eauto).
  rewrite Forall_forall in H. destruct (H cb Hin) as [HL HS].
  split; [now rewrite mapi_from_length|].
  apply Forall_mapi_from. intros i row Hrow. rewrite mapi_from_length.
  rewrite Forall_forall in HS. apply HS. eapply nth_error_In; eauto.
Qed.

Lemma filtered_mask_shape (self : CoarseMatching T) (conf : tensor3 T)
      (data : Data T) (mask : tensor3 bool) (N L S : nat) :
  shape3 conf N L S -> filtered_mask self conf data = inr mask ->
  shape3 mask N L S.
Proof.
  intros Hs. unfold filtered_mask, bind.
  destruct (candidate_mask self conf data) as [e|c]; [discriminate|].
  intros [= <-]. now apply mutual_nearest_shape.
Qed.

Lemma shape3_nth {A : Type} (t : tensor3 A) (N L S b : nat) :
  shape3 t N L S -> b < N -> shape2 (nth b t []) L S.
Proof.
  intros [HN H] Hb. rewrite Forall_forall in H. apply H, nth_In. lia.
Qed.

End MatchListFacts.

Section Fallback.

Lemma count_true_zero (l : list bool) :
  count_true l = 0 -> forall x, In x l -> x = false.
Proof.
  unfold count_true. induction l as [|y r IH]; simpl; [tauto|].
  destruct y; simpl; [discriminate|].
  intros H x [<-|Hx]; auto.
Qed.

Lemma no_true_all_false (mb : tensor2 bool) :
  no_true mb = true -> forall i j, get2 false mb i j = false.
Proof.
  unfold no_true, get2. intros H i j. apply Nat.eqb_eq in H.
  destruct (Nat.lt_ge_cases i (length mb)) as [Hi|Hi].
  - destruct (Nat.lt_ge_cases j (length (nth i mb []))) as [Hj|Hj].
    + apply (count_true_zero _ H). apply in_concat.
      exists (nth i mb []). split; now apply nth_In.
    + now apply nth_overflow.
  - rewrite (nth_overflow mb) by exact Hi. now destruct j.
Qed.

Lemma hits_none (l : list bool) :
  (forall i, nth i l false = false) -> hits l = [].
Proof. intros H. apply filter_none. intros i _. apply H. Qed.

Lemma hits_head (l : list bool) :
  (forall i, nth i l false = false) -> hits (true :: l) = [0].
Proof.
  intros H. unfold hits. simpl. f_equal.
  apply filter_none. intros i Hi. apply in_seq in Hi.
  destruct i as [|i]; [lia|]. apply H.
Qed.

Lemma row_any_all_false (rows : tensor2 bool) :
  (forall i j, get2 false rows i j = false) ->
  forall i, nth i (map (fun row => fst (max_index row)) rows) false = false.
Proof.
  intros H i. destruct (Nat.lt_ge_cases i (length rows)) as [Hi|Hi].
  - rewrite (@nth_map_in_range _ _ _ rows i [] false Hi).
    apply max_index_all_false. intros j. apply H.
  - apply nth_overflow. now rewrite length_map.
Qed.

Lemma row_any_true (m : tensor3 bool) (b i j : nat) :
  get3 false m b i j = true -> get2 false (row_any m) b i = true.
Proof.
  unfold get3. intros H.
  assert (Hb : b < length m).
  { destruct (Nat.lt_ge_cases b (length m)) as [Hb|Hb]; [exact Hb|].
    rewrite (nth_overflow m) in H by exact Hb. destruct i, j; discriminate. }
  assert (Hi : i < length (nth b m [])).
  { destruct (Nat.lt_ge_cases i (length (nth b m []))) as [Hi|Hi];
      [exact Hi|].
    rewrite (nth_overflow (nth b m [])) in H by exact Hi.
    destruct j; discriminate. }
  unfold row_any. rewrite (@get2_map_map _ _ _ m b i [] false Hb Hi).
  unfold get2.
  destruct (fst (max_index (nth i (nth b m []) []))) eqn:E; [reflexivity|].
  rewrite (proj2 (max_index_spec _) E j) in H. discriminate.
Qed.

End Fallback.

(** [C10] The match list holds every (batch index, image-0 cell) pair at most
    once, and it holds exactly one match for every row of the final mask that
    has a true entry: a triple (batch, row, column) with its confidence is in
    the list if and only if the column is the smallest one at which the final
    mask of that row is true and the confidence is the entry of the matrix
    there. *)
Theorem one_partner_per_row_first_true :
  forall (T : Type) (ST : Scalar T) (self : CoarseMatching T)
         (conf : tensor3 T) (data : Data T) (mask : tensor3 bool),
    filtered_mask self conf data = inr mask ->
    exists cm,
      get_coarse_match self conf data = inr cm
      /\ NoDup (combine (b_ids cm) (i_ids cm))
      /\ forall b i j c,
          In (b, i, j, c) (matches cm)
          <-> (get3 false (apply_fallback data mask) b i j = true
               /\ (forall j', j' < j ->
                      get3 false (apply_fallback data mask) b i j' = false)
               /\ c = get3 szero conf b i j).
Proof.
  intros T ST self conf data mask Hm.
  destruct (get_coarse_match_matches _ _ _ Hm) as [cm [Hcm [Hbi Hms]]].
  exists cm. split; [exact Hcm|]. split.
  - rewrite Hbi. apply NoDup_where2.
  - intros b i j c. rewrite Hms. split.
    + intros Hin. apply in_map_iff in Hin as [[b' i'] [E Hin]].
      unfold match_of in E. simpl in E. injection E as -> -> <- <-.
      destruct (in_where2_row_any _ _ _ Hin) as [_ [_ [Hv Hj]]].
      rewrite Hj. unfold get3.
      destruct (proj1 (max_index_spec _) Hv) as [Htrue Hfirst].
      repeat split; auto.
    + intros [Htrue [Hfirst ->]].
      pose proof (row_any_true _ _ _ _ Htrue) as Hrow.
      apply in_where2 in Hrow.
      destruct (in_where2_row_any _ _ _ Hrow) as [_ [_ [Hv Hj]]].
      destruct (proj1 (max_index_spec _) Hv) as [Htrue' Hfirst'].
      assert (Ej : get2 0 (row_argmax (apply_fallback data mask)) b i = j).
      { rewrite Hj. unfold get3, get2 in *.
        destruct (Nat.lt_trichotomy
                    (snd (max_index
                            (nth i (nth b (apply_fallback data mask) []) [])))
                    j) as [Hlt|[Heq|Hgt]]; [|exact Heq|].
        - rewrite (Hfirst _ Hlt) in Htrue'. discriminate.
        - rewrite (Hfirst' _ Hgt) in Htrue. discriminate. }
      apply in_map_iff. exists (b, i). split; [|exact Hrow].
      unfold match_of. simpl fst. simpl snd. cbv zeta. now rewrite Ej.
Qed.

Lemma one_partner_per_row_first_true_witness :
  exists cm,
    get_coarse_match (Sample.matcher 0) Sample.conf_tie (Sample.data false)
    = inr cm
    /\ NoDup (combine (b_ids cm) (i_ids cm))
    /\ forall b i j c,
        In (b, i, j, c) (matches cm)
        <-> (get3 false
                  (apply_fallback (Sample.data false)
                     [[[true; true]; [true; true]]])
                  b i j = true
             /\ (forall j', j' < j ->
                    get3 false
                         (apply_fallback (Sample.data false)
                            [[[true; true]; [true; true]]])
                         b i j' = false)
             /\ c = get3 0%Q Sample.conf_tie b i j).
Proof.
  apply (@one_partner_per_row_first_true Q Scalar_Q (Sample.matcher 0)
           Sample.conf_tie (Sample.data false) [[[true; true]; [true; true]]]).
  reflexivity.
Defined.

(** Four tied pairs: both rows keep two true columns, and each row is matched
    with column 0. *)
Example tied_rows_take_first_column :
  option_map (fun cm => (b_ids cm, i_ids cm, j_ids cm))
    (match get_coarse_match (Sample.matcher 0) Sample.conf_tie
             (Sample.data false) with
     | inr cm => Some cm
     | inl _ => None
     end)
  = Some ([0; 0], [0; 1], [0; 0]).
Proof. reflexivity. Qed.

(** [C5] A sample whose mask is entirely false after thresholding, border
    masking and the mutual-nearest filter yields, when [data] carries the
    training key [dataset_name], exactly one match: cells (0, 0), with the
    confidence read from the confidence matrix at (sample, 0, 0).  Without
    the key the sample yields no match. *)
Theorem training_fallback_match :
  forall (T : Type) (ST : Scalar T) (self : CoarseMatching T)
         (conf : tensor3 T) (data : Data T) (mask : tensor3 bool)
         (N L S b : nat),
    shape3 conf N L S -> 0 < L -> 0 < S ->
    filtered_mask self conf data = inr mask ->
    b < N ->
    no_true (nth b mask []) = true ->
    exists cm,
      get_coarse_match self conf data = inr cm
      /\ sample_matches cm b
         = match dataset_name data with
           | Some _ => [(b, 0, 0, get3 szero conf b 0 0)]
           | None => []
           end.
Proof.
  intros T ST self conf data mask N L S b Hshape HL HS Hm Hb Hno.
  destruct (get_coarse_match_matches _ _ _ Hm) as [cm [Hcm [_ Hms]]].
  exists cm. split; [exact Hcm|].
  pose proof (filtered_mask_shape _ _ Hshape Hm) as Hmask.
  pose proof (shape3_nth Hmask Hb) as [HLb HSb].
  pose proof (no_true_all_false _ Hno) as Hall.
  assert (HbN : b < length mask) by (destruct Hmask; lia).
  unfold sample_matches. rewrite Hms, filter_map_swap.
  rewrite (filter_ext _ (fun x : nat * nat => fst x =? b))
    by (intros x; reflexivity).
  rewrite where2_sample. unfold row_any at 1.
  unfold apply_fallback. destruct (dataset_name data) as [name|].
  - (* training context *)
    destruct (nth b mask []) as [|row0 rest] eqn:Emb; [simpl in HLb; lia|].
    inversion HSb as [|? ? Hrow0 _]; subst.
    destruct row0 as [|x r0]; [simpl in HS; lia|].
    assert (Hlen : b < length (set_fallback mask))
      by (unfold set_fallback; now rewrite length_map).
    assert (Hrow : nth b (set_fallback mask) [] = (true :: r0) :: rest).
    { unfold set_fallback.
      rewrite (@nth_map_in_range _ _ _ mask b [] [] HbN), Emb, Hno.
      reflexivity. }
    rewrite (@nth_map_in_range _ _ _ (set_fallback mask) b [] [] Hlen), Hrow.
    assert (E : map (fun row => fst (max_index row)) ((true :: r0) :: rest)
                = true :: map (fun row => fst (max_index row)) rest)
      by (simpl; now rewrite max_index_from_true).
    rewrite E, hits_head.
    + simpl. unfold match_of. simpl fst. simpl snd. f_equal. unfold row_argmax.
      rewrite (@get2_map_map _ _ _ (set_fallback mask) b 0 [] 0 Hlen)
        by (rewrite Hrow; simpl; lia).
      unfold get2. rewrite Hrow. simpl nth. rewrite max_index_head_true.
      reflexivity.
    + apply row_any_all_false. intros i j. exact (Hall (Datatypes.S i) j).
  - (* inference *)
    rewrite (@nth_map_in_range _ _ _ mask b [] [] HbN).
    rewrite hits_none; [reflexivity|].
    now apply row_any_all_false.
Qed.

Lemma training_fallback_match_witness :
  exists cm,
    get_coarse_match (Sample.matcher 0) Sample.conf_low (Sample.data true)
    = inr cm
    /\ sample_matches cm 0 = [(0, 0, 0, (1 # 10)%Q)].
Proof.
  apply (@training_fallback_match Q Scalar_Q (Sample.matcher 0)
           Sample.conf_low (Sample.data true)
           [[[false; false]; [false; false]]] 1 2 2 0).
  - repeat constructor.
  - lia.
  - lia.
  - reflexivity.
  - lia.
  - reflexivity.
Defined.

(** The same sample at inference: no key [dataset_name], no match. *)
Example no_fallback_at_inference :
  exists cm,
    get_coarse_match (Sample.matcher 0) Sample.conf_low (Sample.data false)
    = inr cm
    /\ matches cm = [].
Proof. eexists. split; reflexivity. Qed.

(** * Mutual maxima *)

#[export] Instance ScalarOrder_Q : ScalarOrder Q.
Proof.
  constructor; simpl.
  - intros x y H. apply negb_true_iff in H. apply negb_false_iff.
    apply Qle_bool_iff. destruct (Qlt_le_dec y x) as [Hlt|Hle].
    + now apply Qlt_le_weak.
    + apply Qle_bool_iff in Hle. congruence.
  - intros x y z H1 H2. apply negb_false_iff in H1, H2. apply negb_false_iff.
    apply Qle_bool_iff in H1, H2. apply Qle_bool_iff.
    now apply Qle_trans with y.
  - intros x y H. apply Qeq_bool_iff in H. apply negb_false_iff.
    apply Qle_bool_iff. rewrite H. apply Qle_refl.
Qed.

#[export] Instance ScalarOrder_R : ScalarOrder R.
Proof.
  constructor; simpl.
  - intros x y. destruct (Rgt_dec x y), (Rgt_dec y x); auto; lra.
  - intros x y z.
    destruct (Rgt_dec x y), (Rgt_dec y z), (Rgt_dec x z); auto; lra.
  - intros x y. destruct (Req_dec_T x y), (Rgt_dec y x); auto; try lra;
      discriminate.
Qed.

Section MutualMax.
Context {T : Type} {ST : Scalar T} {SO : ScalarOrder T}.

Lemma sgtb_irrefl (x : T) : sgtb x x = false.
Proof.
  destruct (sgtb x x) eqn:E; [|reflexivity].
  pose proof (sgtb_asym _ _ E). congruence.
Qed.

Lemma fold_max_bounds (r : list T) :
  forall acc,
    let m := fold_left (fun a y => if sgtb y a then y else a) r acc in
    sgtb acc m = false /\ forall y, In y r -> sgtb y m = false.
Proof.
  induction r as [|x r IH]; intros acc; simpl.
  - split; [apply sgtb_irrefl | tauto].
  - destruct (sgtb x acc) eqn:E.
    + destruct (IH x) as [Hx Hr]. split.
      * eapply sle_trans; [|exact Hx]. now apply sgtb_asym.
      * intros y [<-|Hy]; auto.
    + destruct (IH acc) as [Ha Hr]. split; [exact Ha|].
      intros y [<-|Hy]; auto. eapply sle_trans; eauto.
Qed.

(** No entry of a line exceeds the maximum that [max] returns. *)
Lemma smax_list_upper (l : list T) (x : T) :
  In x l -> sgtb x (smax_list l) = false.
Proof.
  destruct l as [|y r]; simpl; [tauto|].
  destruct (fold_max_bounds r y) as [Hy Hr].
  intros [<-|Hx]; auto.
Qed.

Lemma eq_max_upper (l : list T) (c x : T) :
  seqb c (smax_list l) = true -> In x l -> sgtb x c = false.
Proof.
  intros Hc Hx. eapply sle_trans.
  - apply smax_list_upper, Hx.
  - apply seqb_sle, Hc.
Qed.

Lemma threshold_true (t : T) (conf : tensor3 T) (b i j : nat) :
  b < length conf -> i < length (nth b conf []) ->
  j < length (get2 [] conf b i) ->
  get3 false (threshold t conf) b i j = sgtb (get3 szero conf b i j) t.
Proof.
  intros Hb Hi Hj. unfold get3, get2, threshold in *.
  rewrite (@nth_map_in_range _ _ _ conf b [] [] Hb).
  rewrite (@nth_map_in_range _ _ _ (nth b conf []) i [] [] Hi).
  now rewrite (@nth_map_in_range _ _ _ _ j szero false Hj).
Qed.

Lemma set_fallback_genuine (mask : tensor3 bool) (b : nat) :
  no_true (nth b mask []) = false ->
  nth b (set_fallback mask) [] = nth b mask [].
Proof.
  intros H. unfold set_fallback.
  destruct (Nat.lt_ge_cases b (length mask)) as [Hb|Hb].
  - now rewrite (@nth_map_in_range _ _ _ mask b [] [] Hb), H.
  - rewrite !nth_overflow; auto. now rewrite length_map.
Qed.

Lemma apply_fallback_genuine (data : Data T) (mask : tensor3 bool) (b : nat) :
  genuine data mask b ->
  nth b (apply_fallback data mask) [] = nth b mask [].
Proof.
  unfold genuine, apply_fallback. intros [H|H].
  - now rewrite H.
  - destruct (dataset_name data); [now apply set_fallback_genuine|reflexivity].
Qed.

End MutualMax.

(** [C2], as stated, fails on ties: four equally confident pairs are all
    above the threshold and all maxima of their row and column, row 0 is
    matched with column 0, and column 1 of that row is a candidate with the
    same confidence. *)
Lemma unique_mutual_max_fails_on_ties :
  ~ unique_mutual_max (Sample.matcher 0) Sample.conf_tie (Sample.data false).
Proof.
  intros H.
  destruct (H _ _ _ eq_refl eq_refl eq_refl 0 0 0 (1 # 4)%Q)
    as [_ [Hrow _]].
  - left. reflexivity.
  - left. reflexivity.
  - specialize (Hrow 1). simpl in Hrow.
    assert (false = true) by (apply Hrow; [lia | reflexivity]).
    discriminate.
Qed.

(** [C2], amended.  For a matcher built by [__init__] and a confidence
    matrix shaped like the two coarse grids, every match that is not the
    training fallback records the confidence-matrix entry of its pair, that
    entry is above the threshold, and no entry of its row and no entry of its
    column exceeds it: a maximum of both, which ties may share. *)
Theorem extracted_match_is_mutual_max :
  forall (T : Type) (ST : Scalar T) (SO : ScalarOrder T)
         (sg : option (LogOptimalTransport T)) (cfg : Config T)
         (self : CoarseMatching T) (conf : tensor3 T) (data : Data T)
         (N : nat),
    let L := fst (hw0_c data) * snd (hw0_c data) in
    let S := fst (hw1_c data) * snd (hw1_c data) in
    __init__ sg cfg = inr self ->
    shape3 conf N L S ->
    (mask0 data <> None -> mask1 data <> None) ->
    exists mask cm,
      filtered_mask self conf data = inr mask
      /\ get_coarse_match self conf data = inr cm
      /\ forall b i j c,
          In (b, i, j, c) (matches cm) ->
          genuine data mask b ->
          b < N /\ i < L /\ j < S
          /\ c = get3 szero conf b i j
          /\ sgtb c (thr self) = true
          /\ (forall j', j' < S -> sgtb (get3 szero conf b i j') c = false)
          /\ (forall i', i' < L -> sgtb (get3 szero conf b i' j) c = false).
Proof.
  intros T ST SO sg cfg self conf data N L S Hinit Hshape Hkeys.
  destruct (init_inv _ _ Hinit) as [Hb0 _].
  pose proof (@candidate_mask_no_border T ST self conf data N Hb0 Hshape Hkeys)
    as Hcand.
  assert (Hm : filtered_mask self conf data
               = inr (mutual_nearest (threshold (thr self) conf) conf))
    by (unfold filtered_mask; now rewrite Hcand).
  destruct (get_coarse_match_matches _ _ _ Hm) as [cm [Hcm [_ Hms]]].
  eexists. exists cm. split; [exact Hm|]. split; [exact Hcm|].
  intros b i j c Hin Hgen. rewrite Hms in Hin.
  apply in_map_iff in Hin as [[b' i'] [E Hin]].
  unfold match_of in E. simpl in E. injection E as -> -> <- <-.
  destruct (in_where2_row_any _ _ _ Hin) as [_ [_ [Hv Hj]]].
  rewrite Hj. clear Hj.
  destruct (proj1 (max_index_spec _) Hv) as [Htrue _].
  unfold get2 in Htrue, Hv |- *.
  rewrite (apply_fallback_genuine Hgen) in Htrue |- *.
  set (j := snd (max_index (nth i (nth b (mutual_nearest
             (threshold (thr self) conf) conf) []) []))) in *.
  destruct (mutual_nearest_true _ _ _ _ _ Htrue)
    as [Hb [Hi [Hj [Hthr [Hrow Hcol]]]]].
  rewrite threshold_true in Hthr by assumption.
  destruct Hshape as [HN Hconf].
  assert (Hcb : shape2 (nth b conf []) L S).
  { rewrite Forall_forall in Hconf. apply Hconf. now apply nth_In. }
  destruct Hcb as [HL HS]. rewrite Forall_forall in HS.
  assert (Hrows : forall i', i' < L -> length (nth i' (nth b conf []) []) = S).
  { intros i' Hi'. apply HS, nth_In. lia. }
  unfold get2 in Hj, Hrow. rewrite (Hrows i) in Hj by lia.
  repeat split; try lia; auto.
  - intros j' Hj'. eapply eq_max_upper; [exact Hrow|].
    unfold get3. apply nth_In. rewrite Hrows; lia.
  - intros i' Hi'. eapply eq_max_upper; [exact Hcol|].
    unfold get3, column.
    rewrite <- (@nth_map_in_range _ _ (fun row => nth j row szero)
                  (nth b conf []) i' [] szero) by lia.
    apply nth_In. rewrite length_map. lia.
Qed.

Lemma extracted_match_is_mutual_max_witness :
  exists mask cm,
    filtered_mask (Sample.matcher 2) Sample.conf_one (Sample.data false)
    = inr mask
    /\ get_coarse_match (Sample.matcher 2) Sample.conf_one (Sample.data false)
       = inr cm
    /\ forall b i j c,
        In (b, i, j, c) (matches cm) ->
        genuine (Sample.data false) mask b ->
        b < 1 /\ i < 2 /\ j < 2
        /\ c = get3 0%Q Sample.conf_one b i j
        /\ sgtb c (1 # 5)%Q = true
        /\ (forall j', j' < 2 ->
                       sgtb (get3 0%Q Sample.conf_one b i j') c = false)
        /\ (forall i', i' < 2 ->
                       sgtb (get3 0%Q Sample.conf_one b i' j) c = false).
Proof.
  apply (@extracted_match_is_mutual_max Q Scalar_Q ScalarOrder_Q None
           (Sample.cfg "dual_softmax" 2) (Sample.matcher 2) Sample.conf_one
           (Sample.data false) 1).
  - reflexivity.
  - repeat constructor.
  - intros H. exfalso. apply H. reflexivity.
Defined.

(** The scenario of the specification: one pair at 0.9, the rest below the
    threshold 0.2, one match. *)
Example single_clear_match :
  exists cm,
    get_coarse_match (Sample.matcher 0) Sample.conf_one (Sample.data false)
    = inr cm
    /\ matches cm = [(0, 0, 1, (9 # 10)%Q)].
Proof. eexists. split; reflexivity. Qed.

(** * Coordinates of the matches *)

Section Rescaling.
Context {T : Type} {ST : Scalar T}.


End Rescaling.



(** The coordinate example of the specification: on grids of width 2, the
    flat indices 1 and 2 are the cells (col 1, row 0) and (col 0, row 1). *)
Example keypoints_of_cells_1_and_2 :
  forall (T : Type) (ST : Scalar T) (s : T),
    keypoints [1] 2 [(s, s)] = [(smul (sofnat 1) s, smul (sofnat 0) s)]
    /\ keypoints [2] 2 [(s, s)] = [(smul (sofnat 0) s, smul (sofnat 1) s)].
Proof. intros T ST s. split; reflexivity. Qed.

(** With the factors (2, 3) supplied for image 1 and the base scale 8 / 1,
    the match (cell 0, cell 1) of the sample input has the image-1 keypoint
    x = 1 * (8 * 2), y = 0 * (8 * 3); image 0 keeps the base scale. *)
Example keypoints_with_sample_factors :
  match get_coarse_match (Sample.matcher 0) Sample.conf_one
          {| hw0_i := (8, 16); hw0_c := (1, 2); hw1_c := (1, 2);
             mask0 := None; mask1 := None; scale0 := None;
             scale1 := Some [((2 # 1)%Q, (3 # 1)%Q)];
             dataset_name := None; conf_matrix := None;
             coarse_matches := None |} with
  | inr cm => Some (map (fun p => (Qred (fst p), Qred (snd p))) (mkpts0_c cm),
                    map (fun p => (Qred (fst p), Qred (snd p))) (mkpts1_c cm))
  | inl _ => None
  end
  = Some ([(0%Q, 0%Q)], [((16 # 1)%Q, 0%Q)]).
Proof. vm_compute. reflexivity. Qed.

(** * The confidence matrix *)

Section ZipWith.
Context {A B C : Type}.

Lemma zip_with_length (f : A -> B -> C) (l1 : list A) (l2 : list B) :
  length (zip_with f l1 l2) = Nat.min (length l1) (length l2).
Proof. unfold zip_with. now rewrite length_map, length_combine. Qed.

Lemma nth_zip_with (f : A -> B -> C) (d1 : A) (d2 : B) (d : C) :
  forall (l1 : list A) (l2 : list B) (i : nat),
    i < length l1 -> i < length l2 ->
    nth i (zip_with f l1 l2) d = f (nth i l1 d1) (nth i l2 d2).
Proof.
  induction l1 as [|a r IH]; intros l2 i H1 H2; simpl in *; [lia|].
  destruct l2 as [|b r2]; simpl in *; [lia|].
  destruct i as [|i]; [reflexivity|].
  apply (IH r2 i); lia.
Qed.

Lemma Forall_zip_with (P : A -> Prop) (Q : B -> Prop) (R : C -> Prop)
      (f : A -> B -> C) :
  (forall a b, P a -> Q b -> R (f a b)) ->
  forall l1 l2, Forall P l1 -> Forall Q l2 -> Forall R (zip_with f l1 l2).
Proof.
  intros Hf l1 l2 H1. revert l2.
  induction H1 as [|a r Ha _ IH]; intros l2 H2; [constructor|].
  destruct H2 as [|b r2 Hb H2]; constructor; auto.
  apply IH, H2.
Qed.

End ZipWith.

Section Sums.
Open Scope R_scope.

Lemma sum_R_ge_member (l : list R) :
  (forall y, In y l -> 0 <= y) ->
  0 <= sum_R l /\ forall x, In x l -> x <= sum_R l.
Proof.
  induction l as [|a r IH]; intros Hpos; simpl.
  - split; [lra | tauto].
  - assert (Ha : 0 <= a) by (apply Hpos; now left).
    destruct IH as [Hs Hr]; [intros y Hy; apply Hpos; now right|].
    split; [lra|]. intros x [<-|Hx]; [lra|].
    specialize (Hr x Hx). lra.
Qed.

Lemma exp_list_nonneg (l : list R) : forall y, In y (map exp l) -> 0 <= y.
Proof.
  intros y Hy. apply in_map_iff in Hy as [x [<- _]].
  left. apply exp_pos.
Qed.

(** One softmax entry: the exponential of a member over the sum of the
    exponentials of the line. *)
Lemma softmax_entry_bounds (x : R) (line : list R) :
  In x line -> 0 <= exp x / sum_R (map exp line) <= 1.
Proof.
  intros Hx.
  destruct (sum_R_ge_member (map exp line) (exp_list_nonneg line))
    as [_ Hge].
  specialize (Hge (exp x) (in_map exp _ _ Hx)).
  pose proof (exp_pos x) as Hpos.
  assert (Hsum : 0 < sum_R (map exp line)) by lra.
  split.
  - apply Rlt_le, Rdiv_lt_0_compat; assumption.
  - apply Rmult_le_reg_r with (sum_R (map exp line)); [exact Hsum|].
    unfold Rdiv. rewrite Rmult_assoc, Rinv_l by lra. lra.
Qed.

Lemma softmax_dim2_unit (t : tensor3 R) :
  Forall (Forall (Forall unit_interval)) (softmax_dim2 t).
Proof.
  unfold softmax_dim2. apply Forall_map, Forall_forall. intros mb _.
  apply Forall_map, Forall_forall. intros row _.
  apply Forall_map, Forall_forall. intros x Hx.
  now apply softmax_entry_bounds.
Qed.

Lemma softmax_dim1_unit (t : tensor3 R) :
  Forall (Forall (Forall unit_interval)) (softmax_dim1 t).
Proof.
  unfold softmax_dim1. apply Forall_map, Forall_forall. intros mb _.
  apply Forall_map, Forall_forall. intros row Hrow.
  apply Forall_mapi_from. intros j x Hj. simpl.
  apply softmax_entry_bounds. unfold column.
  apply in_map_iff. exists row. split; [|exact Hrow].
  now apply nth_error_nth.
Qed.

Lemma tmul_unit (a b : tensor3 R) :
  Forall (Forall (Forall unit_interval)) a ->
  Forall (Forall (Forall unit_interval)) b ->
  Forall (Forall (Forall unit_interval)) (tmul a b).
Proof.
  unfold tmul.
  apply Forall_zip_with. intros ma mb.
  apply Forall_zip_with. intros ra rb.
  apply Forall_zip_with. intros x y [Hx0 Hx1] [Hy0 Hy1].
  unfold unit_interval. split; nra.
Qed.

(** [forward] stores the confidence matrix in [data] before it extracts
    the matches. *)
Lemma forward_stores_confidence (self : CoarseMatching R)
      (feat_c0 feat_c1 : tensor3 R) (data : Data R)
      (mask_c0 mask_c1 : option (tensor2 bool)) (conf : tensor3 R) :
  confidence self feat_c0 feat_c1 mask_c0 mask_c1 = inr conf ->
  conf_matrix (fst (forward self feat_c0 feat_c1 data mask_c0 mask_c1))
  = Some conf.
Proof.
  intros H. unfold forward. rewrite H.
  destruct (get_coarse_match self conf (set_conf_matrix data conf));
    reflexivity.
Qed.

End Sums.

(** * The validity masks and the matching mode *)

Section ForwardOutcome.
Context {T : Type} {ST : Scalar T}.

Lemma filtered_mask_succeeds (self : CoarseMatching T) (conf : tensor3 T)
      (data : Data T) :
  (mask0 data <> None -> mask1 data <> None) ->
  exists mask, filtered_mask self conf data = inr mask.
Proof.
  intros Hkeys. unfold filtered_mask, candidate_mask.
  destruct (mask0 data) as [p0|]; [|simpl; eauto].
  destruct (mask1 data) as [p1|]; [simpl; eauto|].
  exfalso. apply Hkeys; [discriminate | reflexivity].
Qed.

Lemma get_coarse_match_succeeds (self : CoarseMatching T) (conf : tensor3 T)
      (data : Data T) :
  (mask0 data <> None -> mask1 data <> None) ->
  exists cm, get_coarse_match self conf data = inr cm.
Proof.
  intros Hkeys.
  destruct (filtered_mask_succeeds self conf data Hkeys) as [mask Hm].
  destruct (get_coarse_match_matches _ _ _ Hm) as [cm [Hcm _]]. eauto.
Qed.

End ForwardOutcome.

(** The guarded case: [mask_c0] alone trips the assertion, and [data] is left
    as it was. *)
Lemma lone_mask_c0_fails :
  forall (self : CoarseMatching R) (feat_c0 feat_c1 : tensor3 R)
         (data : Data R) (m0 : tensor2 bool) (temp : R),
    temperature self = Some temp ->
    forward self feat_c0 feat_c1 data (Some m0) None
    = (data, inl AssertionError).
Proof.
  intros self feat_c0 feat_c1 data m0 temp Ht.
  unfold forward, confidence. rewrite Ht. reflexivity.
Qed.

(** [C3], where the code departs from it: the assertion is only reached when
    [mask_c0] is present, so a call that supplies [mask_c1] alone does not
    fail; it succeeds, ignores the mask, and leaves [data] exactly as the
    call without any mask does. *)
Theorem lone_mask_c1_is_ignored :
  forall (self : CoarseMatching R) (feat_c0 feat_c1 : tensor3 R)
         (data : Data R) (m1 : tensor2 bool) (temp : R),
    temperature self = Some temp ->
    (mask0 data <> None -> mask1 data <> None) ->
    snd (forward self feat_c0 feat_c1 data None (Some m1)) = inr tt
    /\ forward self feat_c0 feat_c1 data None (Some m1)
       = forward self feat_c0 feat_c1 data None None.
Proof.
  intros self feat_c0 feat_c1 data m1 temp Ht Hkeys.
  split; [|reflexivity].
  unfold forward, confidence. rewrite Ht. simpl.
  match goal with
  | |- context [get_coarse_match self ?c ?d] =>
      destruct (get_coarse_match_succeeds self c d Hkeys) as [cm Hcm];
      rewrite Hcm
  end.
  reflexivity.
Qed.

Lemma lone_mask_c1_is_ignored_witness :
  snd (forward Sample.matcher_R Sample.feat Sample.feat Sample.data_R
         None (Some [[false]])) = inr tt
  /\ forward Sample.matcher_R Sample.feat Sample.feat Sample.data_R
       None (Some [[false]])
     = forward Sample.matcher_R Sample.feat Sample.feat Sample.data_R
         None None.
Proof.
  apply (@lone_mask_c1_is_ignored Sample.matcher_R Sample.feat Sample.feat
           Sample.data_R [[false]] (1 / 10)%R).
  - reflexivity.
  - intros H. exfalso. apply H. reflexivity.
Defined.

(** Sinkhorn mode needs [superglue.py]: without it the constructor fails. *)
Lemma sinkhorn_without_superglue :
  forall (T : Type) (ST : Scalar T) (cfg : Config T),
    cfg_match_type cfg = "sinkhorn"%string ->
    __init__ None cfg = inl ImportError.
Proof.
  intros T ST cfg H. unfold __init__. rewrite H. reflexivity.
Qed.

(** An unknown mode is refused. *)
Lemma unknown_mode_refused :
  forall (T : Type) (ST : Scalar T) (sg : option (LogOptimalTransport T))
         (cfg : Config T),
    cfg_match_type cfg <> "dual_softmax"%string ->
    cfg_match_type cfg <> "sinkhorn"%string ->
    __init__ sg cfg = inl NotImplementedError.
Proof.
  intros T ST sg cfg H1 H2. unfold __init__.
  apply String.eqb_neq in H1, H2. now rewrite H1, H2.
Qed.

(** [C4], where the code departs from it: a matcher constructed in Sinkhorn
    mode has no [temperature], and [forward], which has no Sinkhorn branch,
    reads it: every forward call raises AttributeError and leaves [data]
    untouched.  No bin score is appended and no Sinkhorn iteration runs. *)
Theorem sinkhorn_forward_raises :
  forall (sg : option (LogOptimalTransport R)) (cfg : Config R)
         (self : CoarseMatching R),
    cfg_match_type cfg = "sinkhorn"%string ->
    __init__ sg cfg = inr self ->
    forall (feat_c0 feat_c1 : tensor3 R) (data : Data R)
           (mask_c0 mask_c1 : option (tensor2 bool)),
      forward self feat_c0 feat_c1 data mask_c0 mask_c1
      = (data, inl AttributeError).
Proof.
  intros sg cfg self Hmode Hinit feat_c0 feat_c1 data mask_c0 mask_c1.
  destruct (init_inv _ _ Hinit) as [_ [_ [[Hdual _]|[_ [Ht _]]]]].
  - rewrite Hmode in Hdual. discriminate.
  - unfold forward, confidence. rewrite Ht. reflexivity.
Qed.

Lemma sinkhorn_forward_raises_witness :
  __init__ (Some Sample.any_transport) (Sample.cfg_R "sinkhorn" 2)
  = inr Sample.sinkhorn_matcher
  /\ forward Sample.sinkhorn_matcher Sample.feat Sample.feat Sample.data_R
       None None
     = (Sample.data_R, inl AttributeError).
Proof.
  split; [reflexivity|].
  apply (@sinkhorn_forward_raises (Some Sample.any_transport)
           (Sample.cfg_R "sinkhorn" 2) Sample.sinkhorn_matcher);
    reflexivity.
Defined.

(** * The dual-softmax formula, entry by entry *)

Section Shapes.
Context {A : Type}.

Lemma shape2_iff (t : tensor2 A) (L S : nat) :
  shape2 t L S
  <-> (length t = L /\ forall l, l < L -> length (nth l t []) = S).
Proof.
  unfold shape2. rewrite Forall_nth. split; intros [HL H]; split; auto.
  - intros l Hl. apply H. lia.
  - intros l d Hl. rewrite (nth_indep _ d []) by exact Hl. apply H. lia.
Qed.

Lemma shape3_iff (t : tensor3 A) (N L S : nat) :
  shape3 t N L S
  <-> (length t = N
       /\ forall n, n < N ->
                    length (nth n t []) = L
                    /\ forall l, l < L ->
                                 length (nth l (nth n t []) []) = S).
Proof.
  unfold shape3. rewrite Forall_nth. split; intros [HN H]; split; auto.
  - intros n Hn. apply shape2_iff, H. unfold tensor3, tensor2 in *. lia.
  - intros n d Hn. rewrite (nth_indep _ d []) by exact Hn.
    apply shape2_iff, H. unfold tensor3, tensor2 in *. lia.
Qed.

Lemma map_seq_nth {B : Type} (f : A -> B) (d : A) (l : list A) :
  map f l = map (fun k => f (nth k l d)) (seq 0 (length l)).
Proof.
  induction l as [|a r IH]; simpl; [reflexivity|].
  f_equal. rewrite <- seq_shift, map_map. exact IH.
Qed.

End Shapes.

Section Map3.
Context {A B : Type}.

Lemma map3_shape (f : A -> B) (t : tensor3 A) (N L S : nat) :
  shape3 t N L S -> shape3 (map (map (map f)) t) N L S.
Proof.
  intros [HN H]. split; [now rewrite length_map|].
  apply Forall_map. eapply Forall_impl; [|exact H].
  intros mb [HL HS]. split; [now rewrite length_map|].
  apply Forall_map. eapply Forall_impl; [|exact HS].
  intros row Hrow. cbv beta. now rewrite length_map.
Qed.

Lemma map3_entry (f : A -> B) (d : A) (d' : B) (t : tensor3 A)
      (N L S n l s : nat) :
  shape3 t N L S -> n < N -> l < L -> s < S ->
  get3 d' (map (map (map f)) t) n l s = f (get3 d t n l s).
Proof.
  intros Ht Hn Hl Hs. apply shape3_iff in Ht as [HN H].
  destruct (H n Hn) as [HL HS]. specialize (HS l Hl). unfold get3.
  rewrite (@nth_map_in_range _ _ _ t n [] []) by lia.
  rewrite (@nth_map_in_range _ _ _ (nth n t []) l [] []) by lia.
  apply nth_map_in_range. lia.
Qed.

End Map3.

Section Zip3.
Context {A B C : Type}.

Lemma zip3_shape (f : A -> B -> C) (a : tensor3 A) (b : tensor3 B)
      (N L S : nat) :
  shape3 a N L S -> shape3 b N L S ->
  shape3 (zip_with (zip_with (zip_with f)) a b) N L S.
Proof.
  intros Ha Hb. apply shape3_iff in Ha as [HNa Ha], Hb as [HNb Hb].
  apply shape3_iff. split; [rewrite zip_with_length; lia|].
  intros n Hn. destruct (Ha n Hn) as [HLa HSa], (Hb n Hn) as [HLb HSb].
  rewrite (nth_zip_with _ [] [] []) by lia.
  split; [rewrite zip_with_length; lia|].
  intros l Hl. rewrite (nth_zip_with _ [] [] []) by lia.
  rewrite zip_with_length, HSa, HSb by exact Hl. lia.
Qed.

Lemma zip3_entry (f : A -> B -> C) (da : A) (db : B) (d : C)
      (a : tensor3 A) (b : tensor3 B) (N L S n l s : nat) :
  shape3 a N L S -> shape3 b N L S -> n < N -> l < L -> s < S ->
  get3 d (zip_with (zip_with (zip_with f)) a b) n l s
  = f (get3 da a n l s) (get3 db b n l s).
Proof.
  intros Ha Hb Hn Hl Hs.
  apply shape3_iff in Ha as [HNa Ha], Hb as [HNb Hb].
  destruct (Ha n Hn) as [HLa HSa], (Hb n Hn) as [HLb HSb].
  specialize (HSa l Hl). specialize (HSb l Hl). unfold get3.
  rewrite (nth_zip_with _ [] [] []) by lia.
  rewrite (nth_zip_with _ [] [] []) by lia.
  apply nth_zip_with; lia.
Qed.

End Zip3.

Section Entries.

Lemma zip_with_seq {A B C : Type} (f : A -> B -> C) (da : A) (db : B) :
  forall (u : list A) (v : list B) (n : nat),
    length u = n -> length v = n ->
    zip_with f u v = map (fun c => f (nth c u da) (nth c v db)) (seq 0 n).
Proof.
  induction u as [|a r IH]; intros v n Hu Hv; simpl in Hu; subst n.
  - reflexivity.
  - destruct v as [|b r2]; [discriminate|]. simpl in Hv.
    unfold zip_with in *. simpl. f_equal.
    rewrite <- seq_shift, map_map. apply IH; [reflexivity | lia].
Qed.

Lemma dot_sum (u v : list R) (C : nat) :
  length u = C -> length v = C ->
  dot u v = sum_R (map (fun c => nth c u 0 * nth c v 0)%R (seq 0 C)).
Proof.
  intros Hu Hv. unfold dot. now rewrite (zip_with_seq Rmult 0%R 0%R u v Hu Hv).
Qed.

Lemma einsum_shape (a b : tensor3 R) (N L S C : nat) :
  shape3 a N L C -> shape3 b N S C -> shape3 (einsum_nlc_nsc a b) N L S.
Proof.
  intros Ha Hb. apply shape3_iff in Ha as [HNa Ha], Hb as [HNb Hb].
  apply shape3_iff. unfold einsum_nlc_nsc.
  split; [rewrite zip_with_length; lia|].
  intros n Hn. destruct (Ha n Hn) as [HLa _], (Hb n Hn) as [HLb _].
  rewrite (nth_zip_with _ [] [] []) by lia.
  split; [now rewrite length_map|].
  intros l Hl.
  rewrite (@nth_map_in_range _ _ _ (nth n a []) l [] []) by lia.
  now rewrite length_map.
Qed.

Lemma einsum_entry (a b : tensor3 R) (N L S C n l s : nat) :
  shape3 a N L C -> shape3 b N S C -> n < N -> l < L -> s < S ->
  get3 0%R (einsum_nlc_nsc a b) n l s
  = sum_R (map (fun c => get3 0 a n l c * get3 0 b n s c)%R (seq 0 C)).
Proof.
  intros Ha Hb Hn Hl Hs.
  apply shape3_iff in Ha as [HNa Ha], Hb as [HNb Hb].
  destruct (Ha n Hn) as [HLa HCa], (Hb n Hn) as [HLb HCb].
  unfold get3, einsum_nlc_nsc.
  rewrite (nth_zip_with _ [] [] []) by lia.
  rewrite (@nth_map_in_range _ _ _ (nth n a []) l [] []) by lia.
  rewrite (@nth_map_in_range _ _ _ (nth n b []) s [] 0%R) by lia.
  apply dot_sum; auto.
Qed.

Lemma outer_and_shape (m0 m1 : tensor2 bool) (N L S : nat) :
  shape2 m0 N L -> shape2 m1 N S -> shape3 (outer_and m0 m1) N L S.
Proof.
  intros H0 H1. apply shape2_iff in H0 as [HN0 H0], H1 as [HN1 H1].
  apply shape3_iff. unfold outer_and.
  split; [rewrite zip_with_length; lia|].
  intros n Hn. rewrite (nth_zip_with _ [] [] []) by lia.
  split; [rewrite length_map; now apply H0|].
  intros l Hl.
  rewrite (@nth_map_in_range _ _ _ (nth n m0 []) l false [])
    by (rewrite H0; lia).
  rewrite length_map. now apply H1.
Qed.

Lemma outer_and_entry (m0 m1 : tensor2 bool) (N L S n l s : nat) :
  shape2 m0 N L -> shape2 m1 N S -> n < N -> l < L -> s < S ->
  get3 false (outer_and m0 m1) n l s
  = get2 false m0 n l && get2 false m1 n s.
Proof.
  intros H0 H1 Hn Hl Hs.
  apply shape2_iff in H0 as [HN0 H0], H1 as [HN1 H1].
  unfold get3, get2, outer_and.
  rewrite (nth_zip_with _ [] [] []) by lia.
  rewrite (@nth_map_in_range _ _ _ (nth n m0 []) l false [])
    by (rewrite H0; lia).
  apply nth_map_in_range. rewrite H1; lia.
Qed.

Lemma softmax_dim2_shape (t : tensor3 R) (N L S : nat) :
  shape3 t N L S -> shape3 (softmax_dim2 t) N L S.
Proof.
  intros [HN H]. unfold softmax_dim2. split; [now rewrite length_map|].
  apply Forall_map. eapply Forall_impl; [|exact H].
  intros mb [HL HS]. split; [now rewrite length_map|].
  apply Forall_map. eapply Forall_impl; [|exact HS].
  intros row Hrow. cbv beta. now rewrite length_map.
Qed.

Lemma softmax_dim1_shape (t : tensor3 R) (N L S : nat) :
  shape3 t N L S -> shape3 (softmax_dim1 t) N L S.
Proof.
  intros [HN H]. unfold softmax_dim1. split; [now rewrite length_map|].
  apply Forall_map. eapply Forall_impl; [|exact H].
  intros mb [HL HS]. split; [now rewrite length_map|].
  apply Forall_map. eapply Forall_impl; [|exact HS].
  intros row Hrow. cbv beta. unfold mapi. now rewrite mapi_from_length.
Qed.

Lemma softmax_dim2_entry (t : tensor3 R) (N L S n l s : nat) :
  shape3 t N L S -> n < N -> l < L -> s < S ->
  get3 0%R (softmax_dim2 t) n l s
  = (exp (get3 0 t n l s)
     / sum_R (map (fun s' => exp (get3 0 t n l s')) (seq 0 S)))%R.
Proof.
  intros Ht Hn Hl Hs. apply shape3_iff in Ht as [HN H].
  destruct (H n Hn) as [HL HS]. specialize (HS l Hl).
  unfold get3, softmax_dim2.
  rewrite (@nth_map_in_range _ _ _ t n [] []) by lia.
  rewrite (@nth_map_in_range _ _ _ (nth n t []) l [] []) by lia.
  rewrite (@nth_map_in_range _ _ _ (nth l (nth n t []) []) s 0%R 0%R) by lia.
  now rewrite (map_seq_nth exp 0%R (nth l (nth n t []) [])), HS.
Qed.

Lemma softmax_dim1_entry (t : tensor3 R) (N L S n l s : nat) :
  shape3 t N L S -> n < N -> l < L -> s < S ->
  get3 0%R (softmax_dim1 t) n l s
  = (exp (get3 0 t n l s)
     / sum_R (map (fun l' => exp (get3 0 t n l' s)) (seq 0 L)))%R.
Proof.
  intros Ht Hn Hl Hs. apply shape3_iff in Ht as [HN H].
  destruct (H n Hn) as [HL HS]. specialize (HS l Hl).
  unfold get3, softmax_dim1.
  rewrite (@nth_map_in_range _ _ _ t n [] []) by lia.
  rewrite (@nth_map_in_range _ _ _ (nth n t []) l [] []) by lia.
  rewrite (@nth_mapi _ _ _ (nth l (nth n t []) []) s 0%R 0%R) by lia.
  unfold column. rewrite map_map.
  now rewrite (map_seq_nth (fun row => exp (nth s row 0%R)) [] (nth n t [])),
    HL.
Qed.

(** The product of the two softmax normalisations, entry by entry. *)
Lemma dual_softmax_entry (t : tensor3 R) (N L S n l s : nat) :
  shape3 t N L S -> n < N -> l < L -> s < S ->
  get3 0%R (tmul (softmax_dim1 t) (softmax_dim2 t)) n l s
  = spec_confidence (get3 0%R t) L S n l s.
Proof.
  intros Ht Hn Hl Hs. unfold tmul, spec_confidence.
  rewrite (zip3_entry Rmult 0%R 0%R 0%R (softmax_dim1_shape Ht)
             (softmax_dim2_shape Ht) Hn Hl Hs).
  now rewrite (softmax_dim1_entry Ht Hn Hl Hs),
    (softmax_dim2_entry Ht Hn Hl Hs).
Qed.

Lemma spec_confidence_ext (sim1 sim2 : nat -> nat -> nat -> R)
      (L S n l s : nat) :
  (forall l' s', l' < L -> s' < S -> sim1 n l' s' = sim2 n l' s') ->
  l < L -> s < S ->
  spec_confidence sim1 L S n l s = spec_confidence sim2 L S n l s.
Proof.
  intros H Hl Hs. unfold spec_confidence. rewrite (H l s Hl Hs).
  f_equal; f_equal; f_equal; apply map_ext_in; intros k Hk;
    apply in_seq in Hk; rewrite H; auto; lia.
Qed.

Lemma last_dim_shape (t : tensor3 R) (N L C : nat) :
  shape3 t N L C -> 0 < N -> 0 < L -> last_dim t = C.
Proof.
  intros [HN H] HN0 HL0. destruct t as [|mb rest]; [simpl in HN; lia|].
  inversion H as [|? ? [HL HC] _]; subst.
  destruct mb as [|row rows]; [simpl in HL0; lia|].
  inversion HC; subst. reflexivity.
Qed.

End Entries.

Section Similarity.
Variables (feat0 feat1 : tensor3 R) (N L S C : nat) (temp : R).
Hypothesis Hfeat0 : shape3 feat0 N L C.
Hypothesis Hfeat1 : shape3 feat1 N S C.

Lemma similarity_shape : shape3 (similarity feat0 feat1 temp) N L S.
Proof.
  unfold similarity, tdiv.
  apply map3_shape, einsum_shape with (C := C); now apply map3_shape.
Qed.

Lemma similarity_entry (n l s : nat) :
  n < N -> l < L -> s < S ->
  get3 0%R (similarity feat0 feat1 temp) n l s
  = spec_similarity C temp feat0 feat1 None n l s.
Proof.
  intros Hn Hl Hs. unfold similarity.
  rewrite (last_dim_shape Hfeat0) by lia.
  rewrite (last_dim_shape Hfeat1) by lia.
  unfold tdiv, spec_similarity.
  assert (Hs0 : shape3 (map (map (map (fun x => (x / sqrt (INR C))%R))) feat0)
                       N L C) by now apply map3_shape.
  assert (Hs1 : shape3 (map (map (map (fun x => (x / sqrt (INR C))%R))) feat1)
                       N S C) by now apply map3_shape.
  rewrite (map3_entry _ 0%R 0%R (einsum_shape Hs0 Hs1) Hn Hl Hs).
  rewrite (einsum_entry Hs0 Hs1 Hn Hl Hs).
  f_equal. f_equal. apply map_ext_in. intros c Hc. apply in_seq in Hc.
  rewrite (map3_entry _ 0%R 0%R Hfeat0 Hn Hl) by lia.
  rewrite (map3_entry _ 0%R 0%R Hfeat1 Hn Hs) by lia.
  unfold get3, get2, Rdiv. ring.
Qed.

Variables (m0 m1 : tensor2 bool).
Hypothesis Hm0 : shape2 m0 N L.
Hypothesis Hm1 : shape2 m1 N S.

Lemma mask_invalid_shape :
  shape3 (mask_invalid (similarity feat0 feat1 temp) m0 m1) N L S.
Proof.
  unfold mask_invalid, masked_fill.
  apply zip3_shape; [apply similarity_shape|].
  now apply map3_shape, outer_and_shape.
Qed.

Lemma mask_invalid_entry (n l s : nat) :
  n < N -> l < L -> s < S ->
  get3 0%R (mask_invalid (similarity feat0 feat1 temp) m0 m1) n l s
  = spec_similarity C temp feat0 feat1 (Some (m0, m1)) n l s.
Proof.
  intros Hn Hl Hs. unfold mask_invalid, masked_fill.
  pose proof (outer_and_shape Hm0 Hm1) as Ho.
  rewrite (zip3_entry _ 0%R false 0%R similarity_shape
             (map3_shape negb Ho) Hn Hl Hs).
  rewrite (map3_entry negb false false Ho Hn Hl Hs).
  rewrite (outer_and_entry Hm0 Hm1 Hn Hl Hs).
  rewrite (similarity_entry Hn Hl Hs). unfold spec_similarity.
  destruct (get2 false m0 n l && get2 false m1 n s); simpl;
    [reflexivity | unfold INF; lra].
Qed.

End Similarity.

(** [C1] For a matcher constructed in dual-softmax mode and two feature
    batches of channel width [C], called with both validity masks or with
    none, the forward pass stores a confidence matrix of shape [N, L, S]
    whose entry [(n, l, s)] is the softmax of the similarity over the cells
    of image 0 times its softmax over the cells of image 1; the similarity is
    the sum over the channels of the products of the features, each scaled by
    [1 / sqrt C], divided by the temperature, and is [-1e9] where either cell
    is invalid when the masks are supplied. *)
Theorem forward_dual_softmax :
  forall (sg : option (LogOptimalTransport R)) (cfg : Config R)
         (self : CoarseMatching R) (feat_c0 feat_c1 : tensor3 R)
         (data : Data R) (masks : option (tensor2 bool * tensor2 bool))
         (N L S C : nat),
    cfg_match_type cfg = "dual_softmax"%string ->
    __init__ sg cfg = inr self ->
    shape3 feat_c0 N L C ->
    shape3 feat_c1 N S C ->
    match masks with
    | Some (mask_c0, mask_c1) => shape2 mask_c0 N L /\ shape2 mask_c1 N S
    | None => True
    end ->
    exists conf,
      conf_matrix (fst (forward self feat_c0 feat_c1 data
                          (option_map fst masks) (option_map snd masks)))
      = Some conf
      /\ shape3 conf N L S
      /\ forall n l s,
          n < N -> l < L -> s < S ->
          get3 0%R conf n l s
          = spec_confidence
              (spec_similarity C (dsmax_temperature cfg) feat_c0 feat_c1 masks)
              L S n l s.
Proof.
  intros sg cfg self feat_c0 feat_c1 data masks N L S C Hmode Hinit
         Hf0 Hf1 Hmasks.
  destruct (init_inv _ _ Hinit) as [_ [_ [[_ Ht]|[Hsk _]]]];
    [|rewrite Hmode in Hsk; discriminate].
  assert (Hgen : forall sim : tensor3 R,
             confidence self feat_c0 feat_c1 (option_map fst masks)
                        (option_map snd masks)
             = inr (tmul (softmax_dim1 sim) (softmax_dim2 sim)) ->
             shape3 sim N L S ->
             (forall n l s, n < N -> l < L -> s < S ->
                            get3 0%R sim n l s
                            = spec_similarity C (dsmax_temperature cfg)
                                feat_c0 feat_c1 masks n l s) ->
             exists conf,
               conf_matrix (fst (forward self feat_c0 feat_c1 data
                                   (option_map fst masks)
                                   (option_map snd masks)))
               = Some conf
               /\ shape3 conf N L S
               /\ forall n l s,
                   n < N -> l < L -> s < S ->
                   get3 0%R conf n l s
                   = spec_confidence
                       (spec_similarity C (dsmax_temperature cfg)
                          feat_c0 feat_c1 masks) L S n l s).
  { intros sim Hconf Hshape Hentry. eexists.
    split; [apply forward_stores_confidence, Hconf|]. split.
    - apply zip3_shape;
        [now apply softmax_dim1_shape | now apply softmax_dim2_shape].
    - intros n l s Hn Hl Hs.
      rewrite (dual_softmax_entry Hshape Hn Hl Hs).
      apply spec_confidence_ext; auto. }
  destruct masks as [[mask_c0 mask_c1]|]; simpl in *.
  - destruct Hmasks as [Hm0 Hm1]. eapply Hgen.
    + unfold confidence. rewrite Ht. reflexivity.
    + now apply mask_invalid_shape with (C := C).
    + intros n l s. now apply mask_invalid_entry.
  - eapply Hgen.
    + unfold confidence. rewrite Ht. reflexivity.
    + now apply similarity_shape with (C := C).
    + intros n l s. now apply similarity_entry.
Qed.

Lemma sqrt2_facts :
  (sqrt (INR 2) * sqrt (INR 2) = 2)%R /\ (sqrt (INR 2) <> 0)%R.
Proof.
  assert (H : (sqrt (INR 2) * sqrt (INR 2) = 2)%R).
  { rewrite sqrt_sqrt; [simpl; lra | apply pos_INR]. }
  split; [exact H|]. intros E. rewrite E in H. lra.
Qed.

(** The similarity of the sample pair: the scaled product over the
    temperature where both cells are valid, the sentinel elsewhere. *)
Lemma sample_similarity :
  let sim := spec_similarity 2 (1 / 10)%R Extra.feat_a Extra.feat_b
               (Some (Extra.valid_a, Extra.valid_b)) in
  sim 0 0 0 = 10%R /\ sim 0 1 0 = 0%R
  /\ sim 0 0 1 = (- 1000000000)%R /\ sim 0 1 1 = (- 1000000000)%R.
Proof.
  destruct sqrt2_facts as [H2 H0]. cbv zeta.
  unfold spec_similarity. remember (sqrt (INR 2)) as s. simpl.
  repeat split.
  - match goal with
    | |- ?lhs = _ => replace lhs with (20 / (s * s))%R by (field; auto)
    end.
    rewrite H2. lra.
  - match goal with
    | |- ?lhs = _ => replace lhs with (0 / (s * s))%R by (field; auto)
    end.
    lra.
Qed.

Lemma forward_dual_softmax_witness :
  exists conf,
    conf_matrix (fst (forward Sample.matcher_R Extra.feat_a Extra.feat_b
                        Extra.data_R2 (Some Extra.valid_a)
                        (Some Extra.valid_b)))
    = Some conf
    /\ shape3 conf 1 2 2
    /\ get3 0%R conf 0 0 0
       = (exp 10 / (exp 10 + exp 0)
          * (exp 10 / (exp 10 + exp (- 1000000000))))%R
    /\ get3 0%R conf 0 1 1
       = (exp (- 1000000000) / (exp (- 1000000000) + exp (- 1000000000))
          * (exp (- 1000000000) / (exp 0 + exp (- 1000000000))))%R.
Proof.
  destruct (@forward_dual_softmax None (Sample.cfg_R "dual_softmax" 2)
              Sample.matcher_R Extra.feat_a Extra.feat_b Extra.data_R2
              (Some (Extra.valid_a, Extra.valid_b)) 1 2 2 2)
    as [conf [Hc [Hs He]]].
  - reflexivity.
  - reflexivity.
  - repeat constructor.
  - repeat constructor.
  - split; repeat constructor.
  - destruct sample_similarity as [S00 [S10 [S01 S11]]].
    exists conf. split; [exact Hc|]. split; [exact Hs|].
    change (dsmax_temperature (Sample.cfg_R "dual_softmax" 2))
      with (1 / 10)%R in He.
    split.
    + rewrite (He 0 0 0) by lia. unfold spec_confidence.
      cbn [seq map sum_R fold_right]. rewrite S00, S10, S01.
      rewrite !Rplus_0_r. reflexivity.
    + rewrite (He 0 1 1) by lia. unfold spec_confidence.
      cbn [seq map sum_R fold_right]. rewrite S11, S01, S10.
      rewrite !Rplus_0_r. reflexivity.
Defined.

(** With one cell per image both normalisations are over a single entry, and
    the confidence of the only pair is 1, masked or not. *)
Example single_pair_confidence :
  forall sim : nat -> nat -> nat -> R, spec_confidence sim 1 1 0 0 0 = 1%R.
Proof.
  intros sim. unfold spec_confidence. simpl.
  pose proof (exp_pos (sim 0 0 0)). field. lra.
Qed.

(** * Further properties of the matcher *)

(** * The confidence matrix in floating point *)

Section FloatFacts.
Context {RD : Rounding}.
Open Scope R_scope.

Lemma FMAX_large : 1 < FMAX.
Proof. unfold FMAX. lra. Qed.

Lemma overflow_unit (x : R) : 0 <= x <= 1 -> in_unit (overflow x).
Proof.
  intros [H0 H1]. pose proof FMAX_large as HF.
  pose proof (round_monotone H0) as R0. rewrite round_zero in R0.
  pose proof (round_monotone H1) as R1. rewrite round_one in R1.
  unfold overflow. cbv zeta.
  destruct (Rlt_dec FMAX (round x)); [lra|].
  destruct (Rlt_dec (round x) (- FMAX)); [lra|].
  simpl. lra.
Qed.

Lemma overflow_zero : overflow 0 = Fin 0.
Proof.
  pose proof FMAX_large as HF. unfold overflow. cbv zeta.
  rewrite round_zero.
  destruct (Rlt_dec FMAX 0); [lra|].
  destruct (Rlt_dec 0 (- FMAX)); [lra|]. reflexivity.
Qed.

Lemma overflow_one : overflow 1 = Fin 1.
Proof.
  pose proof FMAX_large as HF. unfold overflow. cbv zeta.
  rewrite round_one.
  destruct (Rlt_dec FMAX 1); [lra|].
  destruct (Rlt_dec 1 (- FMAX)); [lra|]. reflexivity.
Qed.

Lemma overflow_nonpos (x : R) : x <= 0 -> nonpos (overflow x).
Proof.
  intros H. pose proof FMAX_large as HF.
  pose proof (round_monotone H) as R0. rewrite round_zero in R0.
  unfold overflow. cbv zeta.
  destruct (Rlt_dec FMAX (round x)); [lra|].
  destruct (Rlt_dec (round x) (- FMAX)); simpl; [exact I | lra].
Qed.

Lemma overflow_at_least_zero (x : R) : 0 <= x -> at_least 0 (overflow x).
Proof.
  intros H. pose proof FMAX_large as HF.
  pose proof (round_monotone H) as R0. rewrite round_zero in R0.
  unfold overflow. cbv zeta.
  destruct (Rlt_dec FMAX (round x)); [exact I|].
  destruct (Rlt_dec (round x) (- FMAX)); simpl; lra.
Qed.

Lemma overflow_at_least_one (x : R) : 1 <= x -> at_least 1 (overflow x).
Proof.
  intros H. pose proof FMAX_large as HF.
  pose proof (round_monotone H) as R1. rewrite round_one in R1.
  unfold overflow. cbv zeta.
  destruct (Rlt_dec FMAX (round x)); [exact I|].
  destruct (Rlt_dec (round x) (- FMAX)); simpl; lra.
Qed.

Lemma fexp_nonpos (y : fval) : nonpos y -> in_unit (fexp y).
Proof.
  destruct y as [d| | |]; simpl; try tauto.
  - intros Hd. apply overflow_unit. split; [left; apply exp_pos|].
    destruct Hd as [Hd | ->]; [|rewrite exp_0; lra].
    left. rewrite <- exp_0. now apply exp_increasing.
  - intros _. lra.
Qed.

(** The maximum of a line of finite floats is one of them, and none is
    larger. *)
Lemma fmax_list_finite (line : list fval) :
  Forall finite line -> line <> [] ->
  exists m, fmax_list line = Fin m
            /\ In (Fin m) line
            /\ forall v, In (Fin v) line -> v <= m.
Proof.
  induction line as [|a r IH]; intros Hfin Hne; [congruence|].
  inversion Hfin as [|? ? Ha Hr]; subst.
  destruct a as [x| | |]; simpl in Ha; try tauto.
  destruct r as [|b r'].
  - exists x. simpl. split; [reflexivity|]. split; [now left|].
    intros v [Hv|[]]. injection Hv as ->. lra.
  - destruct (IH Hr) as [m [Hm [Hin Hle]]]; [discriminate|].
    change (fmax_list (Fin x :: b :: r'))
      with (fmax (Fin x) (fmax_list (b :: r'))).
    rewrite Hm. simpl fmax. exists (Rmax x m). split; [reflexivity|]. split.
    + unfold Rmax. destruct (Rle_dec x m); [right; exact Hin | now left].
    + intros v [Hv|Hv]; [injection Hv as ->; apply Rmax_l|].
      apply Rle_trans with m; [now apply Hle | apply Rmax_r].
Qed.

Lemma fsub_below (v m : R) : v <= m -> nonpos (fsub (Fin v) (Fin m)).
Proof. intros H. simpl. apply overflow_nonpos. lra. Qed.

Lemma fexp_fsub_self (m : R) : fexp (fsub (Fin m) (Fin m)) = Fin 1.
Proof.
  simpl. replace (m + - m) with 0 by ring.
  rewrite overflow_zero. simpl. rewrite exp_0. apply overflow_one.
Qed.

Lemma fadd_at_least (c : R) (t s : fval) :
  (c = 0 \/ c = 1) ->
  in_unit t -> at_least c s -> at_least c (fadd t s).
Proof.
  intros Hc Ht Hs.
  destruct t as [a| | |]; simpl in Ht; try tauto.
  destruct s as [b| | |]; simpl in Hs; try tauto; simpl; try exact I.
  destruct Hc as [-> | ->];
    [apply overflow_at_least_zero | apply overflow_at_least_one]; lra.
Qed.

Lemma fsum_at_least_zero (l : list fval) :
  Forall in_unit l -> at_least 0 (fsum l).
Proof.
  induction 1 as [|t r Ht _ IH]; simpl; [lra|].
  apply fadd_at_least; auto.
Qed.

(** A sum of floats of [[0, 1]], one of which is 1, is at least 1. *)
Lemma fsum_at_least_one (l : list fval) :
  Forall in_unit l -> In (Fin 1) l -> at_least 1 (fsum l).
Proof.
  induction 1 as [|t r Ht Hr IH]; intros Hin; [destruct Hin|].
  change (fsum (t :: r)) with (fadd t (fsum r)).
  destruct Hin as [->|Hin].
  - pose proof (fsum_at_least_zero Hr) as Hs.
    destruct (fsum r) as [b| | |]; simpl in Hs; try tauto; simpl;
      try exact I.
    apply overflow_at_least_one. lra.
  - apply fadd_at_least; auto.
Qed.

Lemma fdiv_unit (e s : fval) : in_unit e -> at_least 1 s -> in_unit (fdiv e s).
Proof.
  intros He Hs.
  destruct e as [a| | |]; simpl in He; try tauto.
  destruct s as [b| | |]; simpl in Hs; try tauto; simpl; try lra.
  destruct (Req_dec_T b 0); [lra|].
  apply overflow_unit.
  assert (Hi : 0 < / b) by (apply Rinv_0_lt_compat; lra).
  assert (Hb : b * / b = 1) by (apply Rinv_r; lra).
  unfold Rdiv. split; nra.
Qed.

Lemma fmul_unit (a b : fval) : in_unit a -> in_unit b -> in_unit (fmul a b).
Proof.
  intros Ha Hb.
  destruct a as [x| | |]; simpl in Ha; try tauto.
  destruct b as [y| | |]; simpl in Hb; try tauto.
  simpl. apply overflow_unit. split; nra.
Qed.

(** One softmax entry of a line of finite floats is a number of
    [[0, 1]]. *)
Lemma softmax_line_unit (line : list fval) (x : fval) :
  Forall finite line -> In x line -> in_unit (softmax_line line x).
Proof.
  intros Hfin Hx.
  destruct (fmax_list_finite Hfin) as [m [Hm [Hin Hle]]];
    [intros ->; destruct Hx|].
  unfold softmax_line. cbv zeta. rewrite Hm.
  assert (Hterm : forall y, In y line -> in_unit (fexp (fsub y (Fin m)))).
  { intros y Hy. apply fexp_nonpos.
    pose proof (proj1 (Forall_forall _ _) Hfin y Hy) as Hf.
    destruct y as [v| | |]; simpl in Hf; try tauto.
    apply fsub_below. now apply Hle. }
  apply fdiv_unit; [now apply Hterm|].
  apply fsum_at_least_one.
  - apply Forall_map, Forall_forall. exact Hterm.
  - apply in_map_iff. exists (Fin m). split; [apply fexp_fsub_self | exact Hin].
Qed.

Lemma softmax_dim2_f32_unit (t : tensor3 fval) :
  Forall (Forall (Forall finite)) t ->
  Forall (Forall (Forall in_unit)) (softmax_dim2_f32 t).
Proof.
  intros Ht. unfold softmax_dim2_f32.
  apply Forall_map. eapply Forall_impl; [|exact Ht]. intros mb Hmb.
  apply Forall_map. eapply Forall_impl; [|exact Hmb]. intros row Hrow.
  cbv beta. apply Forall_map, Forall_forall. intros x Hx.
  now apply softmax_line_unit.
Qed.

Lemma column_finite (mb : tensor2 fval) (j : nat) :
  Forall (Forall finite) mb -> Forall finite (column (Fin 0) mb j).
Proof.
  intros Hmb. unfold column. apply Forall_map.
  eapply Forall_impl; [|exact Hmb]. intros row Hrow. cbv beta.
  destruct (nth_in_or_default j row (Fin 0)) as [Hin | ->]; [|exact I].
  exact (proj1 (Forall_forall _ _) Hrow _ Hin).
Qed.

Lemma softmax_dim1_f32_unit (t : tensor3 fval) :
  Forall (Forall (Forall finite)) t ->
  Forall (Forall (Forall in_unit)) (softmax_dim1_f32 t).
Proof.
  intros Ht. unfold softmax_dim1_f32.
  apply Forall_map. eapply Forall_impl; [|exact Ht]. intros mb Hmb.
  cbv beta. apply Forall_map, Forall_forall. intros row Hrow.
  apply Forall_mapi_from. intros j x Hj. simpl.
  apply softmax_line_unit; [now apply column_finite|].
  unfold column. apply in_map_iff. exists row. split; [|exact Hrow].
  now apply nth_error_nth.
Qed.

Lemma tmul_f32_unit (a b : tensor3 fval) :
  Forall (Forall (Forall in_unit)) a ->
  Forall (Forall (Forall in_unit)) b ->
  Forall (Forall (Forall in_unit)) (tmul_f32 a b).
Proof.
  unfold tmul_f32.
  apply Forall_zip_with. intros ma mb.
  apply Forall_zip_with. intros ra rb.
  apply Forall_zip_with. intros x y. apply fmul_unit.
Qed.

Lemma softmax_dim2_f32_shape (t : tensor3 fval) (N L S : nat) :
  shape3 t N L S -> shape3 (softmax_dim2_f32 t) N L S.
Proof.
  intros [HN H]. unfold softmax_dim2_f32. split; [now rewrite length_map|].
  apply Forall_map. eapply Forall_impl; [|exact H].
  intros mb [HL HS]. split; [now rewrite length_map|].
  apply Forall_map. eapply Forall_impl; [|exact HS].
  intros row Hrow. cbv beta. now rewrite length_map.
Qed.

Lemma softmax_dim1_f32_shape (t : tensor3 fval) (N L S : nat) :
  shape3 t N L S -> shape3 (softmax_dim1_f32 t) N L S.
Proof.
  intros [HN H]. unfold softmax_dim1_f32. split; [now rewrite length_map|].
  apply Forall_map. eapply Forall_impl; [|exact H].
  intros mb [HL HS]. split; [now rewrite length_map|].
  apply Forall_map. eapply Forall_impl; [|exact HS].
  intros row Hrow. cbv beta. unfold mapi. now rewrite mapi_from_length.
Qed.

Lemma einsum_f32_shape (a b : tensor3 fval) (N L S C : nat) :
  shape3 a N L C -> shape3 b N S C ->
  shape3 (einsum_nlc_nsc_f32 a b) N L S.
Proof.
  intros Ha Hb. apply shape3_iff in Ha as [HNa Ha], Hb as [HNb Hb].
  apply shape3_iff. unfold einsum_nlc_nsc_f32.
  split; [rewrite zip_with_length; lia|].
  intros n Hn. destruct (Ha n Hn) as [HLa _], (Hb n Hn) as [HLb _].
  rewrite (nth_zip_with _ [] [] []) by lia.
  split; [now rewrite length_map|].
  intros l Hl.
  rewrite (@nth_map_in_range _ _ _ (nth n a []) l [] []) by lia.
  now rewrite length_map.
Qed.

Lemma sim_matrix_f32_shape (feat_c0 feat_c1 : tensor3 fval) (temp : fval)
      (masks : option (tensor2 bool * tensor2 bool)) (N L S C : nat) :
  shape3 feat_c0 N L C -> shape3 feat_c1 N S C ->
  match masks with
  | Some (mask_c0, mask_c1) => shape2 mask_c0 N L /\ shape2 mask_c1 N S
  | None => True
  end ->
  shape3 (sim_matrix_f32 feat_c0 feat_c1 temp masks) N L S.
Proof.
  intros H0 H1 Hm.
  assert (Hsim : shape3 (tdiv_f32 (scaled_product_f32 feat_c0 feat_c1) temp)
                        N L S).
  { unfold tdiv_f32, scaled_product_f32, normalize_f32, tdiv_f32.
    apply map3_shape, einsum_f32_shape with (C := C); now apply map3_shape. }
  unfold sim_matrix_f32. cbv zeta.
  destruct masks as [[m0 m1]|]; [|exact Hsim].
  destruct Hm as [Hm0 Hm1]. unfold mask_invalid_f32, masked_fill_f32.
  apply zip3_shape; [exact Hsim|].
  now apply map3_shape, outer_and_shape.
Qed.

(** [forward_f32] stores the confidence matrix before it extracts the
    matches. *)
Lemma forward_f32_stores_confidence (self : CoarseMatching fval)
      (feat_c0 feat_c1 : tensor3 fval) (data : Data fval)
      (mask_c0 mask_c1 : option (tensor2 bool)) (conf : tensor3 fval) :
  confidence_f32 self feat_c0 feat_c1 mask_c0 mask_c1 = inr conf ->
  conf_matrix (fst (forward_f32 self feat_c0 feat_c1 data mask_c0 mask_c1))
  = Some conf.
Proof.
  intros H. unfold forward_f32. rewrite H.
  destruct (get_coarse_match self conf (set_conf_matrix_f32 data conf));
    reflexivity.
Qed.

(** With the temperature set and both masks or none, the confidence is the
    product of the two normalisations of [sim_matrix_f32]. *)
Lemma confidence_f32_value (self : CoarseMatching fval)
      (feat_c0 feat_c1 : tensor3 fval) (temp : fval)
      (masks : option (tensor2 bool * tensor2 bool)) :
  temperature self = Some temp ->
  confidence_f32 self feat_c0 feat_c1 (option_map fst masks)
                 (option_map snd masks)
  = inr (tmul_f32
           (softmax_dim1_f32 (sim_matrix_f32 feat_c0 feat_c1 temp masks))
           (softmax_dim2_f32 (sim_matrix_f32 feat_c0 feat_c1 temp masks))).
Proof.
  intros Ht. unfold confidence_f32, sim_matrix_f32. rewrite Ht.
  destruct masks as [[m0 m1]|]; reflexivity.
Qed.

End FloatFacts.

(** Deciding the comparisons of concrete reals that an evaluation meets. *)
Ltac decide_reals :=
  repeat match goal with
         | |- context [Rlt_dec ?a ?b] => destruct (Rlt_dec a b); try lra
         | |- context [Rle_dec ?a ?b] => destruct (Rle_dec a b); try lra
         | |- context [Req_dec_T ?a ?b] => destruct (Req_dec_T a b); try lra
         end.

Ltac eval_f32 :=
  cbv [confidence_f32 sim_matrix_f32 scaled_product_f32 normalize_f32
       mask_invalid_f32 masked_fill_f32 tdiv_f32 last_dim_f32
       einsum_nlc_nsc_f32 dot_f32 softmax_dim1_f32 softmax_dim2_f32 tmul_f32
       softmax_line fmax_list fsum column mapi mapi_from outer_and
       zip_with combine map fold_right length nth andb negb
       fadd fsub fneg fmul fdiv fexp fmax finf overflow round exact_rounding
       temperature bind ret raise INR INF
       FloatSample.matcher FloatSample.feat_huge FloatSample.feat_0
       FloatSample.feat_1 Extra.valid_a Extra.valid_b];
  rewrite ?sqrt_1.

(** The evaluation of the sample call with one cell and the feature
    [1e20], under any rounding that leaves this float unchanged and does not
    bring its square, about [1e40], back into the range of the format. *)
Lemma overflowing_product_gives_nan (RD : Rounding) :
  round 100000002004087734272 = 100000002004087734272%R ->
  (FMAX < round (100000002004087734272 * 100000002004087734272))%R ->
  confidence_f32 FloatSample.matcher FloatSample.feat_huge
                 FloatSample.feat_huge None None
  = inr [[[NaN]]].
Proof.
  intros Ha Hsq.
  cbv [confidence_f32 scaled_product_f32 normalize_f32 tdiv_f32 last_dim_f32
       einsum_nlc_nsc_f32 dot_f32 softmax_dim1_f32 softmax_dim2_f32 tmul_f32
       softmax_line fmax_list fsum column mapi mapi_from
       zip_with combine map fold_right length nth
       fadd fsub fneg fmul fdiv fexp fmax finf overflow
       temperature bind ret raise INR
       FloatSample.matcher FloatSample.feat_huge].
  rewrite sqrt_1, round_one, Rdiv_1_r, Ha.
  unfold FMAX in *. decide_reals. reflexivity.
Qed.

(** [C6], as stated, fails on floats.  A matcher built in dual-softmax
    mode is called on two batches of one cell whose single feature is the
    float [1e20]: the product, about [1e40], overflows to plus infinity, the
    softmax subtracts the maximum of the line from it, and the stored
    confidence is NaN.  The features are floats and are divided by 1, and
    the product is far beyond the largest float: rounding plays no part. *)
Lemma confidence_nan_on_overflow :
  __init__ None FloatSample.cfg = inr FloatSample.matcher
  /\ shape3 FloatSample.feat_huge 1 1 1
  /\ conf_matrix
       (fst (@forward_f32 exact_rounding FloatSample.matcher
               FloatSample.feat_huge FloatSample.feat_huge
               FloatSample.data_one None None))
     = Some [[[NaN]]]
  /\ ~ @confidence_in_unit_interval exact_rounding FloatSample.matcher
         FloatSample.feat_huge FloatSample.feat_huge FloatSample.data_one
         None None.
Proof.
  assert (Hconf : @confidence_f32 exact_rounding FloatSample.matcher
                    FloatSample.feat_huge FloatSample.feat_huge None None
                  = inr [[[NaN]]]).
  { apply overflowing_product_gives_nan; [reflexivity|].
    unfold FMAX. simpl round. lra. }
  pose proof (@forward_f32_stores_confidence exact_rounding _ _ _
                FloatSample.data_one _ _ _ Hconf) as Hstored.
  split; [reflexivity|]. split; [repeat constructor|].
  split; [exact Hstored|].
  intros H. specialize (H _ Hstored).
  inversion H as [|? ? H1 _]; subst. inversion H1 as [|? ? H2 _]; subst.
  inversion H2 as [|? ? H3 _]; subst. exact H3.
Qed.

(** [C6], amended.  For a matcher constructed in dual-softmax mode, two
    feature batches of shapes [N, L, C] and [N, S, C] and both validity
    masks or none: if every entry of the similarity matrix (the scaled
    product divided by the temperature, with the sentinel at the invalid
    cells) is a finite float, the forward pass stores a confidence matrix of
    shape [N, L, S] whose every entry is a number of [[0, 1]], whatever the
    rounding. *)
Theorem finite_similarity_confidence_in_unit_interval :
  forall (RD : Rounding) (sg : option (LogOptimalTransport fval))
         (cfg : Config fval) (self : CoarseMatching fval)
         (feat_c0 feat_c1 : tensor3 fval) (data : Data fval)
         (masks : option (tensor2 bool * tensor2 bool)) (N L S C : nat),
    cfg_match_type cfg = "dual_softmax"%string ->
    __init__ sg cfg = inr self ->
    shape3 feat_c0 N L C ->
    shape3 feat_c1 N S C ->
    match masks with
    | Some (mask_c0, mask_c1) => shape2 mask_c0 N L /\ shape2 mask_c1 N S
    | None => True
    end ->
    Forall (Forall (Forall finite))
           (sim_matrix_f32 feat_c0 feat_c1 (dsmax_temperature cfg) masks) ->
    exists conf,
      conf_matrix (fst (forward_f32 self feat_c0 feat_c1 data
                          (option_map fst masks) (option_map snd masks)))
      = Some conf
      /\ shape3 conf N L S
      /\ Forall (Forall (Forall in_unit)) conf.
Proof.
  intros RD sg cfg self feat_c0 feat_c1 data masks N L S C Hmode Hinit
         Hf0 Hf1 Hmasks Hfin.
  destruct (init_inv _ _ Hinit) as [_ [_ [[_ Ht]|[Hsk _]]]];
    [|rewrite Hmode in Hsk; discriminate].
  pose proof (sim_matrix_f32_shape (dsmax_temperature cfg) masks Hf0 Hf1
                Hmasks) as Hshape.
  eexists. split.
  - apply forward_f32_stores_confidence, confidence_f32_value, Ht.
  - split.
    + apply zip3_shape;
        [now apply softmax_dim1_f32_shape | now apply softmax_dim2_f32_shape].
    + apply tmul_f32_unit;
        [now apply softmax_dim1_f32_unit | now apply softmax_dim2_f32_unit].
Qed.

Lemma finite_similarity_confidence_in_unit_interval_witness :
  exists conf,
    conf_matrix
      (fst (@forward_f32 exact_rounding FloatSample.matcher
              FloatSample.feat_0 FloatSample.feat_1 FloatSample.data_two
              (Some Extra.valid_a) (Some Extra.valid_b)))
    = Some conf
    /\ shape3 conf 1 2 2
    /\ Forall (Forall (Forall in_unit)) conf.
Proof.
  apply (@finite_similarity_confidence_in_unit_interval exact_rounding None
           FloatSample.cfg FloatSample.matcher FloatSample.feat_0
           FloatSample.feat_1 FloatSample.data_two
           (Some (Extra.valid_a, Extra.valid_b)) 1 2 2 1).
  - reflexivity.
  - reflexivity.
  - repeat constructor.
  - repeat constructor.
  - split; repeat constructor.
  - change (dsmax_temperature FloatSample.cfg) with (Fin (1 / 8)).
    eval_f32. unfold FMAX. decide_reals. repeat constructor.
Defined.

(** The similarity matrix of the sample: the products [1 * 1] and [2 * 1]
    divided by the temperature [1/8], and the sentinel in the column of the
    padded cell of image 1. *)
Example sample_similarity_f32 :
  @sim_matrix_f32 exact_rounding FloatSample.feat_0 FloatSample.feat_1
                  (Fin (1 / 8)) (Some (Extra.valid_a, Extra.valid_b))
  = [[[Fin 8; Fin (- 1000000000)]; [Fin 16; Fin (- 1000000000)]]].
Proof.
  eval_f32. unfold FMAX. decide_reals.
  repeat (f_equal; try lra).
Qed.

(** ** The match list *)

Section MatchList.
Context {T : Type} {ST : Scalar T}.

Lemma update_nth_length {A : Type} (f : A -> A) (l : list A) :
  forall k, length (update_nth k f l) = length l.
Proof.
  induction l as [|x r IH]; intros k; simpl; [now destruct k|].
  destruct k; simpl; auto.
Qed.

Lemma nth_update_nth {A : Type} (f : A -> A) (d : A) (l : list A) :
  forall k i,
    nth i (update_nth k f l) d
    = if (i =? k) && (i <? length l) then f (nth i l d) else nth i l d.
Proof.
  induction l as [|x r IH]; intros k i; simpl.
  - destruct k; rewrite andb_false_r; reflexivity.
  - destruct k as [|k], i as [|i]; simpl; try reflexivity.
    rewrite IH. reflexivity.
Qed.

Lemma set_fallback_shape (mask : tensor3 bool) (N L S : nat) :
  shape3 mask N L S -> shape3 (set_fallback mask) N L S.
Proof.
  intros [HN H]. unfold set_fallback. split; [now rewrite length_map|].
  apply Forall_map. eapply Forall_impl; [|exact H].
  intros mb Hmb. cbv beta. destruct (no_true mb); [|exact Hmb].
  apply shape2_iff in Hmb as [HL HS]. apply shape2_iff.
  split; [now rewrite update_nth_length|].
  intros l Hl. rewrite (nth_update_nth _ []).
  destruct ((l =? 0) && (l <? length mb)); [|now apply HS].
  rewrite update_nth_length. now apply HS.
Qed.

Lemma apply_fallback_shape (data : Data T) (mask : tensor3 bool)
      (N L S : nat) :
  shape3 mask N L S -> shape3 (apply_fallback data mask) N L S.
Proof.
  intros H. unfold apply_fallback.
  destruct (dataset_name data); [now apply set_fallback_shape | exact H].
Qed.

End MatchList.

(** [X5] The sequences of a result are parallel: the six per-match
    sequences have one entry per match, and [m_bids] repeats [b_ids]. *)
Theorem match_sequences_aligned :
  forall (T : Type) (ST : Scalar T) (self : CoarseMatching T)
         (conf : tensor3 T) (data : Data T) (mask : tensor3 bool),
    filtered_mask self conf data = inr mask ->
    exists cm,
      get_coarse_match self conf data = inr cm
      /\ m_bids cm = b_ids cm
      /\ length (i_ids cm) = length (b_ids cm)
      /\ length (j_ids cm) = length (b_ids cm)
      /\ length (mconf cm) = length (b_ids cm)
      /\ length (mkpts0_c cm) = length (b_ids cm)
      /\ length (mkpts1_c cm) = length (b_ids cm).
Proof.
  intros T ST self conf data mask Hm.
  unfold get_coarse_match. rewrite Hm. simpl.
  eexists. split; [reflexivity|]. simpl.
  assert (Hscale : forall sc (ids : list nat),
             length (effective_scale
                       (sdiv (sofnat (fst (hw0_i data)))
                             (sofnat (fst (hw0_c data)))) sc ids)
             = length ids).
  { intros sc ids. unfold effective_scale.
    destruct sc; now rewrite length_map. }
  unfold keypoints.
  rewrite !length_map, !length_combine, !Hscale, !length_map.
  repeat split; lia.
Qed.

Lemma match_sequences_aligned_witness :
  exists cm,
    get_coarse_match (Sample.matcher 0) Extra.conf_two (Sample.data true)
    = inr cm
    /\ m_bids cm = b_ids cm
    /\ length (i_ids cm) = length (b_ids cm)
    /\ length (j_ids cm) = length (b_ids cm)
    /\ length (mconf cm) = length (b_ids cm)
    /\ length (mkpts0_c cm) = length (b_ids cm)
    /\ length (mkpts1_c cm) = length (b_ids cm).
Proof.
  apply (@match_sequences_aligned Q Scalar_Q (Sample.matcher 0)
           Extra.conf_two (Sample.data true)
           [[[false; true]; [false; false]];
            [[false; false]; [false; false]]]).
  reflexivity.
Defined.

Section ScanOrder.

Lemma StronglySorted_app {A : Type} (R : A -> A -> Prop) (l1 l2 : list A) :
  StronglySorted R l1 -> StronglySorted R l2 ->
  (forall x y, In x l1 -> In y l2 -> R x y) ->
  StronglySorted R (l1 ++ l2).
Proof.
  induction 1 as [|a r Hr IH Ha]; intros H2 Hx; simpl; [exact H2|].
  constructor.
  - apply IH; [exact H2|]. intros x y Hi Hy. apply Hx; [now right | exact Hy].
  - apply Forall_app. split; [exact Ha|].
    apply Forall_forall. intros y Hy. apply Hx; [now left | exact Hy].
Qed.

Lemma filter_seq_sorted (f : nat -> bool) (n : nat) :
  forall a, StronglySorted lt (filter f (seq a n)).
Proof.
  induction n as [|n IH]; intros a; simpl; [constructor|].
  destruct (f a); [|apply IH].
  constructor; [apply IH|].
  apply Forall_forall. intros x Hx. apply filter_In in Hx as [Hx _].
  apply in_seq in Hx. lia.
Qed.

Lemma map_pair_sorted (b : nat) (l : list nat) :
  StronglySorted lt l -> StronglySorted lex_lt (map (pair b) l).
Proof.
  induction 1 as [|a r Hr IH Ha]; simpl; constructor; [exact IH|].
  apply Forall_map. eapply Forall_impl; [|exact Ha].
  intros x Hx. right. simpl. auto.
Qed.

Lemma where2_sorted_from (mv : tensor2 bool) :
  forall k,
    StronglySorted lex_lt
      (concat (mapi_from k (fun b row => map (pair b) (hits row)) mv)).
Proof.
  induction mv as [|row rest IH]; intros k; simpl; [constructor|].
  apply StronglySorted_app.
  - apply map_pair_sorted. unfold hits. apply filter_seq_sorted.
  - apply IH.
  - intros [b i] [b' i'] Hin Hin'.
    apply in_map_iff in Hin as [i0 [E _]]. injection E as <- <-.
    apply in_where2_from in Hin'. left. simpl. lia.
Qed.

Lemma where2_sorted (mv : tensor2 bool) : StronglySorted lex_lt (where2 mv).
Proof. rewrite where2_unfold. apply where2_sorted_from. Qed.

End ScanOrder.

(** [X6] The matches come out in the order of a row-major scan: the pairs
    (batch index, image-0 cell) are strictly increasing, first by batch
    index and within a sample by cell index. *)
Theorem matches_in_scan_order :
  forall (T : Type) (ST : Scalar T) (self : CoarseMatching T)
         (conf : tensor3 T) (data : Data T) (mask : tensor3 bool),
    filtered_mask self conf data = inr mask ->
    exists cm,
      get_coarse_match self conf data = inr cm
      /\ StronglySorted lex_lt (combine (b_ids cm) (i_ids cm)).
Proof.
  intros T ST self conf data mask Hm.
  destruct (get_coarse_match_matches _ _ _ Hm) as [cm [Hcm [Hbi _]]].
  exists cm. split; [exact Hcm|]. rewrite Hbi. apply where2_sorted.
Qed.

Lemma matches_in_scan_order_witness :
  exists cm,
    get_coarse_match (Sample.matcher 0) Extra.conf_two (Sample.data true)
    = inr cm
    /\ StronglySorted lex_lt (combine (b_ids cm) (i_ids cm)).
Proof.
  apply (@matches_in_scan_order Q Scalar_Q (Sample.matcher 0)
           Extra.conf_two (Sample.data true)
           [[[false; true]; [false; false]];
            [[false; false]; [false; false]]]).
  reflexivity.
Defined.

(** [X7] Every match, the training fallback included, indexes inside the
    confidence matrix, and its confidence is the entry of the matrix at its
    (sample, image-0 cell, image-1 cell). *)
Theorem matches_index_the_matrix :
  forall (T : Type) (ST : Scalar T) (self : CoarseMatching T)
         (conf : tensor3 T) (data : Data T) (mask : tensor3 bool)
         (N L S : nat),
    shape3 conf N L S ->
    filtered_mask self conf data = inr mask ->
    exists cm,
      get_coarse_match self conf data = inr cm
      /\ forall b i j c,
          In (b, i, j, c) (matches cm) ->
          b < N /\ i < L /\ j < S /\ c = get3 szero conf b i j.
Proof.
  intros T ST self conf data mask N L S Hshape Hm.
  destruct (get_coarse_match_matches _ _ _ Hm) as [cm [Hcm [_ Hms]]].
  exists cm. split; [exact Hcm|].
  intros b i j c Hin. rewrite Hms in Hin.
  apply in_map_iff in Hin as [[b' i'] [E Hin]].
  unfold match_of in E. simpl in E. injection E as -> -> <- <-.
  destruct (in_where2_row_any _ _ _ Hin) as [Hb [Hi [Hv Hj]]].
  rewrite Hj.
  pose proof (apply_fallback_shape data
                (filtered_mask_shape _ _ Hshape Hm)) as Hs.
  apply shape3_iff in Hs as [HN Hs].
  assert (HbN : b < N) by (unfold tensor3 in *; lia).
  destruct (Hs b HbN) as [HL HS].
  assert (HiL : i < L) by (unfold tensor2 in *; lia).
  specialize (HS i HiL).
  repeat split; auto.
  destruct (proj1 (max_index_spec _) Hv) as [Htrue _].
  unfold get2 in *.
  destruct (Nat.lt_ge_cases
              (snd (max_index (nth i (nth b (apply_fallback data mask) [])
                                   [])))
              (length (nth i (nth b (apply_fallback data mask) []) [])))
    as [Hlt|Hge]; [lia|].
  rewrite nth_overflow in Htrue by exact Hge. discriminate.
Qed.

Lemma matches_index_the_matrix_witness :
  exists cm,
    get_coarse_match (Sample.matcher 0) Extra.conf_two (Sample.data true)
    = inr cm
    /\ forall b i j c,
        In (b, i, j, c) (matches cm) ->
        b < 2 /\ i < 2 /\ j < 2 /\ c = get3 0%Q Extra.conf_two b i j.
Proof.
  apply (@matches_index_the_matrix Q Scalar_Q (Sample.matcher 0)
           Extra.conf_two (Sample.data true)
           [[[false; true]; [false; false]];
            [[false; false]; [false; false]]] 2 2 2).
  - repeat constructor.
  - reflexivity.
Defined.

Section NonEmpty.

Lemma count_true_pos (l : list bool) : count_true l <> 0 -> In true l.
Proof.
  unfold count_true. induction l as [|x r IH]; simpl; [tauto|].
  destruct x; simpl; auto.
Qed.

Lemma some_true (mb : tensor2 bool) :
  no_true mb = false -> exists i j, get2 false mb i j = true.
Proof.
  unfold no_true. intros H. apply Nat.eqb_neq in H.
  apply count_true_pos, in_concat in H as [row [Hrow Hin]].
  destruct (In_nth _ _ [] Hrow) as [i [_ Hi]].
  destruct (In_nth _ _ false Hin) as [j [_ Hj]].
  exists i, j. unfold get2. now rewrite Hi.
Qed.

(** After the fallback every sample of a training batch has a true entry. *)
Lemma set_fallback_some_true (mask : tensor3 bool) (N L S b : nat) :
  shape3 mask N L S -> 0 < L -> 0 < S -> b < N ->
  exists i j, get3 false (set_fallback mask) b i j = true.
Proof.
  intros Hs HL HS Hb. apply shape3_iff in Hs as [HN Hs].
  destruct (Hs b Hb) as [HLb HSb]. specialize (HSb 0 HL).
  assert (HbN : b < length mask) by (unfold tensor3 in *; lia).
  unfold get3, set_fallback.
  destruct (no_true (nth b mask [])) eqn:E.
  - exists 0, 0.
    rewrite (@nth_map_in_range _ _ _ mask b [] [] HbN), E.
    rewrite (nth_update_nth _ []). simpl (0 =? 0).
    replace (0 <? length (nth b mask [])) with true
      by (symmetry; apply Nat.ltb_lt; unfold tensor2 in *; lia).
    simpl andb. cbv iota. rewrite (nth_update_nth _ false). simpl (0 =? 0).
    replace (0 <? length (nth 0 (nth b mask []) [])) with true
      by (symmetry; apply Nat.ltb_lt; lia).
    reflexivity.
  - destruct (some_true _ E) as [i [j Hij]]. exists i, j.
    now rewrite (@nth_map_in_range _ _ _ mask b [] [] HbN), E.
Qed.

End NonEmpty.

(** [X8] In a training context (the key [dataset_name] is present) every
    sample of the batch has at least one match, whatever the confidence
    matrix and the threshold. *)
Theorem training_samples_are_matched :
  forall (T : Type) (ST : Scalar T) (self : CoarseMatching T)
         (conf : tensor3 T) (data : Data T) (mask : tensor3 bool)
         (N L S : nat),
    shape3 conf N L S -> 0 < L -> 0 < S ->
    dataset_name data <> None ->
    filtered_mask self conf data = inr mask ->
    exists cm,
      get_coarse_match self conf data = inr cm
      /\ forall b, b < N -> sample_matches cm b <> [].
Proof.
  intros T ST self conf data mask N L S Hshape HL HS Hname Hm.
  destruct (get_coarse_match_matches _ _ _ Hm) as [cm [Hcm [_ Hms]]].
  exists cm. split; [exact Hcm|]. intros b Hb.
  pose proof (filtered_mask_shape _ _ Hshape Hm) as Hmask.
  assert (Hfb : apply_fallback data mask = set_fallback mask).
  { unfold apply_fallback. destruct (dataset_name data); [reflexivity|].
    now elim Hname. }
  destruct (set_fallback_some_true Hmask HL HS Hb) as [i [j Hij]].
  rewrite <- Hfb in Hij. apply row_any_true, in_where2 in Hij.
  assert (Hin : In (match_of conf (apply_fallback data mask) (b, i))
                   (sample_matches cm b)).
  { unfold sample_matches. apply filter_In. split.
    - rewrite Hms. now apply in_map.
    - simpl. apply Nat.eqb_refl. }
  intros Hnil. rewrite Hnil in Hin. exact Hin.
Qed.

Lemma training_samples_are_matched_witness :
  exists cm,
    get_coarse_match (Sample.matcher 0) Extra.conf_two (Sample.data true)
    = inr cm
    /\ forall b, b < 2 -> sample_matches cm b <> [].
Proof.
  apply (@training_samples_are_matched Q Scalar_Q (Sample.matcher 0)
           Extra.conf_two (Sample.data true)
           [[[false; true]; [false; false]];
            [[false; false]; [false; false]]] 2 2 2).
  - repeat constructor.
  - lia.
  - lia.
  - discriminate.
  - reflexivity.
Defined.

(** ** The border masks with a positive margin *)

Section Pointwise.
Context {X : Type} (dX : X).

Lemma pointwise_map (Q Q' : nat -> X -> Prop) (op : X -> X) (l : list X)
      (n : nat) :
  (forall i x, i < n -> Q i x -> Q' i (op x)) ->
  pointwise dX Q l n -> pointwise dX Q' (map op l) n.
Proof.
  intros Hop [Hn H]. split; [now rewrite length_map|].
  intros i Hi. rewrite (@nth_map_in_range _ _ op l i dX dX) by lia.
  apply Hop; auto.
Qed.

Lemma pointwise_fill_slice (Q Q' : nat -> X -> Prop) (lo hi : option Z)
      (f : X -> X) (l : list X) (n : nat) :
  (forall i x, i < n -> Q i x ->
               Q' i (if in_slice n lo hi i then f x else x)) ->
  pointwise dX Q l n -> pointwise dX Q' (fill_slice lo hi f l) n.
Proof.
  intros Hop [Hn H]. unfold fill_slice.
  split; [unfold mapi; now rewrite mapi_from_length|].
  intros i Hi. rewrite (@nth_mapi _ _ _ l i dX dX) by lia.
  rewrite Hn. apply (Hop i _ Hi (H i Hi)).
Qed.

Lemma pointwise_impl (Q Q' : nat -> X -> Prop) (l : list X) (n : nat) :
  (forall i x, i < n -> Q i x -> Q' i x) ->
  pointwise dX Q l n -> pointwise dX Q' l n.
Proof. intros HQ [Hn H]. split; auto. Qed.

Lemma pointwise_Forall (P : X -> Prop) (l : list X) (n : nat) :
  pointwise dX (fun _ x => P x) l n <-> length l = n /\ Forall P l.
Proof.
  unfold pointwise. rewrite Forall_nth. split; intros [Hn H]; split; auto.
  - intros i d Hi. rewrite (nth_indep _ d dX) by exact Hi. apply H. lia.
  - intros i Hi. apply H. lia.
Qed.

End Pointwise.

Section AxisFills.
Context {A : Type} (d v : A) (lo hi : option Z).

Lemma fill1_entries (z : list A) (W1 : nat) (g : nat -> A) :
  entries1 d z W1 g -> entries1 d (fill1 v z) W1 (fun _ => v).
Proof. apply pointwise_map. reflexivity. Qed.

Lemma fill2_entries (y : tensor2 A) (H1 W1 : nat) (g : nat -> nat -> A) :
  entries2 d y H1 W1 g -> entries2 d (fill2 v y) H1 W1 (fun _ _ => v).
Proof. apply pointwise_map. intros i z _. apply fill1_entries. Qed.

Lemma fill3_entries (x : tensor3 A) (W0 H1 W1 : nat)
      (g : nat -> nat -> nat -> A) :
  entries3 d x W0 H1 W1 g -> entries3 d (fill3 v x) W0 H1 W1 (fun _ _ _ => v).
Proof. apply pointwise_map. intros i y _. apply fill2_entries. Qed.

Lemma slice1_entries (z : list A) (W1 : nat) (g : nat -> A) :
  entries1 d z W1 g ->
  entries1 d (fill_slice lo hi (fun _ => v) z) W1
           (fun w1 => if in_slice W1 lo hi w1 then v else g w1).
Proof.
  apply pointwise_fill_slice. intros i e _ ->.
  now destruct (in_slice W1 lo hi i).
Qed.

Lemma slice2_axis0 (y : tensor2 A) (H1 W1 : nat) (g : nat -> nat -> A) :
  entries2 d y H1 W1 g ->
  entries2 d (fill_slice lo hi (fill1 v) y) H1 W1
           (fun h1 w1 => if in_slice H1 lo hi h1 then v else g h1 w1).
Proof.
  apply pointwise_fill_slice. intros i z _ Hz.
  destruct (in_slice H1 lo hi i); [now apply fill1_entries in Hz | exact Hz].
Qed.

Lemma slice2_axis1 (y : tensor2 A) (H1 W1 : nat) (g : nat -> nat -> A) :
  entries2 d y H1 W1 g ->
  entries2 d (map (fill_slice lo hi (fun _ => v)) y) H1 W1
           (fun h1 w1 => if in_slice W1 lo hi w1 then v else g h1 w1).
Proof. apply pointwise_map. intros i z _. apply slice1_entries. Qed.

Lemma slice3_axis0 (x : tensor3 A) (W0 H1 W1 : nat)
      (g : nat -> nat -> nat -> A) :
  entries3 d x W0 H1 W1 g ->
  entries3 d (fill_slice lo hi (fill2 v) x) W0 H1 W1
           (fun w0 h1 w1 => if in_slice W0 lo hi w0 then v else g w0 h1 w1).
Proof.
  apply pointwise_fill_slice. intros i y _ Hy.
  destruct (in_slice W0 lo hi i); [now apply fill2_entries in Hy | exact Hy].
Qed.

Lemma slice3_axis1 (x : tensor3 A) (W0 H1 W1 : nat)
      (g : nat -> nat -> nat -> A) :
  entries3 d x W0 H1 W1 g ->
  entries3 d (map (fill_slice lo hi (fill1 v)) x) W0 H1 W1
           (fun w0 h1 w1 => if in_slice H1 lo hi h1 then v else g w0 h1 w1).
Proof. apply pointwise_map. intros i y _. apply slice2_axis0. Qed.

Lemma slice3_axis2 (x : tensor3 A) (W0 H1 W1 : nat)
      (g : nat -> nat -> nat -> A) :
  entries3 d x W0 H1 W1 g ->
  entries3 d (map (map (fill_slice lo hi (fun _ => v))) x) W0 H1 W1
           (fun w0 h1 w1 => if in_slice W1 lo hi w1 then v else g w0 h1 w1).
Proof. apply pointwise_map. intros i y _. apply slice2_axis1. Qed.

Lemma slice4_axis0 (t : tensor4 A) (H0 W0 H1 W1 : nat)
      (g : nat -> nat -> nat -> nat -> A) :
  entries4 d t H0 W0 H1 W1 g ->
  entries4 d (fill_slice lo hi (fill3 v) t) H0 W0 H1 W1
           (fun h0 w0 h1 w1 =>
              if in_slice H0 lo hi h0 then v else g h0 w0 h1 w1).
Proof.
  apply pointwise_fill_slice. intros i x _ Hx.
  destruct (in_slice H0 lo hi i); [now apply fill3_entries in Hx | exact Hx].
Qed.

Lemma slice4_axis1 (t : tensor4 A) (H0 W0 H1 W1 : nat)
      (g : nat -> nat -> nat -> nat -> A) :
  entries4 d t H0 W0 H1 W1 g ->
  entries4 d (map (fill_slice lo hi (fill2 v)) t) H0 W0 H1 W1
           (fun h0 w0 h1 w1 =>
              if in_slice W0 lo hi w0 then v else g h0 w0 h1 w1).
Proof. apply pointwise_map. intros i x _. apply slice3_axis0. Qed.

Lemma slice4_axis2 (t : tensor4 A) (H0 W0 H1 W1 : nat)
      (g : nat -> nat -> nat -> nat -> A) :
  entries4 d t H0 W0 H1 W1 g ->
  entries4 d (map (map (fill_slice lo hi (fill1 v))) t) H0 W0 H1 W1
           (fun h0 w0 h1 w1 =>
              if in_slice H1 lo hi h1 then v else g h0 w0 h1 w1).
Proof. apply pointwise_map. intros i x _. apply slice3_axis1. Qed.

Lemma slice4_axis3 (t : tensor4 A) (H0 W0 H1 W1 : nat)
      (g : nat -> nat -> nat -> nat -> A) :
  entries4 d t H0 W0 H1 W1 g ->
  entries4 d (map (map (map (fill_slice lo hi (fun _ => v)))) t) H0 W0 H1 W1
           (fun h0 w0 h1 w1 =>
              if in_slice W1 lo hi w1 then v else g h0 w0 h1 w1).
Proof. apply pointwise_map. intros i x _. apply slice3_axis2. Qed.

End AxisFills.

Section EntriesShape.
Context {A : Type} (d : A).

Lemma entries2_iff (y : tensor2 A) (H1 W1 : nat) (g : nat -> nat -> A) :
  entries2 d y H1 W1 g
  <-> shape2 y H1 W1
      /\ forall h1 w1, h1 < H1 -> w1 < W1 -> get2 d y h1 w1 = g h1 w1.
Proof.
  unfold entries2, entries1, pointwise, get2. rewrite shape2_iff. split.
  - intros [HH H]. split; [split; [exact HH|]|].
    + intros h1 Hh1. apply (H h1 Hh1).
    + intros h1 w1 Hh1 Hw1. now apply (H h1 Hh1).
  - intros [[HH HW] H]. split; [exact HH|]. intros h1 Hh1.
    split; [now apply HW|]. intros w1 Hw1. now apply H.
Qed.

Lemma entries3_iff (x : tensor3 A) (W0 H1 W1 : nat)
      (g : nat -> nat -> nat -> A) :
  entries3 d x W0 H1 W1 g
  <-> shape3 x W0 H1 W1
      /\ forall w0 h1 w1,
          w0 < W0 -> h1 < H1 -> w1 < W1 -> get3 d x w0 h1 w1 = g w0 h1 w1.
Proof.
  unfold entries3, pointwise. split.
  - intros [HW H]. split.
    + split; [exact HW|]. apply Forall_nth. intros i dd Hi.
      rewrite (nth_indep _ dd []) by exact Hi.
      apply (entries2_iff _ _ _ (g i)), H.
      unfold tensor3, tensor2 in *. lia.
    + intros w0 h1 w1 Hw0 Hh1 Hw1.
      now apply (proj1 (entries2_iff _ _ _ _) (H w0 Hw0)).
  - intros [[HW HF] H]. split; [exact HW|]. intros w0 Hw0.
    apply entries2_iff. split.
    + rewrite Forall_nth in HF. apply HF.
      unfold tensor3, tensor2 in *. lia.
    + intros h1 w1. now apply H.
Qed.

Lemma entries4_iff (t : tensor4 A) (H0 W0 H1 W1 : nat)
      (g : nat -> nat -> nat -> nat -> A) :
  entries4 d t H0 W0 H1 W1 g
  <-> shape4 t H0 W0 H1 W1
      /\ forall h0 w0 h1 w1,
          h0 < H0 -> w0 < W0 -> h1 < H1 -> w1 < W1 ->
          get4 d t h0 w0 h1 w1 = g h0 w0 h1 w1.
Proof.
  unfold entries4, pointwise. split.
  - intros [HH H]. split.
    + split; [exact HH|]. apply Forall_nth. intros i dd Hi.
      rewrite (nth_indep _ dd []) by exact Hi.
      apply (entries3_iff _ _ _ _ (g i)), H.
      unfold tensor4, tensor3, tensor2 in *. lia.
    + intros h0 w0 h1 w1 Hh0 Hw0 Hh1 Hw1.
      now apply (proj1 (entries3_iff _ _ _ _ _) (H h0 Hh0)).
  - intros [[HH HF] H]. split; [exact HH|]. intros h0 Hh0.
    apply entries3_iff. split.
    + rewrite Forall_nth in HF. apply HF.
      unfold tensor4, tensor3, tensor2 in *. lia.
    + intros w0 h1 w1. now apply H.
Qed.

Lemma entries5_iff (m : tensor5 A) (N H0 W0 H1 W1 : nat)
      (g : nat -> nat -> nat -> nat -> nat -> A) :
  entries5 d m N H0 W0 H1 W1 g
  <-> shape5 m N H0 W0 H1 W1
      /\ forall n h0 w0 h1 w1,
          n < N -> h0 < H0 -> w0 < W0 -> h1 < H1 -> w1 < W1 ->
          get5 d m n h0 w0 h1 w1 = g n h0 w0 h1 w1.
Proof.
  unfold entries5, pointwise. split.
  - intros [HN H]. split.
    + split; [exact HN|]. apply Forall_nth. intros i dd Hi.
      rewrite (nth_indep _ dd []) by exact Hi.
      apply (entries4_iff _ _ _ _ _ (g i)), H.
      unfold tensor5, tensor4, tensor3, tensor2 in *. lia.
    + intros n h0 w0 h1 w1 Hn Hh0 Hw0 Hh1 Hw1.
      now apply (proj1 (entries4_iff _ _ _ _ _ _) (H n Hn)).
  - intros [[HN HF] H]. split; [exact HN|]. intros n Hn.
    apply entries4_iff. split.
    + rewrite Forall_nth in HF. apply HF.
      unfold tensor5, tensor4, tensor3, tensor2 in *. lia.
    + intros h0 w0 h1 w1. now apply H.
Qed.

End EntriesShape.

Section BorderSpec.
Context {A : Type} (d v : A).

Lemma in_slice_low (b : Z) (n i : nat) :
  (0 < b)%Z -> i < n ->
  in_slice n None (Some b) i = (Z.of_nat i <? b)%Z.
Proof.
  intros Hb Hi. unfold in_slice, norm_index.
  rewrite (proj2 (Z.ltb_ge b 0)) by lia. simpl (0 <=? i).
  destruct (Nat.ltb_spec i (Z.to_nat (Z.min b (Z.of_nat n)))),
    (Z.ltb_spec (Z.of_nat i) b); simpl; auto; lia.
Qed.

Lemma in_slice_high (b : Z) (n i : nat) :
  (0 < b)%Z -> i < n ->
  in_slice n (Some (- b)%Z) None i = (Z.of_nat n - b <=? Z.of_nat i)%Z.
Proof.
  intros Hb Hi. unfold in_slice, norm_index.
  rewrite (proj2 (Z.ltb_lt (- b) 0)) by lia.
  rewrite (proj2 (Nat.ltb_lt i n) Hi), andb_true_r.
  destruct (Nat.leb_spec (Z.to_nat (Z.max 0 (- b + Z.of_nat n))) i),
    (Z.leb_spec (Z.of_nat n - b) (Z.of_nat i)); auto; lia.
Qed.

Lemma in_slice_from (k : Z) (n i : nat) :
  i < n -> in_slice n (Some k) None i = (norm_index n k <=? i).
Proof.
  intros Hi. unfold in_slice.
  now rewrite (proj2 (Nat.ltb_lt i n) Hi), andb_true_r.
Qed.

(** An operation on every sample of the batch. *)
Lemma batch_map_entries (op : tensor4 A -> tensor4 A)
      (F : (nat -> nat -> nat -> nat -> A) -> nat -> nat -> nat -> nat -> A)
      (m : tensor5 A) (N H0 W0 H1 W1 : nat)
      (g : nat -> nat -> nat -> nat -> nat -> A) :
  (forall t g', entries4 d t H0 W0 H1 W1 g' ->
                entries4 d (op t) H0 W0 H1 W1 (F g')) ->
  entries5 d m N H0 W0 H1 W1 g ->
  entries5 d (map op m) N H0 W0 H1 W1 (fun n => F (g n)).
Proof.
  intros Hop. apply pointwise_map. intros n t _. apply Hop.
Qed.

(** The four slices at the start of the axes, common to both masks. *)
Lemma low_border_entries (m : tensor5 A) (b : Z) (N H0 W0 H1 W1 : nat)
      (g : nat -> nat -> nat -> nat -> nat -> A) :
  entries5 d m N H0 W0 H1 W1 g ->
  entries5 d
    (map (map (map (map (fill_slice None (Some b) (fun _ => v)))))
       (map (map (map (fill_slice None (Some b) (fill1 v))))
          (map (map (fill_slice None (Some b) (fill2 v)))
             (map (fill_slice None (Some b) (fill3 v)) m))))
    N H0 W0 H1 W1
    (fun n h0 w0 h1 w1 =>
       if in_slice W1 None (Some b) w1 then v
       else if in_slice H1 None (Some b) h1 then v
       else if in_slice W0 None (Some b) w0 then v
       else if in_slice H0 None (Some b) h0 then v
       else g n h0 w0 h1 w1).
Proof.
  intros H.
  apply (@batch_map_entries _ _ _ N H0 W0 H1 W1 _
           (fun t g' => @slice4_axis0 A d v None (Some b) t H0 W0 H1 W1 g'))
    in H.
  apply (@batch_map_entries _ _ _ N H0 W0 H1 W1 _
           (fun t g' => @slice4_axis1 A d v None (Some b) t H0 W0 H1 W1 g'))
    in H.
  apply (@batch_map_entries _ _ _ N H0 W0 H1 W1 _
           (fun t g' => @slice4_axis2 A d v None (Some b) t H0 W0 H1 W1 g'))
    in H.
  apply (@batch_map_entries _ _ _ N H0 W0 H1 W1 _
           (fun t g' => @slice4_axis3 A d v None (Some b) t H0 W0 H1 W1 g'))
    in H.
  exact H.
Qed.

End BorderSpec.

(** [X9] With a positive margin [b] the fixed-size border mask keeps the
    shape of the mask, writes [v] at every entry that has one of its four
    grid coordinates within [b] cells of either end of its axis, and leaves
    every other entry as it was. *)
Theorem mask_border_entries :
  forall (A : Type) (d v : A) (m : tensor5 A) (b : Z)
         (N H0 W0 H1 W1 : nat),
    (0 < b)%Z ->
    shape5 m N H0 W0 H1 W1 ->
    shape5 (mask_border m b v) N H0 W0 H1 W1
    /\ forall n h0 w0 h1 w1,
        n < N -> h0 < H0 -> w0 < W0 -> h1 < H1 -> w1 < W1 ->
        get5 d (mask_border m b v) n h0 w0 h1 w1
        = if near_border b H0 h0 || near_border b W0 w0
             || near_border b H1 h1 || near_border b W1 w1
          then v
          else get5 d m n h0 w0 h1 w1.
Proof.
  intros A d v m b N H0 W0 H1 W1 Hb Hshape.
  assert (H : entries5 d m N H0 W0 H1 W1 (get5 d m))
    by (apply entries5_iff; auto).
  apply (@low_border_entries A d v _ b) in H.
  apply (@batch_map_entries A d _ _ _ N H0 W0 H1 W1 _
           (fun t g' => @slice4_axis0 A d v (Some (- b)%Z) None t
                          H0 W0 H1 W1 g')) in H.
  apply (@batch_map_entries A d _ _ _ N H0 W0 H1 W1 _
           (fun t g' => @slice4_axis1 A d v (Some (- b)%Z) None t
                          H0 W0 H1 W1 g')) in H.
  apply (@batch_map_entries A d _ _ _ N H0 W0 H1 W1 _
           (fun t g' => @slice4_axis2 A d v (Some (- b)%Z) None t
                          H0 W0 H1 W1 g')) in H.
  apply (@batch_map_entries A d _ _ _ N H0 W0 H1 W1 _
           (fun t g' => @slice4_axis3 A d v (Some (- b)%Z) None t
                          H0 W0 H1 W1 g')) in H.
  apply entries5_iff in H as [Hs He].
  unfold mask_border. rewrite (proj2 (Z.leb_gt b 0) Hb). cbv beta iota zeta.
  split; [exact Hs|].
  intros n h0 w0 h1 w1 Hn Hh0 Hw0 Hh1 Hw1.
  refine (eq_trans (He n h0 w0 h1 w1 Hn Hh0 Hw0 Hh1 Hw1) _).
  rewrite !in_slice_low, !in_slice_high by assumption.
  unfold near_border.
  destruct (Z.of_nat h0 <? b)%Z, (Z.of_nat w0 <? b)%Z,
    (Z.of_nat h1 <? b)%Z, (Z.of_nat w1 <? b)%Z,
    (Z.of_nat H0 - b <=? Z.of_nat h0)%Z, (Z.of_nat W0 - b <=? Z.of_nat w0)%Z,
    (Z.of_nat H1 - b <=? Z.of_nat h1)%Z, (Z.of_nat W1 - b <=? Z.of_nat w1)%Z;
    reflexivity.
Qed.

Lemma mask_border_entries_witness :
  shape5 (mask_border Extra.full_grid 1 false) 1 3 3 3 3
  /\ forall n h0 w0 h1 w1,
      n < 1 -> h0 < 3 -> w0 < 3 -> h1 < 3 -> w1 < 3 ->
      get5 false (mask_border Extra.full_grid 1 false) n h0 w0 h1 w1
      = if near_border 1 3 h0 || near_border 1 3 w0
           || near_border 1 3 h1 || near_border 1 3 w1
        then false
        else get5 false Extra.full_grid n h0 w0 h1 w1.
Proof.
  apply (@mask_border_entries bool false false Extra.full_grid 1%Z 1 3 3 3 3).
  - lia.
  - vm_compute. repeat constructor.
Defined.

Section PerSample.
Context {X Y : Type} (dX : X) (dY : Y) (opY : Y -> X -> X).

Lemma update_nth_compose (f g : X -> X) (l : list X) :
  forall k, update_nth k f (update_nth k g l)
            = update_nth k (fun x => f (g x)) l.
Proof.
  induction l as [|x r IH]; intros k; simpl; [now destruct k|].
  destruct k; simpl; [reflexivity|]. now rewrite IH.
Qed.

Lemma fold_left_ext_eq {S E : Type} (f g : S -> E -> S) (l : list E) :
  (forall a e, f a e = g a e) ->
  forall a, fold_left f l a = fold_left g l a.
Proof.
  intros H. induction l as [|e r IH]; intros a; simpl; [reflexivity|].
  now rewrite H, IH.
Qed.

(** A loop that rewrites entry [k] of the batch with the [k]-th parameter. *)
Lemma fold_update_suffix (Q Q' : nat -> X -> Prop) (ys : list Y) (n : nat) :
  (forall i x, i < n -> Q i x -> Q' i (opY (nth i ys dY) x)) ->
  forall (ys' : list Y) (s : nat) (m : list X),
    (forall j, j < length ys' -> nth j ys' dY = nth (s + j) ys dY) ->
    s + length ys' = n ->
    pointwise dX (fun i x => if i <? s then Q' i x else Q i x) m n ->
    pointwise dX Q'
      (fold_left (fun m ky => update_nth (fst ky) (opY (snd ky)) m)
                 (combine (seq s (length ys')) ys') m)
      n.
Proof.
  intros Hop. induction ys' as [|y r IH]; intros s m Hys Hlen Hm; simpl.
  - simpl in Hlen. eapply pointwise_impl; [|exact Hm].
    intros i x Hi. cbv beta.
    now rewrite (proj2 (Nat.ltb_lt i s)) by lia.
  - simpl in Hlen. apply IH.
    + intros j Hj. specialize (Hys (Datatypes.S j)). simpl in Hys.
      rewrite Hys by lia. f_equal. lia.
    + lia.
    + destruct Hm as [Hn Hm]. split; [now rewrite update_nth_length|].
      intros i Hi. rewrite (nth_update_nth _ dX). specialize (Hm i Hi).
      cbv beta in Hm. simpl fst. simpl snd.
      destruct (Nat.eqb_spec i s) as [->|Hne].
      * rewrite (proj2 (Nat.ltb_lt s (length m))) by lia. simpl andb.
        cbv iota. rewrite (proj2 (Nat.ltb_lt s (Datatypes.S s))) by lia.
        rewrite Nat.ltb_irrefl in Hm.
        specialize (Hys 0). simpl in Hys. rewrite Nat.add_0_r in Hys.
        rewrite Hys by lia. now apply Hop.
      * simpl andb. cbv iota.
        destruct (Nat.ltb_spec i s), (Nat.ltb_spec i (Datatypes.S s));
          auto; lia.
Qed.

Lemma fold_update_pointwise (Q Q' : nat -> X -> Prop) (ys : list Y) (n : nat)
      (m : list X) :
  length ys = n ->
  (forall i x, i < n -> Q i x -> Q' i (opY (nth i ys dY) x)) ->
  pointwise dX Q m n ->
  pointwise dX Q'
    (fold_left (fun m ky => update_nth (fst ky) (opY (snd ky)) m)
               (combine (seq 0 n) ys) m)
    n.
Proof.
  intros Hlen Hop Hm. rewrite <- Hlen at 1.
  apply (@fold_update_suffix Q Q' ys n Hop ys 0 m); auto.
Qed.

End PerSample.

Section PaddedBorderSpec.
Context {A : Type} (d v : A).

Lemma mask_border_with_padding_unfold (m : tensor5 A) (bd : Z)
      (p_m0 p_m1 : tensor3 bool) :
  (0 < bd)%Z ->
  mask_border_with_padding m bd v p_m0 p_m1
  = fold_left
      (fun m ky => update_nth (fst ky) (far_border_fill bd v (snd ky)) m)
      (combine (seq 0 (length (map max_col_sum p_m0)))
               (combine (combine (combine (map max_col_sum p_m0)
                                          (map max_row_sum p_m0))
                                 (map max_col_sum p_m1))
                        (map max_row_sum p_m1)))
      (map (map (map (map (fill_slice None (Some bd) (fun _ => v)))))
         (map (map (map (fill_slice None (Some bd) (fill1 v))))
            (map (map (fill_slice None (Some bd) (fill2 v)))
               (map (fill_slice None (Some bd) (fill3 v)) m)))).
Proof.
  intros Hbd. unfold mask_border_with_padding.
  rewrite (proj2 (Z.leb_gt bd 0) Hbd). cbv beta iota zeta.
  apply fold_left_ext_eq. intros a [k [[[h0 w0] h1] w1]].
  unfold far_border_fill. simpl fst. simpl snd. cbv beta iota zeta.
  now rewrite !update_nth_compose.
Qed.

Lemma far_border_fill_entries (bd : Z) (sizes : nat * nat * nat * nat)
      (t : tensor4 A) (H0 W0 H1 W1 : nat)
      (g : nat -> nat -> nat -> nat -> A) :
  entries4 d t H0 W0 H1 W1 g ->
  entries4 d (far_border_fill bd v sizes t) H0 W0 H1 W1
    (fun h0 w0 h1 w1 =>
       let '(vh0, vw0, vh1, vw1) := sizes in
       if in_slice W1 (Some (Z.of_nat vw1 - bd)%Z) None w1 then v
       else if in_slice H1 (Some (Z.of_nat vh1 - bd)%Z) None h1 then v
       else if in_slice W0 (Some (Z.of_nat vw0 - bd)%Z) None w0 then v
       else if in_slice H0 (Some (Z.of_nat vh0 - bd)%Z) None h0 then v
       else g h0 w0 h1 w1).
Proof.
  destruct sizes as [[[vh0 vw0] vh1] vw1]. intros H.
  unfold far_border_fill. cbv beta iota zeta.
  apply (@slice4_axis0 A d v (Some (Z.of_nat vh0 - bd)%Z) None) in H.
  apply (@slice4_axis1 A d v (Some (Z.of_nat vw0 - bd)%Z) None) in H.
  apply (@slice4_axis2 A d v (Some (Z.of_nat vh1 - bd)%Z) None) in H.
  apply (@slice4_axis3 A d v (Some (Z.of_nat vw1 - bd)%Z) None) in H.
  exact H.
Qed.

Lemma nth_sizes (h0s w0s h1s w1s : list nat) (N n : nat) :
  length h0s = N -> length w0s = N -> length h1s = N -> length w1s = N ->
  nth n (combine (combine (combine h0s w0s) h1s) w1s) (0, 0, 0, 0)
  = (nth n h0s 0, nth n w0s 0, nth n h1s 0, nth n w1s 0).
Proof.
  intros E0 E1 E2 E3.
  rewrite combine_nth by (rewrite !length_combine; lia).
  rewrite combine_nth by (rewrite !length_combine; lia).
  rewrite combine_nth by lia. reflexivity.
Qed.

Lemma padded_fold_entries (bd : Z) (ys : list (nat * nat * nat * nat))
      (m : tensor5 A) (N H0 W0 H1 W1 : nat)
      (g : nat -> nat -> nat -> nat -> nat -> A) :
  length ys = N ->
  entries5 d m N H0 W0 H1 W1 g ->
  entries5 d
    (fold_left
       (fun m ky => update_nth (fst ky) (far_border_fill bd v (snd ky)) m)
       (combine (seq 0 N) ys) m)
    N H0 W0 H1 W1
    (fun n h0 w0 h1 w1 =>
       let '(vh0, vw0, vh1, vw1) := nth n ys (0, 0, 0, 0) in
       if in_slice W1 (Some (Z.of_nat vw1 - bd)%Z) None w1 then v
       else if in_slice H1 (Some (Z.of_nat vh1 - bd)%Z) None h1 then v
       else if in_slice W0 (Some (Z.of_nat vw0 - bd)%Z) None w0 then v
       else if in_slice H0 (Some (Z.of_nat vh0 - bd)%Z) None h0 then v
       else g n h0 w0 h1 w1).
Proof.
  intros Hys H. unfold entries5 in *.
  apply fold_update_pointwise
    with (dY := (0, 0, 0, 0))
         (Q := fun n t => entries4 d t H0 W0 H1 W1 (g n)); auto.
  intros i t _ Ht. now apply far_border_fill_entries.
Qed.

End PaddedBorderSpec.

(** [X10] With a positive margin [bd] and one padding mask per sample and
    image, the padding-aware border mask keeps the shape of the mask and
    writes [v] exactly at the entries that have a grid coordinate below [bd]
    or at or after the slice bound [valid - bd] of its axis, where [valid] is
    the sample's largest column sum (heights) or row sum (widths) of the
    padding mask; a negative bound counts from the end of the axis, as a
    Python slice start does.  Every other entry is unchanged. *)
Theorem mask_border_with_padding_entries :
  forall (A : Type) (d v : A) (m : tensor5 A) (bd : Z)
         (p_m0 p_m1 : tensor3 bool) (N H0 W0 H1 W1 : nat),
    (0 < bd)%Z ->
    shape5 m N H0 W0 H1 W1 ->
    length p_m0 = N ->
    length p_m1 = N ->
    shape5 (mask_border_with_padding m bd v p_m0 p_m1) N H0 W0 H1 W1
    /\ forall n h0 w0 h1 w1,
        n < N -> h0 < H0 -> w0 < W0 -> h1 < H1 -> w1 < W1 ->
        get5 d (mask_border_with_padding m bd v p_m0 p_m1) n h0 w0 h1 w1
        = if near_padded_border bd H0 (max_col_sum (nth n p_m0 [])) h0
             || near_padded_border bd W0 (max_row_sum (nth n p_m0 [])) w0
             || near_padded_border bd H1 (max_col_sum (nth n p_m1 [])) h1
             || near_padded_border bd W1 (max_row_sum (nth n p_m1 [])) w1
          then v
          else get5 d m n h0 w0 h1 w1.
Proof.
  intros A d v m bd p_m0 p_m1 N H0 W0 H1 W1 Hbd Hshape Hp0 Hp1.
  assert (H : entries5 d m N H0 W0 H1 W1 (get5 d m))
    by (apply entries5_iff; auto).
  apply (@low_border_entries A d v _ bd) in H.
  rewrite (mask_border_with_padding_unfold v m p_m0 p_m1 Hbd).
  replace (length (map max_col_sum p_m0)) with N
    by (rewrite length_map; exact (eq_sym Hp0)).
  set (ys := combine (combine (combine (map max_col_sum p_m0)
                                       (map max_row_sum p_m0))
                              (map max_col_sum p_m1))
                     (map max_row_sum p_m1)).
  assert (Hys : length ys = N)
    by (unfold ys; rewrite !length_combine, !length_map;
        unfold tensor3, tensor2 in *; lia).
  pose proof (@padded_fold_entries A d v bd ys _ N H0 W0 H1 W1 _ Hys H)
    as Hfold.
  apply (proj1 (entries5_iff d _ N H0 W0 H1 W1 _)) in Hfold
    as [Hs He].
  split; [exact Hs|].
  intros n h0 w0 h1 w1 Hn Hh0 Hw0 Hh1 Hw1.
  refine (eq_trans (He n h0 w0 h1 w1 Hn Hh0 Hw0 Hh1 Hw1) _).
  unfold ys.
  assert (Hn0 : n < length p_m0) by (unfold tensor3, tensor2 in *; lia).
  assert (Hn1 : n < length p_m1) by (unfold tensor3, tensor2 in *; lia).
  rewrite (@nth_sizes _ _ _ _ N n)
    by (rewrite length_map; unfold tensor3, tensor2 in *; lia).
  rewrite (@nth_map_in_range _ _ max_col_sum p_m0 n [] 0 Hn0).
  rewrite (@nth_map_in_range _ _ max_row_sum p_m0 n [] 0 Hn0).
  rewrite (@nth_map_in_range _ _ max_col_sum p_m1 n [] 0 Hn1).
  rewrite (@nth_map_in_range _ _ max_row_sum p_m1 n [] 0 Hn1).
  cbv beta iota zeta.
  rewrite !in_slice_low, !in_slice_from by assumption.
  unfold near_padded_border.
  unfold tensor3, tensor2 in *.
  destruct (Z.of_nat h0 <? bd)%Z, (Z.of_nat w0 <? bd)%Z,
    (Z.of_nat h1 <? bd)%Z, (Z.of_nat w1 <? bd)%Z,
    (norm_index H0 (Z.of_nat (max_col_sum (nth n p_m0 [])) - bd) <=? h0),
    (norm_index W0 (Z.of_nat (max_row_sum (nth n p_m0 [])) - bd) <=? w0),
    (norm_index H1 (Z.of_nat (max_col_sum (nth n p_m1 [])) - bd) <=? h1),
    (norm_index W1 (Z.of_nat (max_row_sum (nth n p_m1 [])) - bd) <=? w1);
    reflexivity.
Qed.

Lemma mask_border_with_padding_entries_witness :
  shape5 (mask_border_with_padding Extra.full_grid 1 false
            Extra.pad_full Extra.pad_two_rows) 1 3 3 3 3
  /\ forall n h0 w0 h1 w1,
      n < 1 -> h0 < 3 -> w0 < 3 -> h1 < 3 -> w1 < 3 ->
      get5 false
           (mask_border_with_padding Extra.full_grid 1 false
              Extra.pad_full Extra.pad_two_rows) n h0 w0 h1 w1
      = if near_padded_border 1 3
             (max_col_sum (nth n Extra.pad_full [])) h0
           || near_padded_border 1 3
                (max_row_sum (nth n Extra.pad_full [])) w0
           || near_padded_border 1 3
                (max_col_sum (nth n Extra.pad_two_rows [])) h1
           || near_padded_border 1 3
                (max_row_sum (nth n Extra.pad_two_rows [])) w1
        then false
        else get5 false Extra.full_grid n h0 w0 h1 w1.
Proof.
  apply (@mask_border_with_padding_entries bool false false Extra.full_grid
           1%Z Extra.pad_full Extra.pad_two_rows 1 3 3 3 3).
  - lia.
  - vm_compute. repeat constructor.
  - reflexivity.
  - reflexivity.
Defined.

(** On 3 x 3 grids with margin 1, image 0 fully valid and image 1 valid on
    its first two rows: in image 1 the near bound removes row 0 and the far
    bound, at row 2 - 1, removes rows 1 and 2, so no pair is left. *)
Example padded_border_removes_all :
  reshape3 9 9
    (mask_border_with_padding Extra.full_grid 1 false
       Extra.pad_full Extra.pad_two_rows)
  = [repeat (repeat false 9) 9].
Proof. vm_compute. reflexivity. Qed.

(** ** Valid sizes and the candidate bound *)

Section ValidSizes.

Lemma count_true_app (l1 l2 : list bool) :
  count_true (l1 ++ l2) = count_true l1 + count_true l2.
Proof. unfold count_true. now rewrite filter_app, length_app. Qed.

Lemma count_true_le (l : list bool) : count_true l <= length l.
Proof.
  unfold count_true. induction l as [|x r IH]; simpl; [lia|].
  destruct x; simpl; lia.
Qed.

Lemma count_ltb_seq (h : nat) (c : bool) (n : nat) :
  count_true (map (fun i => (i <? h) && c) (seq 0 n))
  = if c then Nat.min h n else 0.
Proof.
  induction n as [|n IH].
  - simpl. destruct c; [now rewrite Nat.min_0_r | reflexivity].
  - rewrite seq_S, map_app, count_true_app, IH. simpl.
    unfold count_true. simpl.
    destruct c; [|now rewrite andb_false_r].
    rewrite andb_true_r. destruct (Nat.ltb_spec n h); simpl; lia.
Qed.

Lemma list_max_ge (l : list nat) (x : nat) : In x l -> x <= list_max l.
Proof.
  intros Hx.
  assert (H : Forall (fun k => k <= list_max l) l)
    by (apply list_max_le; lia).
  rewrite Forall_forall in H. now apply H.
Qed.

Lemma list_max_attained (l : list nat) (c : nat) :
  (forall x, In x l -> x <= c) -> In c l -> list_max l = c.
Proof.
  intros Hle Hin. apply Nat.le_antisymm.
  - apply list_max_le, Forall_forall, Hle.
  - now apply list_max_ge.
Qed.

Lemma rect_mask_row_sum (H W h w i : nat) :
  w <= W -> i < H ->
  count_true (nth i (rect_mask H W h w) []) = if i <? h then w else 0.
Proof.
  intros Hw Hi. unfold rect_mask.
  rewrite (@nth_map_in_range _ _ _ (seq 0 H) i 0 [])
    by now rewrite length_seq.
  rewrite seq_nth by exact Hi. simpl (0 + i).
  rewrite (map_ext _ (fun j => (j <? w) && (i <? h)))
    by (intros j; apply andb_comm).
  rewrite count_ltb_seq. destruct (i <? h); [lia | reflexivity].
Qed.

Lemma rect_mask_col_sum (H W h w j : nat) :
  h <= H -> j < W ->
  count_true (map (fun row => nth j row false) (rect_mask H W h w))
  = if j <? w then h else 0.
Proof.
  intros Hh Hj. unfold rect_mask. rewrite map_map.
  rewrite (map_ext_in _ (fun i => (i <? h) && (j <? w))).
  - rewrite count_ltb_seq. destruct (j <? w); [lia | reflexivity].
  - intros i _.
    rewrite (@nth_map_in_range _ _ _ (seq 0 W) j 0 false)
      by now rewrite length_seq.
    now rewrite seq_nth by exact Hj.
Qed.

End ValidSizes.

Lemma rect_mask_sizes :
  forall H W h w : nat,
    0 < h -> h <= H -> 0 < w -> w <= W ->
    max_col_sum (rect_mask H W h w) = h
    /\ max_row_sum (rect_mask H W h w) = w.
Proof.
  intros H W h w Hh0 Hh Hw0 Hw.
  assert (Hlen : length (rect_mask H W h w) = H)
    by (unfold rect_mask; now rewrite length_map, length_seq).
  split.
  - unfold max_col_sum.
    assert (Hwidth : width (rect_mask H W h w) = W).
    { unfold rect_mask. destruct H as [|H']; [lia|].
      simpl. now rewrite length_map, length_seq. }
    rewrite Hwidth. apply list_max_attained.
    + intros x Hx. apply in_map_iff in Hx as [j [<- Hj]].
      apply in_seq in Hj. rewrite rect_mask_col_sum by lia.
      destruct (j <? w); lia.
    + apply in_map_iff. exists 0. split; [|apply in_seq; lia].
      rewrite rect_mask_col_sum by lia.
      now rewrite (proj2 (Nat.ltb_lt 0 w) Hw0).
  - unfold max_row_sum. apply list_max_attained.
    + intros x Hx. apply in_map_iff in Hx as [row [<- Hrow]].
      destruct (In_nth _ _ [] Hrow) as [i [Hi <-]].
      rewrite rect_mask_row_sum by lia. destruct (i <? h); lia.
    + apply in_map_iff. exists (nth 0 (rect_mask H W h w) []). split.
      * rewrite rect_mask_row_sum by lia.
        now rewrite (proj2 (Nat.ltb_lt 0 h) Hh0).
      * apply nth_In. lia.
Qed.

(** [X11] For a padding mask whose valid region is the top-left [h x w]
    rectangle of an [H x W] grid, the sizes that both
    [compute_max_candidates] and [mask_border_with_padding] derive from the
    mask (largest column sum, largest row sum) are the height [h] and the
    width [w] of the region. *)
Theorem valid_sizes_of_rectangle :
  forall H W h w : nat,
    0 < h -> h <= H -> 0 < w -> w <= W ->
    max_col_sum (rect_mask H W h w) = h
    /\ max_row_sum (rect_mask H W h w) = w.
Proof. intros H W h w. apply rect_mask_sizes. Qed.

Lemma valid_sizes_of_rectangle_witness :
  max_col_sum (rect_mask 3 3 2 3) = 2 /\ max_row_sum (rect_mask 3 3 2 3) = 3.
Proof.
  apply (@valid_sizes_of_rectangle 3 3 2 3); lia.
Defined.

Section CandidateBound.

Lemma max_col_sum_le (p : tensor2 bool) (H W : nat) :
  shape2 p H W -> max_col_sum p <= H.
Proof.
  intros [HH _]. unfold max_col_sum. apply list_max_le, Forall_map.
  apply Forall_forall. intros j _.
  etransitivity; [apply count_true_le|]. now rewrite length_map, HH.
Qed.

Lemma max_row_sum_le (p : tensor2 bool) (H W : nat) :
  shape2 p H W -> max_row_sum p <= W.
Proof.
  intros [_ HW]. unfold max_row_sum. apply list_max_le, Forall_map.
  eapply Forall_impl; [|exact HW]. intros row <-. apply count_true_le.
Qed.

Lemma list_sum_bound (l : list nat) (c : nat) :
  Forall (fun x => x <= c) l -> list_sum l <= length l * c.
Proof. induction 1; simpl; lia. Qed.

Lemma areas_bound (p : tensor3 bool) (N H W : nat) :
  shape3 p N H W ->
  Forall (fun a => a <= H * W)
         (zip_with Nat.mul (map max_col_sum p) (map max_row_sum p)).
Proof.
  intros [_ Hp].
  apply (@Forall_zip_with _ _ _ (fun h => h <= H) (fun w => w <= W)).
  - intros a b Ha Hb. now apply Nat.mul_le_mono.
  - apply Forall_map. eapply Forall_impl; [|exact Hp].
    intros x Hx. now apply max_col_sum_le with (W := W).
  - apply Forall_map. eapply Forall_impl; [|exact Hp].
    intros x Hx. now apply max_row_sum_le with (H := H).
Qed.

End CandidateBound.

(** [X12] The candidate bound never exceeds the number of cell pairs that
    the smaller grid allows: for [N] samples of padding masks of shapes
    [H0 x W0] and [H1 x W1] it is at most [N * min (H0 * W0) (H1 * W1)]. *)
Theorem compute_max_candidates_bound :
  forall (p_m0 p_m1 : tensor3 bool) (N H0 W0 H1 W1 : nat),
    shape3 p_m0 N H0 W0 ->
    shape3 p_m1 N H1 W1 ->
    compute_max_candidates p_m0 p_m1 <= N * Nat.min (H0 * W0) (H1 * W1).
Proof.
  intros p_m0 p_m1 N H0 W0 H1 W1 Hp0 Hp1. unfold compute_max_candidates.
  pose proof (areas_bound Hp0) as Ha0. pose proof (areas_bound Hp1) as Ha1.
  destruct Hp0 as [HN0 _], Hp1 as [HN1 _].
  set (a0 := zip_with Nat.mul (map max_col_sum p_m0) (map max_row_sum p_m0))
    in *.
  set (a1 := zip_with Nat.mul (map max_col_sum p_m1) (map max_row_sum p_m1))
    in *.
  assert (Hlen : length (zip_with Nat.min a0 a1) = N).
  { unfold a0, a1. rewrite !zip_with_length, !length_map.
    unfold tensor3, tensor2 in *. lia. }
  rewrite <- Hlen. apply list_sum_bound.
  apply (@Forall_zip_with _ _ _ (fun a => a <= H0 * W0)
           (fun a => a <= H1 * W1)); auto.
  intros a b Ha Hb. lia.
Qed.

Lemma compute_max_candidates_bound_witness :
  compute_max_candidates Extra.pad_full Extra.pad_two_rows
  <= 1 * Nat.min (3 * 3) (3 * 3).
Proof.
  apply (@compute_max_candidates_bound Extra.pad_full Extra.pad_two_rows
           1 3 3 3 3); vm_compute; repeat constructor.
Defined.

(** [X13] When every padding mask is a top-left rectangle of valid cells,
    the candidate bound is the sum over the batch of the smaller of the two
    valid areas of each sample. *)
Theorem compute_max_candidates_rectangles :
  forall (sizes0 sizes1 : list (nat * nat)) (H0 W0 H1 W1 : nat),
    Forall (fun s => 0 < fst s <= H0 /\ 0 < snd s <= W0) sizes0 ->
    Forall (fun s => 0 < fst s <= H1 /\ 0 < snd s <= W1) sizes1 ->
    compute_max_candidates
      (map (fun s => rect_mask H0 W0 (fst s) (snd s)) sizes0)
      (map (fun s => rect_mask H1 W1 (fst s) (snd s)) sizes1)
    = list_sum (zip_with (fun s0 s1 =>
                            Nat.min (fst s0 * snd s0) (fst s1 * snd s1))
                         sizes0 sizes1).
Proof.
  intros sizes0 sizes1 H0 W0 H1 W1 Hs0 Hs1. unfold compute_max_candidates.
  assert (Harea : forall (sizes : list (nat * nat)) (H W : nat),
             Forall (fun s => 0 < fst s <= H /\ 0 < snd s <= W) sizes ->
             zip_with Nat.mul
               (map max_col_sum
                    (map (fun s => rect_mask H W (fst s) (snd s)) sizes))
               (map max_row_sum
                    (map (fun s => rect_mask H W (fst s) (snd s)) sizes))
             = map (fun s => fst s * snd s) sizes).
  { intros sizes H W Hs. unfold zip_with. rewrite !map_map.
    rewrite combine_map_same, map_map.
    apply map_ext_in. intros s Hin. rewrite Forall_forall in Hs.
    destruct (Hs s Hin) as [[Hh0 Hh] [Hw0 Hw]].
    destruct (rect_mask_sizes Hh0 Hh Hw0 Hw) as [-> ->]. reflexivity. }
  rewrite (Harea sizes0 H0 W0 Hs0), (Harea sizes1 H1 W1 Hs1).
  f_equal. unfold zip_with. clear.
  revert sizes1. induction sizes0 as [|s0 r0 IH]; intros [|s1 r1]; simpl;
    try reflexivity.
  now rewrite IH.
Qed.

Lemma compute_max_candidates_rectangles_witness :
  compute_max_candidates
    (map (fun s => rect_mask 3 3 (fst s) (snd s)) [(3, 3); (2, 2)])
    (map (fun s => rect_mask 3 4 (fst s) (snd s)) [(2, 4); (3, 4)])
  = list_sum (zip_with (fun s0 s1 =>
                          Nat.min (fst s0 * snd s0) (fst s1 * snd s1))
                       [(3, 3); (2, 2)] [(2, 4); (3, 4)]).
Proof.
  apply (@compute_max_candidates_rectangles [(3, 3); (2, 2)]
           [(2, 4); (3, 4)] 3 3 3 4).
  - repeat constructor.
  - repeat constructor.
Defined.

(** ** Normalisation of the confidence matrix *)

Section Normalisation.
Open Scope R_scope.

Lemma sum_R_div {K : Type} (f : K -> R) (c : R) (l : list K) :
  sum_R (map (fun k => f k / c) l) = sum_R (map f l) / c.
Proof.
  induction l as [|k r IH]; simpl; [unfold Rdiv; ring|].
  rewrite IH. unfold Rdiv. ring.
Qed.

Lemma sum_R_le {K : Type} (f g : K -> R) (l : list K) :
  (forall k, In k l -> f k <= g k) ->
  sum_R (map f l) <= sum_R (map g l).
Proof.
  induction l as [|k r IH]; intros H; simpl; [lra|].
  assert (f k <= g k) by (apply H; now left).
  assert (sum_R (map f r) <= sum_R (map g r))
    by (apply IH; intros k' Hk'; apply H; now right).
  lra.
Qed.

Lemma sum_exp_pos {K : Type} (f : K -> R) (l : list K) :
  l <> [] -> 0 < sum_R (map (fun k => exp (f k)) l).
Proof.
  intros Hl. destruct l as [|k r]; [congruence|]. simpl.
  pose proof (exp_pos (f k)).
  assert (0 <= sum_R (map (fun k => exp (f k)) r)).
  { refine (proj1 (sum_R_ge_member _ _)). intros y Hy.
    apply in_map_iff in Hy as [x [<- _]]. left. apply exp_pos. }
  lra.
Qed.

Lemma normalised_sum {K : Type} (f : K -> R) (l : list K) :
  l <> [] ->
  sum_R (map (fun k => exp (f k) / sum_R (map (fun k' => exp (f k')) l)) l)
  = 1.
Proof.
  intros Hl. rewrite (sum_R_div (fun k => exp (f k))).
  pose proof (sum_exp_pos f Hl). field. lra.
Qed.

Lemma seq_nonempty (n : nat) : (0 < n)%nat -> seq 0 n <> [].
Proof. destruct n; [lia | discriminate]. Qed.

Lemma softmax_dim2_row_sum (t : tensor3 R) (N L S n l : nat) :
  shape3 t N L S -> (0 < S)%nat -> (n < N)%nat -> (l < L)%nat ->
  row_sum (softmax_dim2 t) S n l = 1.
Proof.
  intros Ht HS Hn Hl. unfold row_sum.
  rewrite (map_ext_in _
             (fun s => exp (get3 0 t n l s)
                       / sum_R (map (fun s' => exp (get3 0 t n l s'))
                                    (seq 0 S)))).
  - apply (normalised_sum (fun s => get3 0 t n l s)), seq_nonempty, HS.
  - intros s Hs. apply in_seq in Hs.
    apply (softmax_dim2_entry Ht Hn Hl). lia.
Qed.

Lemma softmax_dim1_col_sum (t : tensor3 R) (N L S n s : nat) :
  shape3 t N L S -> (0 < L)%nat -> (n < N)%nat -> (s < S)%nat ->
  col_sum (softmax_dim1 t) L n s = 1.
Proof.
  intros Ht HL Hn Hs. unfold col_sum.
  rewrite (map_ext_in _
             (fun l => exp (get3 0 t n l s)
                       / sum_R (map (fun l' => exp (get3 0 t n l' s))
                                    (seq 0 L)))).
  - apply (normalised_sum (fun l => get3 0 t n l s)), seq_nonempty, HL.
  - intros l Hl. apply in_seq in Hl.
    apply (softmax_dim1_entry Ht Hn); [lia | exact Hs].
Qed.

Lemma unit_entry (t : tensor3 R) (N L S n l s : nat) :
  Forall (Forall (Forall unit_interval)) t ->
  shape3 t N L S -> (n < N)%nat -> (l < L)%nat -> (s < S)%nat ->
  0 <= get3 0 t n l s <= 1.
Proof.
  intros Hu Ht Hn Hl Hs. apply shape3_iff in Ht as [HN H].
  destruct (H n Hn) as [HL HS]. specialize (HS l Hl). unfold get3.
  rewrite Forall_forall in Hu.
  assert (H1 : Forall (Forall unit_interval) (nth n t []))
    by (apply Hu, nth_In; unfold tensor3, tensor2 in *; lia).
  rewrite Forall_forall in H1.
  assert (H2 : Forall unit_interval (nth l (nth n t []) []))
    by (apply H1, nth_In; unfold tensor3, tensor2 in *; lia).
  rewrite Forall_forall in H2. apply H2, nth_In. lia.
Qed.

Lemma dual_softmax_sums (t : tensor3 R) (N L S : nat) :
  shape3 t N L S ->
  (forall n l, (n < N)%nat -> (l < L)%nat ->
               row_sum (tmul (softmax_dim1 t) (softmax_dim2 t)) S n l <= 1)
  /\ (forall n s, (n < N)%nat -> (s < S)%nat ->
                  col_sum (tmul (softmax_dim1 t) (softmax_dim2 t)) L n s
                  <= 1).
Proof.
  intros Ht.
  pose proof (softmax_dim1_shape Ht) as H1.
  pose proof (softmax_dim2_shape Ht) as H2.
  split.
  - intros n l Hn Hl. destruct S as [|S'].
    + unfold row_sum. simpl. lra.
    + rewrite <- (softmax_dim2_row_sum (l := l) Ht (Nat.lt_0_succ S') Hn Hl).
      unfold row_sum. apply sum_R_le. intros s Hs. apply in_seq in Hs.
      unfold tmul.
      rewrite (zip3_entry Rmult 0 0 0 H1 H2 Hn Hl) by lia.
      pose proof (unit_entry (softmax_dim1_unit t) H1 Hn Hl
                    (s := s) ltac:(lia)).
      pose proof (unit_entry (softmax_dim2_unit t) H2 Hn Hl
                    (s := s) ltac:(lia)).
      nra.
  - intros n s Hn Hs. destruct L as [|L'].
    + unfold col_sum. simpl. lra.
    + rewrite <- (softmax_dim1_col_sum (s := s) Ht (Nat.lt_0_succ L') Hn Hs).
      unfold col_sum. apply sum_R_le. intros l Hl. apply in_seq in Hl.
      unfold tmul.
      rewrite (zip3_entry Rmult 0 0 0 H1 H2 Hn (l := l) ltac:(lia) Hs).
      pose proof (unit_entry (softmax_dim1_unit t) H1 Hn
                    (l := l) ltac:(lia) Hs).
      pose proof (unit_entry (softmax_dim2_unit t) H2 Hn
                    (l := l) ltac:(lia) Hs).
      nra.
Qed.

End Normalisation.

(** [X14] Each softmax factor is normalised over its own axis: the entries
    of [F.softmax(t, 2)] sum to 1 over the cells of image 1, and the entries
    of [F.softmax(t, 1)] sum to 1 over the cells of image 0 (in exact
    arithmetic, for non-empty axes). *)
Theorem softmax_factors_normalised :
  forall (t : tensor3 R) (N L S : nat),
    shape3 t N L S -> 0 < L -> 0 < S ->
    (forall n l, n < N -> l < L -> row_sum (softmax_dim2 t) S n l = 1%R)
    /\ (forall n s, n < N -> s < S -> col_sum (softmax_dim1 t) L n s = 1%R).
Proof.
  intros t N L S Ht HL HS. split.
  - intros n l Hn Hl. now apply softmax_dim2_row_sum with (N := N) (L := L).
  - intros n s Hn Hs. now apply softmax_dim1_col_sum with (N := N) (S := S).
Qed.

Lemma softmax_factors_normalised_witness :
  (forall n l, n < 1 -> l < 1 ->
               row_sum (softmax_dim2 Sample.feat) 2 n l = 1%R)
  /\ (forall n s, n < 1 -> s < 2 ->
                  col_sum (softmax_dim1 Sample.feat) 1 n s = 1%R).
Proof.
  apply (@softmax_factors_normalised Sample.feat 1 1 2).
  - repeat constructor.
  - lia.
  - lia.
Defined.

(** [X15] The confidence matrix is not a joint distribution but it is
    bounded by one: for every cell of image 0 the confidences over the cells
    of image 1 sum to at most 1, and for every cell of image 1 the
    confidences over the cells of image 0 sum to at most 1. *)
Theorem confidence_sums_at_most_one :
  forall (self : CoarseMatching R) (feat_c0 feat_c1 : tensor3 R)
         (masks : option (tensor2 bool * tensor2 bool))
         (N L S C : nat) (conf : tensor3 R),
    shape3 feat_c0 N L C ->
    shape3 feat_c1 N S C ->
    match masks with
    | Some (mask_c0, mask_c1) => shape2 mask_c0 N L /\ shape2 mask_c1 N S
    | None => True
    end ->
    confidence self feat_c0 feat_c1 (option_map fst masks)
               (option_map snd masks) = inr conf ->
    (forall n l, n < N -> l < L -> (row_sum conf S n l <= 1)%R)
    /\ (forall n s, n < N -> s < S -> (col_sum conf L n s <= 1)%R).
Proof.
  intros self feat_c0 feat_c1 masks N L S C conf Hf0 Hf1 Hmasks Hconf.
  unfold confidence in Hconf.
  destruct (temperature self) as [temp|]; [|discriminate].
  destruct masks as [[mask_c0 mask_c1]|]; simpl in Hconf;
    injection Hconf as <-; apply dual_softmax_sums.
  - destruct Hmasks. now apply mask_invalid_shape with (C := C).
  - now apply similarity_shape with (C := C).
Qed.

Lemma confidence_sums_at_most_one_witness :
  exists conf,
    confidence Sample.matcher_R Extra.feat_a Extra.feat_b
               (Some Extra.valid_a) (Some Extra.valid_b) = inr conf
    /\ (forall n l, n < 1 -> l < 2 -> (row_sum conf 2 n l <= 1)%R)
    /\ (forall n s, n < 1 -> s < 2 -> (col_sum conf 2 n s <= 1)%R).
Proof.
  eexists. split; [reflexivity|].
  apply (@confidence_sums_at_most_one Sample.matcher_R Extra.feat_a
           Extra.feat_b (Some (Extra.valid_a, Extra.valid_b)) 1 2 2 2).
  - repeat constructor.
  - repeat constructor.
  - split; repeat constructor.
  - reflexivity.
Defined.

(** ** One partner per image-1 cell, up to ties *)

Section ColumnPartners.
Context {T : Type} {ST : Scalar T} {SO : ScalarOrder T}.

(** What the mutual-nearest filter leaves of a genuine match. *)
Lemma genuine_match_facts (self : CoarseMatching T) (conf : tensor3 T)
      (data : Data T) (N : nat) :
  border_rm self = 0%Z ->
  shape3 conf N (fst (hw0_c data) * snd (hw0_c data))
         (fst (hw1_c data) * snd (hw1_c data)) ->
  (mask0 data <> None -> mask1 data <> None) ->
  exists mask cm,
    filtered_mask self conf data = inr mask
    /\ get_coarse_match self conf data = inr cm
    /\ forall b i j c,
        In (b, i, j, c) (matches cm) ->
        genuine data mask b ->
        i < length (nth b conf [])
        /\ c = get3 szero conf b i j
        /\ seqb c (smax_list (column szero (nth b conf []) j)) = true.
Proof.
  intros Hb0 Hshape Hkeys.
  pose proof (@candidate_mask_no_border T ST self conf data N Hb0 Hshape Hkeys)
    as Hcand.
  assert (Hm : filtered_mask self conf data
               = inr (mutual_nearest (threshold (thr self) conf) conf))
    by (unfold filtered_mask; now rewrite Hcand).
  destruct (get_coarse_match_matches _ _ _ Hm) as [cm [Hcm [_ Hms]]].
  eexists. exists cm. split; [exact Hm|]. split; [exact Hcm|].
  intros b i j c Hin Hgen. rewrite Hms in Hin.
  apply in_map_iff in Hin as [[b' i'] [E Hin]].
  unfold match_of in E. simpl in E. injection E as -> -> <- <-.
  destruct (in_where2_row_any _ _ _ Hin) as [_ [_ [Hv Hj]]].
  rewrite Hj. clear Hj.
  destruct (proj1 (max_index_spec _) Hv) as [Htrue _].
  unfold get2 in Htrue |- *.
  rewrite (apply_fallback_genuine Hgen) in Htrue |- *.
  destruct (mutual_nearest_true _ _ _ _ _ Htrue)
    as [_ [Hi [_ [_ [_ Hcol]]]]].
  auto.
Qed.

End ColumnPartners.

(** [X17] Two genuine matches of one sample that share their image-1 cell
    are tied: neither confidence exceeds the other.  So when the entries of
    the confidence matrix differ, no image-1 cell has two partners. *)
Theorem shared_partner_means_tie :
  forall (T : Type) (ST : Scalar T) (SO : ScalarOrder T)
         (sg : option (LogOptimalTransport T)) (cfg : Config T)
         (self : CoarseMatching T) (conf : tensor3 T) (data : Data T)
         (N : nat),
    __init__ sg cfg = inr self ->
    shape3 conf N (fst (hw0_c data) * snd (hw0_c data))
           (fst (hw1_c data) * snd (hw1_c data)) ->
    (mask0 data <> None -> mask1 data <> None) ->
    exists mask cm,
      filtered_mask self conf data = inr mask
      /\ get_coarse_match self conf data = inr cm
      /\ forall b i1 i2 j c1 c2,
          In (b, i1, j, c1) (matches cm) ->
          In (b, i2, j, c2) (matches cm) ->
          genuine data mask b ->
          sgtb c1 c2 = false /\ sgtb c2 c1 = false.
Proof.
  intros T ST SO sg cfg self conf data N Hinit Hshape Hkeys.
  destruct (init_inv _ _ Hinit) as [Hb0 _].
  destruct (@genuine_match_facts T ST self conf data N Hb0 Hshape Hkeys)
    as [mask [cm [Hm [Hcm Hfacts]]]].
  exists mask, cm. split; [exact Hm|]. split; [exact Hcm|].
  intros b i1 i2 j c1 c2 H1 H2 Hgen.
  destruct (Hfacts _ _ _ _ H1 Hgen) as [Hi1 [E1 Hmax1]].
  destruct (Hfacts _ _ _ _ H2 Hgen) as [Hi2 [E2 Hmax2]].
  assert (Hcolumn : forall i, i < length (nth b conf []) ->
                              In (get3 szero conf b i j)
                                 (column szero (nth b conf []) j)).
  { intros i Hi. unfold get3, column.
    rewrite <- (@nth_map_in_range _ _ (fun row => nth j row szero)
                  (nth b conf []) i [] szero Hi).
    apply nth_In. now rewrite length_map. }
  split.
  - eapply eq_max_upper; [exact Hmax2|]. rewrite E1. now apply Hcolumn.
  - eapply eq_max_upper; [exact Hmax1|]. rewrite E2. now apply Hcolumn.
Qed.

Lemma shared_partner_means_tie_witness :
  exists mask cm,
    filtered_mask (Sample.matcher 2) Sample.conf_tie (Sample.data false)
    = inr mask
    /\ get_coarse_match (Sample.matcher 2) Sample.conf_tie (Sample.data false)
       = inr cm
    /\ forall b i1 i2 j c1 c2,
        In (b, i1, j, c1) (matches cm) ->
        In (b, i2, j, c2) (matches cm) ->
        genuine (Sample.data false) mask b ->
        sgtb c1 c2 = false /\ sgtb c2 c1 = false.
Proof.
  apply (@shared_partner_means_tie Q Scalar_Q ScalarOrder_Q None
           (Sample.cfg "dual_softmax" 2) (Sample.matcher 2) Sample.conf_tie
           (Sample.data false) 1).
  - reflexivity.
  - repeat constructor.
  - intros H. exfalso. apply H. reflexivity.
Defined.
